(** * EANBQH: exact-area image upsizing with natural biquadratic histosplines

    A shallow embedding of the upsampling engine of [eanbqh.c] (16-bit
    samples) and [eanbqh8.c] (8-bit samples), with the overlap functions of
    [eanbqh.h], and the properties of the engine stated in the specification.

    Conventions of the embedding:
    - a C [int] is a [Z]; where the source computes products of the two
      dimensions of an axis ([last_overlapping_index],
      [coarse_to_fine_coefficients]) the 32-bit two's complement wrap-around
      is written out with [CInt.wrap]; the sizes and row offsets that
      [scale_up] computes on entry are checked against the range of [int]
      ([entry_ints]): when one of them overflows the behaviour is undefined
      and [scale_up] has no result; the counters and offsets used after
      that lie between 0 and those sizes and are plain [Z];
    - a C array is a function from indices to values, written with [upd];
      the initial content of a buffer obtained from [malloc] or declared
      without initialiser is a parameter of the function that uses it;
    - a pointer into an array is its offset from the start of the array;
    - a stream is the list of its whole units (one unit per sample: two
      bytes in [eanbqh.c], one in [eanbqh8.c]) as [fread] and [fwrite] move
      them; a file of [eanbqh.c] that ends in the middle of a unit is
      outside the embedding;
    - a loop whose trip count is not known on entry takes fuel and returns
      [None] when the fuel runs out;
    - [float] and [double] arithmetic is an interface ([FloatOps]); the
      control flow of the engine never inspects a floating-point value.
      [IEEE.ops] instantiates it with the binary32 and binary64 formats.

    The file has two parts: the definitions (C integers, arrays and loops,
    the four components of the engine in the order of the source,
    [scale_up], the vocabulary of the properties, the IEEE instance), then
    the properties, each claim [C1] .. [C10] of the specification that is
    settled here under a theorem that names it. *)

From Stdlib Require Import ZArith List Lia Bool.
From Stdlib Require Import SpecFloat.
Import ListNotations.
Local Open Scope Z_scope.

(** ** C integers *)

Module CInt.

Definition INT_MAX : Z := 2147483647.
Definition INT_MIN : Z := -2147483648.

(** The value a 32-bit two's complement register holds for [x]: [x] itself
    when it is representable, and otherwise its residue modulo 2^32 taken
    in the signed range. *)
Definition wrap (x : Z) : Z :=
  if (INT_MIN <=? x) && (x <=? INT_MAX) then x
  else (x + 2147483648) mod 4294967296 - 2147483648.

Definition in_range (x : Z) : Prop := INT_MIN <= x <= INT_MAX.

Definition add (a b : Z) : Z := wrap (a + b).
Definition sub (a b : Z) : Z := wrap (a - b).
Definition mul (a b : Z) : Z := wrap (a * b).

(** [x] is a value of type [int]. *)
Definition fits (x : Z) : bool := (INT_MIN <=? x) && (x <=? INT_MAX).

End CInt.

(** ** Arrays *)

(** [a[i] = v] on an array held as a function. *)
Definition upd {A : Type} (a : Z -> A) (i : Z) (v : A) : Z -> A :=
  fun j => if j =? i then v else a j.

(** ** OverlapMapper: [last_overlapping_index] *)

(** The inner search of the upsizing branch:
<<
      while (kk_plus_one_times_o < k_plus_one_times_oo)
      { kk++; kk_plus_one_times_o += o; }
>>
    It returns the fuel left with the final [kk] and [kk_plus_one_times_o]. *)
Fixpoint lo_search (fuel : nat) (o k_plus_one_times_oo kk kk_plus_one_times_o : Z)
  : option (nat * Z * Z) :=
  if kk_plus_one_times_o <? k_plus_one_times_oo then
    match fuel with
    | O => None
    | S fuel' =>
        lo_search fuel' o k_plus_one_times_oo
                  (CInt.add kk 1) (CInt.add kk_plus_one_times_o o)
    end
  else Some (fuel, kk, kk_plus_one_times_o).

(** The [do ... while (k<o_minus_1)] loop of the branch [oo>o]; [iters]
    bounds the trips of the outer loop and [fuel] those of the inner one. *)
Fixpoint lo_upsize (iters fuel : nat)
    (o oo o_minus_1 k k_plus_one_times_oo kk kk_plus_one_times_o : Z)
    (last_overlapping_kk : Z -> Z) : option (Z -> Z) :=
  match iters with
  | O => None
  | S iters' =>
      let kk := CInt.add kk 1 in
      let kk_plus_one_times_o := CInt.add kk_plus_one_times_o o in
      match lo_search fuel o k_plus_one_times_oo kk kk_plus_one_times_o with
      | None => None
      | Some (fuel', kk, kk_plus_one_times_o) =>
          let last_overlapping_kk := upd last_overlapping_kk k kk in
          let k := CInt.add k 1 in
          let k_plus_one_times_oo := CInt.add k_plus_one_times_oo oo in
          if k <? o_minus_1 then
            lo_upsize iters' fuel' o oo o_minus_1 k k_plus_one_times_oo
                      kk kk_plus_one_times_o last_overlapping_kk
          else Some last_overlapping_kk
      end
  end.

(** The [do ... while (k<o_minus_1)] loop of the branch [oo<=o]. *)
Fixpoint lo_same (iters : nat) (o_minus_1 k : Z) (last_overlapping_kk : Z -> Z)
  : option (Z -> Z) :=
  match iters with
  | O => None
  | S iters' =>
      let last_overlapping_kk := upd last_overlapping_kk k k in
      let k := CInt.add k 1 in
      if k <? o_minus_1 then lo_same iters' o_minus_1 k last_overlapping_kk
      else Some last_overlapping_kk
  end.

Definition last_overlapping_index (iters fuel : nat) (o oo : Z)
    (last_overlapping_kk : Z -> Z) : option (Z -> Z) :=
  let o_minus_1 := CInt.sub o 1 in
  let k := 0 in
  if oo >? o then
    let k_plus_one_times_oo := oo in
    let kk := 0 in
    let kk_plus_one_times_o := o in
    lo_upsize iters fuel o oo o_minus_1 k k_plus_one_times_oo
              kk kk_plus_one_times_o last_overlapping_kk
  else lo_same iters o_minus_1 k last_overlapping_kk.

(** Fuel that suffices for a pair of dimensions in the supported range. *)
Definition lo_run (o oo : Z) (last_overlapping_kk : Z -> Z) : option (Z -> Z) :=
  last_overlapping_index (Z.to_nat o) (Z.to_nat oo) o oo last_overlapping_kk.

(** [v] is the last fine cell overlapping coarse cell [k]: the largest [j]
    with [j * o < (k+1) * oo]. *)
Definition is_last_overlap (o oo k v : Z) : Prop :=
  v * o < (k + 1) * oo /\ forall j, j * o < (k + 1) * oo -> j <= v.

(** ** Loops with a known trip count *)

(** [n] trips of [body], the counter going up from [i]. *)
Fixpoint iter_from {S : Type} (n : nat) (i : Z) (body : Z -> S -> S) (s : S) : S :=
  match n with
  | O => s
  | S n' => iter_from n' (i + 1) body (body i s)
  end.

(** [while (i < hi) { body; i++; }]: the final counter and state. *)
Definition while_lt {S : Type} (i hi : Z) (body : Z -> S -> S) (s : S) : Z * S :=
  (Z.max i hi, iter_from (Z.to_nat (hi - i)) i body s).

(** [do { body } while (++i < hi);]: the final counter and state. *)
Definition do_while_lt {S : Type} (i hi : Z) (body : Z -> S -> S) (s : S) : Z * S :=
  while_lt (i + 1) hi body (body i s).

(** [n] trips of a body that does not read its counter. *)
Definition repeat_n {S : Type} (n : Z) (body : S -> S) (s : S) : S :=
  iter_from (Z.to_nat n) 0 (fun _ => body) s.

(** [c = n; do { body } while (--c);] and [c = n; while (c--) { body }]: [n]
    trips when [n] is positive, respectively non-negative; otherwise the
    counter runs through the negative numbers and the walk leaves its
    buffers, which the embedding reports as [None]. *)
Definition do_count {S : Type} (n : Z) (body : S -> S) (s : S) : option S :=
  if n <=? 0 then None else Some (repeat_n n body s).

Definition while_count {S : Type} (n : Z) (body : S -> S) (s : S) : option S :=
  if n <? 0 then None else Some (repeat_n n body s).

Definition bind {A B : Type} (x : option A) (f : A -> option B) : option B :=
  match x with
  | Some a => f a
  | None => None
  end.

Notation "x <- e ;; k" := (bind e (fun x => k))
  (at level 61, e at next level, right associativity).

(** ** Floating point *)

(** The arithmetic of [float] and [double] and the conversions the engine
    uses.  [float_lit m e] and [double_lit m e] stand for the decimal
    literal [m * 10^-e] of the source, [int_of_double] for the conversion
    of an initialiser [int out = ...] (truncation). *)
Class FloatOps : Type := {
  float : Type;
  double : Type;
  fadd : float -> float -> float;
  fsub : float -> float -> float;
  fmul : float -> float -> float;
  fdiv : float -> float -> float;
  dadd : double -> double -> double;
  dsub : double -> double -> double;
  dmul : double -> double -> double;
  ddiv : double -> double -> double;
  float_of_int : Z -> float;
  double_of_int : Z -> double;
  double_of_float : float -> double;
  float_of_double : double -> float;
  int_of_double : double -> Z;
  float_lit : Z -> Z -> float;
  double_lit : Z -> Z -> double
}.

(** The two sample widths: [eanbqh.c] and [eanbqh8.c]. *)
Inductive depth : Type := Bits16 | Bits8.

(** [((val & 0x00ff)<<8)|((val & 0xff00)>>8)] *)
Definition swap_bytes (val : Z) : Z :=
  Z.lor (Z.shiftl (Z.land val 255) 8) (Z.shiftr (Z.land val 65280) 8).

Section Engine.

Context {FO : FloatOps}.
Variable d : depth.

Definition channels : Z := 3.

(** The bound of the macro [ROUND_AND_CLAMP_TO_065535]: 65535 in
    [eanbqh.c], 255 in [eanbqh8.c]. *)
Definition clamp_max : Z :=
  match d with
  | Bits16 => 65535
  | Bits8 => 255
  end.

(** The second half of the macro: [(out > MAX) ? MAX : ((out < 0) ? 0 : out)]. *)
Definition clamp (out : Z) : Z :=
  if out >? clamp_max then clamp_max else if out <? 0 then 0 else out.

(** [ROUND_AND_CLAMP_TO_065535(x)], with [int out = .5 + (x);]. *)
Definition ROUND_AND_CLAMP_TO_065535 (x : float) : Z :=
  let out := int_of_double (dadd (double_lit 5 1) (double_of_float x)) in
  clamp out.

(** A sample as the engine reads it from a unit of the input stream: bytes
    swapped for 16-bit samples, as is for 8-bit ones. *)
Definition decode (unit : Z) : Z :=
  match d with
  | Bits16 => swap_bytes unit
  | Bits8 => unit
  end.

(** The multipliers of the LU factorisation. *)
Definition C0 : float := float_lit 2000000 7.
Definition C1 : float := float_lit 2631579 7.
Definition C2 : float := float_lit 2676056 7.
Definition C3 : float := float_lit 2679245 7.
Definition C4 : float := float_lit 2679474 7.
Definition C5 : float := float_lit 2679491 7.
Definition CLAST : float := float_lit 2113249 7.
Definition CINFTY : float := float_lit 2679492 7.

(** *** BandCoefficientGenerator: [coarse_to_fine_coefficients] *)

(** A double literal without fraction, as [3.] *)
Definition dl (m : Z) : double := double_lit m 0.

(** The antiderivatives of the cardinal basis functions (natural boundary
    conditions: [NOT_A_KNOT] is not defined). *)
Definition LEFT_BSPLINE (x : double) : double := dmul (dmul x x) x.
Definition CENTER_BSPLINE (x : double) : double :=
  dmul x (dsub (dl 3) (dmul x (dadd (dadd (dl (-3)) x) x))).
Definition RIGHT_BSPLINE (x : double) : double :=
  dmul x (dadd (dl 3) (dmul x (dadd (dl (-3)) x))).
Definition LEFT_BDRY_SPLINE (x : double) : double :=
  dmul x (dsub (dl 6) (dmul x x)).
Definition LEFT_BDRY_LEFT_SPLINE (x : double) : double := dmul (dmul x x) x.
Definition RIGHT_BDRY_SPLINE (x : double) : double :=
  dmul x (dadd (dl 3) (dmul x (dsub (dl 3) x))).
Definition RIGHT_BDRY_RIGHT_SPLINE (x : double) : double :=
  dmul x (dadd (dl 3) (dmul x (dadd (dl (-3)) x))).
Definition BDRY_INTEGRAL_LEFT_BDRY_SPLINE : double := dl 5.
Definition BDRY_INTEGRAL_LEFT_BDRY_LEFT_SPLINE : double := dl 1.

(** The four output arrays [left], [center], [right], [farright]. *)
Record bands : Type := {
  b_left : Z -> float;
  b_center : Z -> float;
  b_right : Z -> float;
  b_farright : Z -> float
}.

Definition set_left (b : bands) (i : Z) (v : double) : bands :=
  {| b_left := upd (b_left b) i (float_of_double v); b_center := b_center b;
     b_right := b_right b; b_farright := b_farright b |}.
Definition set_center (b : bands) (i : Z) (v : double) : bands :=
  {| b_left := b_left b; b_center := upd (b_center b) i (float_of_double v);
     b_right := b_right b; b_farright := b_farright b |}.
Definition set_right (b : bands) (i : Z) (v : double) : bands :=
  {| b_left := b_left b; b_center := b_center b;
     b_right := upd (b_right b) i (float_of_double v); b_farright := b_farright b |}.
Definition set_farright (b : bands) (i : Z) (v : double) : bands :=
  {| b_left := b_left b; b_center := b_center b;
     b_right := b_right b; b_farright := upd (b_farright b) i (float_of_double v) |}.

(** The running values of the generator. *)
Record c2f : Type := {
  x : double;
  previous_integral_l : double;
  previous_integral_c : double;
  previous_integral_r : double;
  out : bands
}.

(** Fine cells inside the first coarse cell. *)
Definition c2f_first_cell (h : double) (kk : Z) (s : c2f) : c2f :=
  let x := dadd (x s) h in
  let integral_c := LEFT_BDRY_SPLINE x in
  let b := set_center (out s) kk (dsub integral_c (previous_integral_c s)) in
  let integral_r := LEFT_BDRY_LEFT_SPLINE x in
  let b := set_right b kk (dsub integral_r (previous_integral_r s)) in
  {| x := x; previous_integral_l := previous_integral_l s;
     previous_integral_c := integral_c; previous_integral_r := integral_r;
     out := b |}.

(** The last fine cell overlapping the first coarse cell. *)
Definition c2f_first_boundary (o oo : Z) (one_over_oo : double) (kk : Z) (s : c2f) : c2f :=
  let x := dmul (double_of_int (CInt.sub (CInt.mul (CInt.add kk 1) o) oo)) one_over_oo in
  let previous_integral_l := RIGHT_BSPLINE x in
  let b := set_center (out s) kk
             (dadd previous_integral_l
                   (dsub BDRY_INTEGRAL_LEFT_BDRY_SPLINE (previous_integral_c s))) in
  let previous_integral_c := CENTER_BSPLINE x in
  let b := set_right b kk
             (dadd previous_integral_c
                   (dsub BDRY_INTEGRAL_LEFT_BDRY_LEFT_SPLINE (previous_integral_r s))) in
  let previous_integral_r := LEFT_BSPLINE x in
  let b := set_farright b 0 previous_integral_r in
  {| x := x; previous_integral_l := previous_integral_l;
     previous_integral_c := previous_integral_c;
     previous_integral_r := previous_integral_r; out := b |}.

(** Fine cells inside an interior coarse cell. *)
Definition c2f_interior_cell (h : double) (kk : Z) (s : c2f) : c2f :=
  let x := dadd (x s) h in
  let integral_l := RIGHT_BSPLINE x in
  let b := set_left (out s) kk (dsub integral_l (previous_integral_l s)) in
  let integral_c := CENTER_BSPLINE x in
  let b := set_center b kk (dsub integral_c (previous_integral_c s)) in
  let integral_r := LEFT_BSPLINE x in
  let b := set_right b kk (dsub integral_r (previous_integral_r s)) in
  {| x := x; previous_integral_l := integral_l;
     previous_integral_c := integral_c; previous_integral_r := integral_r;
     out := b |}.

(** The last fine cell overlapping the interior coarse cell [k]. *)
Definition c2f_interior_boundary (o oo : Z) (one_over_oo : double) (k kk : Z) (s : c2f)
  : c2f :=
  let x := dmul (double_of_int
                   (CInt.sub (CInt.mul (CInt.add kk 1) o) (CInt.mul (CInt.add k 1) oo)))
                one_over_oo in
  let b := set_left (out s) kk (dsub (dl 1) (previous_integral_l s)) in
  let previous_integral_l := RIGHT_BSPLINE x in
  let b := set_center b kk
             (dadd previous_integral_l (dsub (dl 4) (previous_integral_c s))) in
  let previous_integral_c := CENTER_BSPLINE x in
  let b := set_right b kk
             (dadd previous_integral_c (dsub (dl 1) (previous_integral_r s))) in
  let previous_integral_r := LEFT_BSPLINE x in
  let b := set_farright b k previous_integral_r in
  {| x := x; previous_integral_l := previous_integral_l;
     previous_integral_c := previous_integral_c;
     previous_integral_r := previous_integral_r; out := b |}.

(** One trip of [do { ... } while (++k<o_minus_1)]. *)
Definition c2f_coarse_cell (o oo : Z) (one_over_oo h : double)
    (last_overlapping_kk : Z -> Z) (k : Z) (st : Z * c2f) : Z * c2f :=
  let '(kk, s) := st in
  let last_kk := last_overlapping_kk k in
  let '(kk, s) := while_lt (kk + 1) last_kk (c2f_interior_cell h) s in
  (kk, c2f_interior_boundary o oo one_over_oo k kk s).

(** The correction [if ( oo%o ) { ... }] on the last coarse cell. *)
Definition c2f_last_correction (kk : Z) (s : c2f) : c2f :=
  let b := out s in
  let b := set_right b kk (dsub (double_of_float (b_right b kk)) (previous_integral_c s)) in
  let previous_integral_c := RIGHT_BDRY_SPLINE (x s) in
  let b := set_right b kk (dadd (double_of_float (b_right b kk)) previous_integral_c) in
  {| x := x s; previous_integral_l := previous_integral_l s;
     previous_integral_c := previous_integral_c;
     previous_integral_r := previous_integral_r s; out := b |}.

(** Fine cells inside the last coarse cell. *)
Definition c2f_last_cell (h : double) (kk : Z) (s : c2f) : c2f :=
  let x := dadd (x s) h in
  let integral_l := RIGHT_BDRY_RIGHT_SPLINE x in
  let b := set_left (out s) kk (dsub integral_l (previous_integral_l s)) in
  let integral_c := RIGHT_BDRY_SPLINE x in
  let b := set_center b kk (dsub integral_c (previous_integral_c s)) in
  {| x := x; previous_integral_l := integral_l;
     previous_integral_c := integral_c;
     previous_integral_r := previous_integral_r s; out := b |}.

(** [previous_integral_l0] is the content of the variable
    [previous_integral_l] before its first assignment. *)
Definition coarse_to_fine_coefficients (o oo : Z) (last_overlapping_kk : Z -> Z)
    (previous_integral_l0 : double) (arrays : bands) : bands :=
  let one_over_oo := ddiv (dl 1) (double_of_int oo) in
  let h := dmul (double_of_int o) one_over_oo in
  let o_minus_1 := o - 1 in
  let s := {| x := dl 0; previous_integral_l := previous_integral_l0;
              previous_integral_c := dl 0; previous_integral_r := dl 0;
              out := arrays |} in
  let last_kk := last_overlapping_kk 0 in
  let '(kk, s) := while_lt 0 last_kk (c2f_first_cell h) s in
  let s := c2f_first_boundary o oo one_over_oo kk s in
  let '(_, (kk, s)) :=
    do_while_lt 1 o_minus_1 (c2f_coarse_cell o oo one_over_oo h last_overlapping_kk)
                (kk, s) in
  let s := if Z.rem oo o =? 0 then s else c2f_last_correction kk s in
  let kk := kk + 1 in
  let '(_, s) := while_lt kk oo (c2f_last_cell h) s in
  out s.

(** *** ControlCoefficientSolver: the first block of [scale_up] *)

(** [fread (buf, size, count, file)] on a stream of units of [size] bytes:
    the number of units read, the buffer and the rest of the stream.  The
    stream is the list of the whole units of the file.  For the bytes of
    eanbqh8.c that is the file itself; for the two-byte units of eanbqh.c
    it is a file that ends on a unit boundary: what [fread] leaves in the
    buffer for a unit of which only the first byte is there is outside
    this embedding. *)
Fixpoint store_from {A : Type} (buf : Z -> A) (i : Z) (l : list A) : Z -> A :=
  match l with
  | [] => buf
  | v :: l' => store_from (upd buf i v) (i + 1) l'
  end.

Definition fread (count : Z) (file : list Z) (buf : Z -> Z) : Z * (Z -> Z) * list Z :=
  let got := firstn (Z.to_nat count) file in
  (Z.of_nat (length got), store_from buf 0 got, skipn (Z.to_nat count) file).

(** The array [a] with the pointers [a1], [a2] (offsets from [a]) and
    [input_row_p] (offset from [input_row]). *)
Record walk : Type := {
  w_a : Z -> float;
  w_a1 : Z;
  w_a2 : Z;
  w_in : Z
}.

Section Solver.

Variable mm_nn_over_m_n : float.
Variable input_row : Z -> Z.

(** [val = *input_row_p++; (swap bytes;) ... val * mm_nn_over_m_n] *)
Definition scaled_sample (p : Z) : float :=
  fmul (float_of_int (decode (input_row p))) mm_nn_over_m_n.

(** [*a1++ = val * mm_nn_over_m_n;] *)
Definition row_first (w : walk) : walk :=
  {| w_a := upd (w_a w) (w_a1 w) (scaled_sample (w_in w));
     w_a1 := w_a1 w + 1; w_a2 := w_a2 w; w_in := w_in w + 1 |}.

(** [*a1++ = val * mm_nn_over_m_n - *a2++ * C;] *)
Definition row_forward_step (C : float) (w : walk) : walk :=
  {| w_a := upd (w_a w) (w_a1 w)
                (fsub (scaled_sample (w_in w)) (fmul (w_a w (w_a2 w)) C));
     w_a1 := w_a1 w + 1; w_a2 := w_a2 w + 1; w_in := w_in w + 1 |}.

(** [*a1-- *= CLAST;] *)
Definition row_last (w : walk) : walk :=
  {| w_a := upd (w_a w) (w_a1 w) (fmul (w_a w (w_a1 w)) CLAST);
     w_a1 := w_a1 w - 1; w_a2 := w_a2 w; w_in := w_in w |}.

(** [*a1 = ( *a1 - *a2-- ) * C; --a1;] *)
Definition row_backward_step (C : float) (w : walk) : walk :=
  {| w_a := upd (w_a w) (w_a1 w)
                (fmul (fsub (w_a w (w_a1 w)) (w_a w (w_a2 w))) C);
     w_a1 := w_a1 w - 1; w_a2 := w_a2 w - 1; w_in := w_in w |}.

Definition move (d1 d2 : Z) (w : walk) : walk :=
  {| w_a := w_a w; w_a1 := w_a1 w + d1; w_a2 := w_a2 w + d2; w_in := w_in w |}.

(** The forward substitution along row [i] ("column forward substitution"
    in the source). *)
Definition row_forward (n i : Z) (a : Z -> float) : option walk :=
  let n_times_channels := channels * n in
  let n_minus_7_times_channels := (n - 7) * channels in
  let w := {| w_a := a; w_a1 := i * n_times_channels;
              w_a2 := i * n_times_channels; w_in := 0 |} in
  let w := repeat_n channels row_first w in
  let w := repeat_n channels (row_forward_step C0) w in
  let w := repeat_n channels (row_forward_step C1) w in
  let w := repeat_n channels (row_forward_step C2) w in
  let w := repeat_n channels (row_forward_step C3) w in
  let w := repeat_n channels (row_forward_step C4) w in
  let w := repeat_n channels (row_forward_step C5) w in
  while_count n_minus_7_times_channels (row_forward_step CINFTY) w.

(** The back substitution along the same row. *)
Definition row_backward (n : Z) (w : walk) : option walk :=
  let n_minus_7_times_channels := (n - 7) * channels in
  let w := move (-1) 0 w in
  let w := repeat_n channels row_last w in
  let w := move 0 (channels - 1) w in
  w <- while_count n_minus_7_times_channels (row_backward_step CINFTY) w ;;
  let w := repeat_n channels (row_backward_step C5) w in
  let w := repeat_n channels (row_backward_step C4) w in
  let w := repeat_n channels (row_backward_step C3) w in
  let w := repeat_n channels (row_backward_step C2) w in
  let w := repeat_n channels (row_backward_step C1) w in
  let w := repeat_n channels (row_backward_step C0) w in
  Some w.

Definition solve_row (n i : Z) (a : Z -> float) : option (Z -> float) :=
  w <- row_forward n i a ;;
  w <- row_backward n w ;;
  Some (w_a w).

End Solver.

(** The loop [do { ... } while (++i<m)] that reads the rows: [inl 1] is the
    [return 1] taken when [fread] yields no unit, [inr] the state on normal
    exit. *)
Fixpoint read_rows (trips : nat) (mm_nn_over_m_n : float) (m n i : Z)
    (inputfile : list Z) (input_row : Z -> Z) (a : Z -> float)
  : option (Z + (list Z * (Z -> Z) * (Z -> float))) :=
  match trips with
  | O => None
  | S trips' =>
      let n_times_channels := channels * n in
      let '(got, input_row, inputfile) := fread n_times_channels inputfile input_row in
      if got =? 0 then Some (inl 1)
      else
        a <- solve_row mm_nn_over_m_n input_row n i a ;;
        let i := i + 1 in
        if i <? m then read_rows trips' mm_nn_over_m_n m n i inputfile input_row a
        else Some (inr (inputfile, input_row, a))
  end.

(** [*a1++ -= *a2++ * C;] *)
Definition col_forward_step (C : float) (w : walk) : walk :=
  {| w_a := upd (w_a w) (w_a1 w)
                (fsub (w_a w (w_a1 w)) (fmul (w_a w (w_a2 w)) C));
     w_a1 := w_a1 w + 1; w_a2 := w_a2 w + 1; w_in := w_in w |}.

(** [*a1++ *= CLAST;] *)
Definition col_last (w : walk) : walk :=
  {| w_a := upd (w_a w) (w_a1 w) (fmul (w_a w (w_a1 w)) CLAST);
     w_a1 := w_a1 w + 1; w_a2 := w_a2 w; w_in := w_in w |}.

(** [*a1 = ( *a1 - *a2++ ) * C; ++a1;] *)
Definition col_backward_step (C : float) (w : walk) : walk :=
  {| w_a := upd (w_a w) (w_a1 w)
                (fmul (fsub (w_a w (w_a1 w)) (w_a w (w_a2 w))) C);
     w_a1 := w_a1 w + 1; w_a2 := w_a2 w + 1; w_in := w_in w |}.

(** The forward substitution down the columns ("row based forward
    substitution" in the source): the final [i] and the walk. *)
Definition col_forward (m n : Z) (a : Z -> float) : Z * walk :=
  let n_times_channels := channels * n in
  let w := {| w_a := a; w_a1 := n_times_channels; w_a2 := 0; w_in := 0 |} in
  let w := repeat_n n_times_channels (col_forward_step C0) w in
  let w := repeat_n n_times_channels (col_forward_step C1) w in
  let w := repeat_n n_times_channels (col_forward_step C2) w in
  let w := repeat_n n_times_channels (col_forward_step C3) w in
  let w := repeat_n n_times_channels (col_forward_step C4) w in
  let w := repeat_n n_times_channels (col_forward_step C5) w in
  while_lt 7 m (fun _ => repeat_n n_times_channels (col_forward_step CINFTY)) w.

(** The back substitution up the columns. *)
Definition col_backward (n : Z) (iw : Z * walk) : walk :=
  let n_times_channels := channels * n in
  let n_times_channels_times_2 := n_times_channels + n_times_channels in
  let '(i, w) := iw in
  let w := move (- n_times_channels) 0 w in
  let i := i - 1 in
  let w := repeat_n n_times_channels col_last w in
  let w := move (- n_times_channels_times_2) 0 w in
  let i := i - 1 in
  let w := repeat_n (i - 5)
             (fun w =>
                let w := repeat_n n_times_channels (col_backward_step CINFTY) w in
                move (- n_times_channels_times_2) (- n_times_channels_times_2) w)
             w in
  let w := repeat_n n_times_channels (col_backward_step C5) w in
  let w := move (- n_times_channels_times_2) (- n_times_channels_times_2) w in
  let w := repeat_n n_times_channels (col_backward_step C4) w in
  let w := move (- n_times_channels_times_2) (- n_times_channels_times_2) w in
  let w := repeat_n n_times_channels (col_backward_step C3) w in
  let w := move (- n_times_channels_times_2) (- n_times_channels_times_2) w in
  let w := repeat_n n_times_channels (col_backward_step C2) w in
  let w := move (- n_times_channels_times_2) (- n_times_channels_times_2) w in
  let w := repeat_n n_times_channels (col_backward_step C1) w in
  let w := move (- n_times_channels_times_2) (- n_times_channels_times_2) w in
  repeat_n n_times_channels (col_backward_step C0) w.

(** The loops [c = n_times_channels; do { ... } while (--c);] of the column
    pass need a positive count. *)
Definition solve_columns (m n : Z) (a : Z -> float) : option (Z -> float) :=
  if channels * n <=? 0 then None
  else Some (w_a (col_backward n (col_forward m n a))).

(** *** TensorSynthesizer: the rest of [scale_up] *)

(** The four taps [a_R_left], [a_R_center], [a_R_right], [a_R_farright] of
    one row [R] of control coefficients (each an array over the channels),
    with the pointer ([a1] .. [a4]) that walks along that row. *)
Record window : Type := {
  a_left : Z -> float;
  a_center : Z -> float;
  a_right : Z -> float;
  a_farright : Z -> float;
  a_next : Z
}.

(** The three loops that fill center, right and farright from the start
    [p] of a row. *)
Definition load (a : Z -> float) (a_left0 : Z -> float) (p : Z) : window :=
  {| a_left := a_left0;
     a_center := fun c => a (p + c);
     a_right := fun c => a (p + channels + c);
     a_farright := fun c => a (p + 2 * channels + c);
     a_next := p + 3 * channels |}.

(** The shift of an interior coarse column: a new farright is read. *)
Definition shift_read (a : Z -> float) (w : window) : window :=
  {| a_left := a_center w;
     a_center := a_right w;
     a_right := a_farright w;
     a_farright := fun c => a (a_next w + c);
     a_next := a_next w + channels |}.

(** The shift at [j = n-2]. *)
Definition shift_three (w : window) : window :=
  {| a_left := a_center w;
     a_center := a_right w;
     a_right := a_farright w;
     a_farright := a_farright w;
     a_next := a_next w |}.

(** The shift at [j = n-1]. *)
Definition shift_two (w : window) : window :=
  {| a_left := a_center w;
     a_center := a_right w;
     a_right := a_right w;
     a_farright := a_farright w;
     a_next := a_next w |}.

(** The farbottom shift as lines 1675-1678 of [eanbqh.c] (1226-1229 of
    [eanbqh8.c]) have it: left, center and right are taken from the bottom
    taps, which the lines just above have already shifted. *)
Definition shift_farbottom_from_bottom (a : Z -> float) (bottom' farbottom : window)
  : window :=
  {| a_left := a_center bottom';
     a_center := a_right bottom';
     a_right := a_farright bottom';
     a_farright := fun c => a (a_next farbottom + c);
     a_next := a_next farbottom + channels |}.

(** The six copies of the column loop, by the fine rows they produce. *)
Inductive row_kind : Type :=
| FirstInner       (* rows before the last one overlapping coarse row 0 *)
| FirstLast        (* the last fine row overlapping coarse row 0 *)
| InteriorInner    (* coarse rows 1 .. m-3, before their last fine row *)
| InteriorLast     (* the last fine row overlapping a coarse row 1 .. m-3 *)
| SecondToLast     (* coarse row m-2 *)
| LastRow.         (* coarse row m-1 *)

(** The shift inside [do { ... } while (++j<n_minus_two)]. *)
Definition shift_interior (kind : row_kind) (a : Z -> float) (wins : list window)
  : list window :=
  match kind, wins with
  | InteriorLast, [top; middle; bottom; farbottom] =>
      let bottom' := shift_read a bottom in
      [shift_read a top; shift_read a middle; bottom';
       shift_farbottom_from_bottom a bottom' farbottom]
  | _, _ => map (shift_read a) wins
  end.

(** The shift as the specification words it ("exactly analogous" for every
    row of the window): the definition C7 is compared with. *)
Definition shift_interior_analogous (a : Z -> float) (wins : list window)
  : list window :=
  map (shift_read a) wins.

(** [w1 * t1[c] + w2 * t2[c] + ...] over the rows of the window, in the
    order of the source (top, middle, bottom, farbottom). *)
Definition tap_sum (weights : list float) (wins : list window)
    (tap : window -> Z -> float) (c : Z) : float :=
  match combine weights wins with
  | [] => float_of_int 0
  | (w, t) :: rest =>
      fold_left (fun acc wt => fadd acc (fmul (fst wt) (tap (snd wt) c)))
                rest (fmul w (tap t c))
  end.

(** [output_row] with [output_row_p] as an offset. *)
Record outbuf : Type := {
  output_row : Z -> Z;
  output_row_p : Z
}.

(** [c = 0; do { *output_row_p++ = ROUND_AND_CLAMP_TO_065535(value c); }
    while (++c<channels);] *)
Definition emit (value : Z -> float) (ob : outbuf) : outbuf :=
  iter_from (Z.to_nat channels) 0
    (fun c ob =>
       {| output_row := upd (output_row ob) (output_row_p ob)
                            (ROUND_AND_CLAMP_TO_065535 (value c));
          output_row_p := output_row_p ob + 1 |})
    ob.

Section Columns.

Variable kind : row_kind.
Variable a : Z -> float.
Variable weights : list float.
Variable horizontal : bands.
Variable last_overlapping_jj : Z -> Z.
Variables n nn : Z.

Definition value_first (wins : list window) (jj c : Z) : float :=
  fadd (fmul (tap_sum weights wins a_center c) (b_center horizontal jj))
       (fmul (tap_sum weights wins a_right c) (b_right horizontal jj)).

Definition value_first_boundary (wins : list window) (jj j c : Z) : float :=
  fadd (value_first wins jj c)
       (fmul (tap_sum weights wins a_farright c) (b_farright horizontal j)).

Definition value_interior (wins : list window) (jj c : Z) : float :=
  fadd (fadd (fmul (tap_sum weights wins a_left c) (b_left horizontal jj))
             (fmul (tap_sum weights wins a_center c) (b_center horizontal jj)))
       (fmul (tap_sum weights wins a_right c) (b_right horizontal jj)).

Definition value_interior_boundary (wins : list window) (jj j c : Z) : float :=
  fadd (value_interior wins jj c)
       (fmul (tap_sum weights wins a_farright c) (b_farright horizontal j)).

Definition value_last (wins : list window) (jj c : Z) : float :=
  fadd (fmul (tap_sum weights wins a_left c) (b_left horizontal jj))
       (fmul (tap_sum weights wins a_center c) (b_center horizontal jj)).

(** One trip of [do { ... } while (++j<n_minus_two)]. *)
Definition interior_column (j : Z) (st : Z * list window * outbuf)
  : Z * list window * outbuf :=
  let '(jj, wins, ob) := st in
  let wins := shift_interior kind a wins in
  let last_jj := last_overlapping_jj j in
  let '(jj, ob) := while_lt jj last_jj (fun jj => emit (value_interior wins jj)) ob in
  let ob := emit (value_interior_boundary wins jj j) ob in
  (jj + 1, wins, ob).

(** The index of the overlap map read at [j = n-2]: [n_minus_two] in the
    first three copies of the loop, [j] in the last three. *)
Definition second_to_last_index (j n_minus_two : Z) : Z :=
  match kind with
  | FirstInner | FirstLast | InteriorInner => n_minus_two
  | InteriorLast | SecondToLast | LastRow => j
  end.

(** One fine row: from [output_row_p = output_row] to the last column. The
    result is the final [jj] with the buffer. [rows] are the offsets in [a]
    of the coarse rows combined, [a_left0] the content of the left taps
    before their first assignment. *)
Definition synthesize_row (rows : list Z) (a_left0 : Z -> float) (buffer : Z -> Z)
  : Z * outbuf :=
  let n_minus_two := n - 2 in
  let ob := {| output_row := buffer; output_row_p := 0 |} in
  let wins := map (load a a_left0) rows in
  let last_jj := last_overlapping_jj 0 in
  let '(jj, ob) := while_lt 0 last_jj (fun jj => emit (value_first wins jj)) ob in
  let ob := emit (value_first_boundary wins jj 0) ob in
  let jj := jj + 1 in
  let '(j, (jj, wins, ob)) := do_while_lt 1 n_minus_two interior_column (jj, wins, ob) in
  (* j = n-2 *)
  let wins := map shift_three wins in
  let last_jj := last_overlapping_jj (second_to_last_index j n_minus_two) + 1 in
  let '(jj, ob) := while_lt jj last_jj (fun jj => emit (value_interior wins jj)) ob in
  (* j = n-1 *)
  let wins := map shift_two wins in
  while_lt jj nn (fun jj => emit (value_last wins jj)) ob.

End Columns.

(** The byte swap of the 16-bit engine over the [nn] pixels of the row,
    then [fwrite (output_row, size, nn_times_channels, outputfile)]: the
    buffer and the units written. *)
Definition write_row (nn : Z) (buffer : Z -> Z) : (Z -> Z) * list Z :=
  let nn_times_channels := channels * nn in
  let buffer :=
    match d with
    | Bits16 =>
        fun q => if (0 <=? q) && (q <? 3 * nn) then swap_bytes (buffer q)
                 else buffer q
    | Bits8 => buffer
    end in
  (buffer, map (fun q => buffer (Z.of_nat q)) (seq 0 (Z.to_nat nn_times_channels))).

(** The state of the row loops: [output_row] and what has been written to
    [outputfile], one list of units per [fwrite]. *)
Record synth : Type := {
  buffer : Z -> Z;
  outputfile : list (list Z)
}.

Section Rows.

Variable a : Z -> float.
Variables horizontal vertical : bands.
Variables last_overlapping_jj last_overlapping_ii : Z -> Z.
Variables m n mm nn : Z.
Variable a_left0 : Z -> float.

(** The weights and the coarse rows of each copy of the column loop, for
    the fine row [ii] and the coarse row [i]. *)
Definition row_weights (kind : row_kind) (i ii : Z) : list float :=
  let top := b_left vertical in
  let middle := b_center vertical in
  let bottom := b_right vertical in
  let farbottom := b_farright vertical in
  match kind with
  | FirstInner => [middle ii; bottom ii]
  | FirstLast => [middle ii; bottom ii; farbottom 0]
  | InteriorInner | SecondToLast => [top ii; middle ii; bottom ii]
  | InteriorLast => [top ii; middle ii; bottom ii; farbottom i]
  | LastRow => [top ii; middle ii]
  end.

Definition row_offsets (kind : row_kind) (i : Z) : list Z :=
  let n_times_channels := channels * n in
  let n_times_channels_times_2 := n_times_channels + n_times_channels in
  match kind with
  | FirstInner => [0; n_times_channels]
  | FirstLast => [0; n_times_channels; n_times_channels_times_2]
  | InteriorInner =>
      [(i - 1) * n_times_channels; i * n_times_channels; (i + 1) * n_times_channels]
  | InteriorLast =>
      [(i - 1) * n_times_channels; i * n_times_channels; (i + 1) * n_times_channels;
       (i + 2) * n_times_channels]
  | SecondToLast =>
      [(m - 3) * n_times_channels; (m - 2) * n_times_channels;
       (m - 1) * n_times_channels]
  | LastRow => [(m - 2) * n_times_channels; (m - 1) * n_times_channels]
  end.

(** One fine row computed and written. *)
Definition fine_row (kind : row_kind) (i ii : Z) (s : synth) : synth :=
  let '(_, ob) :=
    synthesize_row kind a (row_weights kind i ii) horizontal last_overlapping_jj
                   n nn (row_offsets kind i) a_left0 (buffer s) in
  let '(buffer, units) := write_row nn (output_row ob) in
  {| buffer := buffer; outputfile := outputfile s ++ [units] |}.

(** One trip of [do { ... } while (++i<m_minus_two)]. *)
Definition coarse_row (i : Z) (st : Z * synth) : Z * synth :=
  let '(ii, s) := st in
  let last_ii := last_overlapping_ii i in
  let '(ii, s) := while_lt ii last_ii (fine_row InteriorInner i) s in
  let s := fine_row InteriorLast i ii s in
  (ii + 1, s).

Definition synthesize (output_row0 : Z -> Z) : synth :=
  let m_minus_two := m - 2 in
  let s := {| buffer := output_row0; outputfile := [] |} in
  let last_ii := last_overlapping_ii 0 in
  let '(ii, s) := while_lt 0 last_ii (fine_row FirstInner 0) s in
  let s := fine_row FirstLast 0 ii s in
  let ii := ii + 1 in
  let '(_, (ii, s)) := do_while_lt 1 m_minus_two coarse_row (ii, s) in
  let last_ii := last_overlapping_ii m_minus_two + 1 in
  let '(ii, s) := while_lt ii last_ii (fine_row SecondToLast 0) s in
  let '(_, s) := while_lt ii mm (fine_row LastRow 0) s in
  s.

End Rows.

(** *** [scale_up] *)

(** The contents of storage that [scale_up] uses before writing it: the
    buffers from [malloc], the variable-length arrays and two locals. *)
Record storage : Type := {
  g_a : Z -> float;
  g_input_row : Z -> Z;
  g_output_row : Z -> Z;
  g_last_overlapping_jj : Z -> Z;
  g_last_overlapping_ii : Z -> Z;
  g_horizontal : bands;
  g_vertical : bands;
  g_previous_integral_l : double;
  g_a_left : Z -> float
}.

(** The [int] values that [scale_up] computes on entry for its sizes and
    row offsets (eanbqh.c 465-469, 530-537 and 555): [channels * n],
    [channels * nn], [n_times_channels + n_times_channels],
    [(n-7) * channels], [m - 1], [m - 2], [m - 3], [n - 2], the three
    products [(m-1|m-2|m-3) * n_times_channels], and [m * n_times_channels]
    in the size passed to [malloc].  Every later offset into [a] lies
    between 0 and the last of them. *)
Definition entry_ints (m n nn : Z) : list Z :=
  let n_times_channels := channels * n in
  let nn_times_channels := channels * nn in
  [ n_times_channels; nn_times_channels; n_times_channels + n_times_channels;
    (n - 7) * channels; m - 1; m - 2; m - 3; n - 2;
    (m - 1) * n_times_channels; (m - 2) * n_times_channels;
    (m - 3) * n_times_channels; m * n_times_channels ].

(** [scale_up (inputfile, outputfile, m, n, mm, nn, maxval)]: the value
    returned and the rows written to [outputfile].  [fuel] bounds the loops
    of [last_overlapping_index].  When one of the [entry_ints] is not a
    value of type [int] the signed overflow leaves the sizes and offsets
    undefined, and with them the behaviour of the function: there is no
    result. *)
Definition scale_up (fuel : nat) (g : storage) (inputfile : list Z)
    (m n mm nn maxval : Z) : option (Z * list (list Z)) :=
  if negb (forallb CInt.fits (entry_ints m n nn)) then None else
  let mm_nn_over_m_n :=
    fdiv (fmul (float_of_int mm) (float_of_int nn))
         (fmul (float_of_int m) (float_of_int n)) in
  r <- read_rows (Z.to_nat (Z.max 1 m)) mm_nn_over_m_n m n 0 inputfile
                 (g_input_row g) (g_a g) ;;
  match r with
  | inl code => Some (code, [])
  | inr (_, _, a) =>
      a <- solve_columns m n a ;;
      last_overlapping_jj <-
        last_overlapping_index fuel fuel n nn (g_last_overlapping_jj g) ;;
      last_overlapping_ii <-
        last_overlapping_index fuel fuel m mm (g_last_overlapping_ii g) ;;
      let horizontal :=
        coarse_to_fine_coefficients n nn last_overlapping_jj
                                    (g_previous_integral_l g) (g_horizontal g) in
      let vertical :=
        coarse_to_fine_coefficients m mm last_overlapping_ii
                                    (g_previous_integral_l g) (g_vertical g) in
      let s := synthesize a horizontal vertical last_overlapping_jj
                          last_overlapping_ii m n mm nn (g_a_left g)
                          (g_output_row g) in
      Some (0, outputfile s)
  end.

End Engine.

(** ** Vocabulary of the properties *)

Section Vocabulary.

Context {FO : FloatOps}.
Variable d : depth.

(** [v] came out of the macro [ROUND_AND_CLAMP_TO_065535]. *)
Definition rounded (v : Z) : Prop :=
  exists x : float, v = ROUND_AND_CLAMP_TO_065535 d x.

(** The state of the column loop when [jj] fine columns are done: the
    output position stands at the sample after them and every sample
    before it has been written by the macro. *)
Definition columns_done (jj : Z) (ob : outbuf) : Prop :=
  output_row_p ob = channels * jj
  /\ forall q, 0 <= q < channels * jj -> rounded (output_row ob q).

(** What the column and row loops need from an overlap map over [o] coarse
    and [oo] fine cells. *)
Definition overlap_ok (o oo : Z) (last_overlapping_kk : Z -> Z) : Prop :=
  0 <= last_overlapping_kk 0
  /\ (forall k, 0 <= k < o - 2 -> last_overlapping_kk k < last_overlapping_kk (k + 1))
  /\ last_overlapping_kk (o - 2) < oo.

(** The multiplier the forward substitution applies to entry [j] of a row
    or column: none for the first entry, [C0] .. [C5] for the next six,
    [CINFTY] from then on. *)
Definition forward_multiplier (j : Z) : option float :=
  if j <=? 0 then None
  else if j =? 1 then Some C0
  else if j =? 2 then Some C1
  else if j =? 3 then Some C2
  else if j =? 4 then Some C3
  else if j =? 5 then Some C4
  else if j =? 6 then Some C5
  else Some CINFTY.

(** Entry [j] after the forward substitution, from its value [entry] before
    and the eliminated entry [previous] on its left (above). *)
Definition forward_entry (j : Z) (entry previous : float) : float :=
  match forward_multiplier j with
  | None => entry
  | Some C => fsub entry (fmul previous C)
  end.

(** The walk along row [base] after [T] samples of the forward
    substitution, [a0] being the array on entry. *)
Definition forward_prefix (s : float) (input_row : Z -> Z) (a0 : Z -> float)
    (base T : Z) (w : walk) : Prop :=
  w_a1 w = base + T /\ w_a2 w = base + T - channels /\ w_in w = T
  /\ (forall q, q < base \/ base + T <= q -> w_a w q = a0 q)
  /\ (forall j c, 0 <= j -> 0 <= c < channels -> channels * j + c < T ->
        w_a w (base + channels * j + c)
        = forward_entry j (scaled_sample d s input_row (channels * j + c))
                        (w_a w (base + channels * (j - 1) + c))).

(** The walk down the columns after [R] rows of the forward substitution,
    [a0] being the array on entry and [width] the length of a row. *)
Definition forward_rows (a0 : Z -> float) (width R : Z) (w : walk) : Prop :=
  w_a1 w = R * width /\ w_a2 w = (R - 1) * width
  /\ (forall q, q < width \/ R * width <= q -> w_a w q = a0 q)
  /\ (forall r q, 1 <= r < R -> 0 <= q < width ->
        w_a w (r * width + q)
        = forward_entry r (a0 (r * width + q)) (w_a w ((r - 1) * width + q))).

(** A unit of the output stream that carries a sample produced by the
    macro: the sample itself for 8-bit samples, its bytes swapped for 16-bit
    ones. *)
Definition written_unit (unit : Z) : Prop :=
  exists x : float,
    unit = match d with
           | Bits16 => swap_bytes (ROUND_AND_CLAMP_TO_065535 d x)
           | Bits8 => ROUND_AND_CLAMP_TO_065535 d x
           end.

(** A row of the output stream: [nn * channels] such units. *)
Definition written_row (nn : Z) (units : list Z) : Prop :=
  Z.of_nat (length units) = channels * nn
  /\ Forall written_unit units.

(** The state of the row loop when [ii] fine rows are done: that many
    rows have been written, each a [written_row]. *)
Definition rows_done (nn ii : Z) (s : synth) : Prop :=
  Z.of_nat (length (outputfile s)) = ii
  /\ Forall (written_row nn) (outputfile s).

(** The state of the row loops on any overlap maps when [ii] rows are done:
    that many rows have been written, of units produced by the macro. *)
Definition rows_emitted (ii : Z) (s : synth) : Prop :=
  0 <= ii /\ Z.of_nat (length (outputfile s)) = ii
  /\ Forall (Forall written_unit) (outputfile s).

End Vocabulary.

(** ** IEEE 754 arithmetic *)

(** The interface instantiated with the binary32 and binary64 formats of
    the Standard Library's [SpecFloat], every operation rounded to nearest
    even in its own format (no contraction into fused multiply-add). *)
Module IEEE.

Definition of_int (prec emax : Z) (z : Z) : spec_float :=
  binary_normalize prec emax z 0 false.

(** A value rounded into the format [prec], [emax]. *)
Definition round_to (prec emax : Z) (v : spec_float) : spec_float :=
  match v with
  | S754_finite s m e => binary_normalize prec emax (cond_Zopp s (Zpos m)) e s
  | _ => v
  end.

(** The decimal literal [m * 10^-e]; exact operands, one rounding. *)
Definition lit (prec emax : Z) (m e : Z) : spec_float :=
  SFdiv prec emax (of_int prec emax m) (of_int prec emax (10 ^ e)).

(** Conversion to [int]: truncation toward zero; what does not fit (also
    an infinity or a NaN) gives [INT_MIN], as the x86 conversion does. *)
Definition to_int (v : spec_float) : Z :=
  match v with
  | S754_zero _ => 0
  | S754_finite s m e =>
      let t := cond_Zopp s (if 0 <=? e then Zpos m * 2 ^ e else Zpos m / 2 ^ (- e)) in
      if (CInt.INT_MIN <=? t) && (t <=? CInt.INT_MAX) then t else CInt.INT_MIN
  | _ => CInt.INT_MIN
  end.

#[export] Instance ops : FloatOps := {|
  float := spec_float;
  double := spec_float;
  fadd := SFadd 24 128;
  fsub := SFsub 24 128;
  fmul := SFmul 24 128;
  fdiv := SFdiv 24 128;
  dadd := SFadd 53 1024;
  dsub := SFsub 53 1024;
  dmul := SFmul 53 1024;
  ddiv := SFdiv 53 1024;
  float_of_int := of_int 24 128;
  double_of_int := of_int 53 1024;
  double_of_float := round_to 53 1024;
  float_of_double := round_to 24 128;
  int_of_double := to_int;
  float_lit := lit 24 128;
  double_lit := lit 53 1024
|}.

(** Storage filled with zeros. *)
Definition zero_bands : bands :=
  {| b_left := fun _ => S754_zero false; b_center := fun _ => S754_zero false;
     b_right := fun _ => S754_zero false; b_farright := fun _ => S754_zero false |}.

Definition zero_storage : storage :=
  {| g_a := fun _ => S754_zero false;
     g_input_row := fun _ => 0;
     g_output_row := fun _ => 0;
     g_last_overlapping_jj := fun _ => 0;
     g_last_overlapping_ii := fun _ => 0;
     g_horizontal := zero_bands;
     g_vertical := zero_bands;
     g_previous_integral_l := S754_zero false;
     g_a_left := fun _ => S754_zero false |}.

(** A 15 x 15 image of three channels, every sample 100: 675 units. *)
Definition constant_image : list Z := repeat 100 675.

(** The same image with its last unit missing. *)
Definition truncated_image : list Z := repeat 100 674.

(** A 15 x 15 image of 16-bit units taken from a linear congruential
    sequence. *)
Fixpoint congruential (k : nat) (seed : Z) : list Z :=
  match k with
  | O => []
  | S k' =>
      let seed' := (seed * 1103515245 + 12345) mod 2147483648 in
      (seed' / 65536) mod 65536 :: congruential k' seed'
  end.

Definition varied_image : list Z := congruential 675 7.

(** A grid of control coefficients with pairwise different entries,
    [a[q] = q], and the four-row window of an interior coarse row of a
    15-wide image (rows at offsets 0, 45, 90 and 135) after its three
    loading loops. *)
Definition ramp_grid : Z -> spec_float := of_int 24 128.

Definition ramp_windows : list window :=
  map (load ramp_grid (fun _ => S754_zero false)) [0; 45; 90; 135].

End IEEE.

(** ** Vocabulary of the further properties *)

Section SolverVocabulary.

Context {FO : FloatOps}.

(** The multiplier the back substitution applies to entry [j] of a row or
    column, the last entry apart: [C0] .. [C5] for the first six, [CINFTY]
    for every later one. *)
Definition backward_multiplier (j : Z) : float :=
  if j <=? 0 then C0
  else if j =? 1 then C1
  else if j =? 2 then C2
  else if j =? 3 then C3
  else if j =? 4 then C4
  else if j =? 5 then C5
  else CINFTY.

(** The array [a'] when the back substitution has done the entries [J] ..
    [total - 1] of the lines that start at [base] and whose consecutive
    entries lie [stride] apart, [f] being the array after the forward
    substitution: the last entry is scaled by [CLAST], each other one is its
    forward value minus the final value of the next entry, times its
    multiplier; nothing else has changed. *)
Definition backward_done (f : Z -> float) (base stride total J : Z)
    (a' : Z -> float) : Prop :=
  (forall q, q < base + stride * J \/ base + stride * total <= q -> a' q = f q)
  /\ (forall j c, J <= j < total - 1 -> 0 <= c < stride ->
        a' (base + stride * j + c)
        = fmul (fsub (f (base + stride * j + c)) (a' (base + stride * (j + 1) + c)))
               (backward_multiplier j))
  /\ (forall c, 0 <= c < stride ->
        a' (base + stride * (total - 1) + c)
        = fmul (f (base + stride * (total - 1) + c)) CLAST).

End SolverVocabulary.

Section SynthesizerVocabulary.

Context {FO : FloatOps}.

(** The coarse column that the column loop is in while it produces the fine
    column [jj]: the first [j] in [0 .. n-2] with
    [jj <= last_overlapping_jj[j]], and [n - 1] when there is none. *)
Fixpoint coarse_column_from (trips : nat) (last_overlapping_jj : Z -> Z) (j jj : Z)
  : Z :=
  match trips with
  | O => j
  | S trips' =>
      if jj <=? last_overlapping_jj j then j
      else coarse_column_from trips' last_overlapping_jj (j + 1) jj
  end.

Definition coarse_column (last_overlapping_jj : Z -> Z) (n jj : Z) : Z :=
  coarse_column_from (Z.to_nat (n - 1)) last_overlapping_jj 0 jj.

(** The taps around coarse column [j] of the row of coefficients that
    starts at offset [p], read by index. *)
Definition tap_window (a : Z -> float) (p j : Z) : window :=
  {| a_left := fun c => a (p + channels * (j - 1) + c);
     a_center := fun c => a (p + channels * j + c);
     a_right := fun c => a (p + channels * (j + 1) + c);
     a_farright := fun c => a (p + channels * (j + 2) + c);
     a_next := p + channels * (j + 3) |}.

(** The farbottom taps in the last fine row of an interior coarse row, read
    by index: right in coarse column 0; from column 1 on, the left tap is
    the coefficient of the bottom row at column [j], the center tap the one
    at column [j + 1] (the proper farbottom coefficient only in the last
    column) and the right tap the one at column [j + 2] (the proper one
    only in column [n - 2]). *)
Definition farbottom_window (a : Z -> float) (bottom farbottom n j : Z) : window :=
  if j =? 0 then tap_window a farbottom 0
  else
    {| a_left := fun c => a (bottom + channels * j + c);
       a_center := fun c =>
         if j <? n - 1 then a (bottom + channels * (j + 1) + c)
         else a (farbottom + channels * j + c);
       a_right := fun c =>
         if j <? n - 2 then a (bottom + channels * (j + 2) + c)
         else a (farbottom + channels * (j + 1) + c);
       a_farright := fun c => a (farbottom + channels * (j + 2) + c);
       a_next := farbottom + channels * (j + 3) |}.

(** The windows of one copy of the column loop at coarse column [j], read
    by index from the offsets [rows] of the coarse rows it combines. *)
Definition direct_windows (kind : row_kind) (a : Z -> float) (rows : list Z)
    (n j : Z) : list window :=
  match kind, rows with
  | InteriorLast, [top; middle; bottom; farbottom] =>
      [tap_window a top j; tap_window a middle j; tap_window a bottom j;
       farbottom_window a bottom farbottom n j]
  | _, _ => map (fun p => tap_window a p j) rows
  end.

(** The value of channel [c] of the fine column [jj] before rounding, from
    the windows read by index: the reference the column loop with its
    sliding windows is compared with. *)
Definition direct_value (kind : row_kind) (a : Z -> float) (weights : list float)
    (horizontal : bands) (last_overlapping_jj : Z -> Z) (n : Z) (rows : list Z)
    (jj c : Z) : float :=
  let j := coarse_column last_overlapping_jj n jj in
  let wins := direct_windows kind a rows n j in
  if j =? 0 then
    if jj =? last_overlapping_jj 0
    then value_first_boundary weights horizontal wins jj 0 c
    else value_first weights horizontal wins jj c
  else if j <? n - 2 then
    if jj =? last_overlapping_jj j
    then value_interior_boundary weights horizontal wins jj j c
    else value_interior weights horizontal wins jj c
  else if j =? n - 2 then value_interior weights horizontal wins jj c
  else value_last weights horizontal wins jj c.

(** Two windows hold the same coefficients in the taps named by the flags
    (left, center, right, farright) and, with the last flag, stand at the
    same place of their row. *)
Definition taps_agree (L C R F N : bool) (w w' : window) : Prop :=
  (L = true -> forall c, a_left w c = a_left w' c)
  /\ (C = true -> forall c, a_center w c = a_center w' c)
  /\ (R = true -> forall c, a_right w c = a_right w' c)
  /\ (F = true -> forall c, a_farright w c = a_farright w' c)
  /\ (N = true -> a_next w = a_next w').

(** The state of the column loop when [jj] fine columns are done, the
    sample of channel [c] of column [k] being the rounded [V k c]: the rest
    of the buffer is as [buffer0] on entry. *)
Definition columns_filled (d : depth) (V : Z -> Z -> float) (buffer0 : Z -> Z)
    (jj : Z) (ob : outbuf) : Prop :=
  output_row_p ob = channels * jj
  /\ (forall k c, 0 <= k < jj -> 0 <= c < channels ->
        output_row ob (channels * k + c) = ROUND_AND_CLAMP_TO_065535 d (V k c))
  /\ (forall q, q < 0 \/ channels * jj <= q -> output_row ob q = buffer0 q).

(** A sample as a unit of the output stream: its bytes swapped by the
    16-bit engine, as it is in the 8-bit one. *)
Definition encode (d : depth) (sample : Z) : Z :=
  match d with
  | Bits16 => swap_bytes sample
  | Bits8 => sample
  end.

(** The copy of the column loop that produces the fine row [ii]. *)
Definition fine_row_kind (last_overlapping_ii : Z -> Z) (m ii : Z) : row_kind :=
  let i := coarse_column last_overlapping_ii m ii in
  if i =? 0 then
    if ii =? last_overlapping_ii 0 then FirstLast else FirstInner
  else if i <? m - 2 then
    if ii =? last_overlapping_ii i then InteriorLast else InteriorInner
  else if i =? m - 2 then SecondToLast
  else LastRow.

(** The value before rounding, and the sample, of channel [c] at fine row
    [ii] and fine column [jj], from the coefficients read by index. *)
Definition direct_sample_value (a : Z -> float) (horizontal vertical : bands)
    (last_overlapping_jj last_overlapping_ii : Z -> Z) (m n ii jj c : Z) : float :=
  let i := coarse_column last_overlapping_ii m ii in
  let kind := fine_row_kind last_overlapping_ii m ii in
  direct_value kind a (row_weights vertical kind i ii) horizontal
               last_overlapping_jj n (row_offsets m n kind i) jj c.

Definition direct_sample (d : depth) (a : Z -> float) (horizontal vertical : bands)
    (last_overlapping_jj last_overlapping_ii : Z -> Z) (m n ii jj c : Z) : Z :=
  let i := coarse_column last_overlapping_ii m ii in
  let kind := fine_row_kind last_overlapping_ii m ii in
  ROUND_AND_CLAMP_TO_065535 d
    (direct_value kind a (row_weights vertical kind i ii) horizontal
                  last_overlapping_jj n (row_offsets m n kind i) jj c).

(** The same value and sample with the taps of every row read alike, the
    farbottom row as the others: what the shift gives when it is "exactly
    analogous" for each row of the window. *)
Definition analogous_value (a : Z -> float) (weights : list float)
    (horizontal : bands) (last_overlapping_jj : Z -> Z) (n : Z) (rows : list Z)
    (jj c : Z) : float :=
  let j := coarse_column last_overlapping_jj n jj in
  let wins := map (fun p => tap_window a p j) rows in
  if j =? 0 then
    if jj =? last_overlapping_jj 0
    then value_first_boundary weights horizontal wins jj 0 c
    else value_first weights horizontal wins jj c
  else if j <? n - 2 then
    if jj =? last_overlapping_jj j
    then value_interior_boundary weights horizontal wins jj j c
    else value_interior weights horizontal wins jj c
  else if j =? n - 2 then value_interior weights horizontal wins jj c
  else value_last weights horizontal wins jj c.

Definition analogous_sample (d : depth) (a : Z -> float) (horizontal vertical : bands)
    (last_overlapping_jj last_overlapping_ii : Z -> Z) (m n ii jj c : Z) : Z :=
  let i := coarse_column last_overlapping_ii m ii in
  let kind := fine_row_kind last_overlapping_ii m ii in
  ROUND_AND_CLAMP_TO_065535 d
    (analogous_value a (row_weights vertical kind i ii) horizontal
                     last_overlapping_jj n (row_offsets m n kind i) jj c).

(** The state of the row loops when [ii] fine rows are done: that many
    rows have been written, the unit of channel [c] of column [jj] of row
    [k] carrying [sample k jj c]. *)
Definition rows_filled (d : depth) (sample : Z -> Z -> Z -> Z) (nn ii : Z) (s : synth)
  : Prop :=
  Z.of_nat (length (outputfile s)) = ii
  /\ forall k jj c, 0 <= k < ii -> 0 <= jj < nn -> 0 <= c < channels ->
       exists row,
         nth_error (outputfile s) (Z.to_nat k) = Some row
         /\ nth_error row (Z.to_nat (channels * jj + c)) = Some (encode d (sample k jj c)).

End SynthesizerVocabulary.

(** ** [main]: the magic number and the comment lines of the header *)

(** The input file as the bytes still to be read; [fgetc] gives the next
    byte, or [EOF] at the end of the stream. *)
Definition EOF : Z := -1.

Definition fgetc (file : list Z) : Z * list Z :=
  match file with
  | [] => (EOF, [])
  | b :: rest => (b, rest)
  end.

(** [header_char = fgetc (inputfile);
    if (header_char != 80 || fgetc (inputfile) != 54) usage (...);]:
    [inl 1] is the exit status of [usage], [inr] the rest of the stream. *)
Definition read_magic (file : list Z) : Z + list Z :=
  let '(header_char, file) := fgetc file in
  if negb (header_char =? 80) then inl 1
  else
    let '(second, file) := fgetc file in
    if negb (second =? 54) then inl 1 else inr file.

(** [do { header_char = fgetc (inputfile); }
    while (header_char != 10 && header_char != EOF);] *)
Fixpoint skip_comment (fuel : nat) (file : list Z) : option (Z * list Z) :=
  match fuel with
  | O => None
  | S fuel' =>
      let '(header_char, file) := fgetc file in
      if negb (header_char =? 10) && negb (header_char =? EOF)
      then skip_comment fuel' file
      else Some (header_char, file)
  end.

(** The loop "Skip the comment lines" with the [fseek (inputfile, -1,
    SEEK_CUR)] that follows it: [inl 1] when [usage] exits, [inr] the
    stream from the byte read last. *)
Fixpoint skip_comments (fuel : nat) (file : list Z) : option (Z + list Z) :=
  match fuel with
  | O => None
  | S fuel' =>
      let '(header_char, file) := fgetc file in
      r <- (if header_char =? 35 then skip_comment fuel' file
            else Some (header_char, file)) ;;
      let '(header_char, file) := r in
      if header_char =? EOF then Some (inl 1)
      else if (header_char <? 48) || (header_char >? 57)
           then skip_comments fuel' file
           else Some (inr (header_char :: file))
  end.

(** The start of [main] on the bytes of the input file, up to the call of
    [fscanf]. *)
Definition read_header_prefix (fuel : nat) (file : list Z) : option (Z + list Z) :=
  match read_magic file with
  | inl status => Some (inl status)
  | inr file => skip_comments fuel file
  end.

(** The header after the magic number read by a two-state scanner, for
    comparison with the loops of [main]: inside a comment every byte up to
    the next newline is dropped; outside, a [#] opens a comment, a digit
    ends the scan and any other byte is dropped. *)
Fixpoint dimensions_start (in_comment : bool) (file : list Z) : option (list Z) :=
  match file with
  | [] => None
  | b :: rest =>
      if in_comment then dimensions_start (negb (b =? 10)) rest
      else if b =? 35 then dimensions_start true rest
      else if (48 <=? b) && (b <=? 57) then Some (b :: rest)
      else dimensions_start false rest
  end.

(** ** Vocabulary of the footprint of the generator *)

Section GeneratorVocabulary.

Context {FO : FloatOps}.

(** Two sets of band arrays hold the same coefficients in [left] on
    [(l_lo, l_hi]], in [center] on [[0, c_hi]], in [right] on [[0, r_hi]]
    and in [farright] on [[0, f_hi]]. *)
Definition bands_agree (l_lo l_hi c_hi r_hi f_hi : Z) (B B' : bands) : Prop :=
  (forall q, l_lo < q <= l_hi -> b_left B q = b_left B' q)
  /\ (forall q, 0 <= q <= c_hi -> b_center B q = b_center B' q)
  /\ (forall q, 0 <= q <= r_hi -> b_right B q = b_right B' q)
  /\ (forall q, 0 <= q <= f_hi -> b_farright B q = b_farright B' q).

(** Outside those ranges the band arrays [B] are as [B0]. *)
Definition bands_kept (l_lo l_hi c_hi r_hi f_hi : Z) (B0 B : bands) : Prop :=
  (forall q, q <= l_lo \/ l_hi < q -> b_left B q = b_left B0 q)
  /\ (forall q, q < 0 \/ c_hi < q -> b_center B q = b_center B0 q)
  /\ (forall q, q < 0 \/ r_hi < q -> b_right B q = b_right B0 q)
  /\ (forall q, q < 0 \/ f_hi < q -> b_farright B q = b_farright B0 q).

(** Two runs of the generator, the first from the arrays [arrays], stand at
    the same point: same running values ([previous_integral_l] only with
    the flag [L]), same coefficients in the ranges written so far, and the
    first has written nowhere else. *)
Definition c2f_rel (arrays : bands) (L : bool) (l_lo l_hi c_hi r_hi f_hi : Z)
    (s s' : c2f) : Prop :=
  x s = x s'
  /\ (L = true -> previous_integral_l s = previous_integral_l s')
  /\ previous_integral_c s = previous_integral_c s'
  /\ previous_integral_r s = previous_integral_r s'
  /\ bands_agree l_lo l_hi c_hi r_hi f_hi (out s) (out s')
  /\ bands_kept l_lo l_hi c_hi r_hi f_hi arrays (out s).

End GeneratorVocabulary.

(** ** Vocabulary of the properties of the reader *)

(** For a stream that breaks off inside the last of the [m] rows: the units
    of the row before, at the positions that the last row lacks. *)
Definition missing_units (m n : Z) (inputfile : list Z) : list Z :=
  let got := Z.of_nat (length inputfile) - (m - 1) * (3 * n) in
  map (fun q => nth (Z.to_nat ((m - 2) * (3 * n) + Z.of_nat q)) inputfile 0)
      (seq (Z.to_nat got) (Z.to_nat (3 * n - got))).

(** ** Storage with other content, for the concrete runs *)

(** Band arrays and storage of the IEEE instance filled with the ramp
    [a[q] = q] and with arbitrary numbers. *)
Definition ramp_bands : @bands IEEE.ops :=
  @Build_bands IEEE.ops IEEE.ramp_grid IEEE.ramp_grid IEEE.ramp_grid IEEE.ramp_grid.

Definition ramp_storage : @storage IEEE.ops :=
  @Build_storage IEEE.ops
    IEEE.ramp_grid            (* a *)
    (fun _ => 7)              (* input_row *)
    (fun _ => 9)              (* output_row *)
    (fun _ => 3)              (* last_overlapping_jj *)
    (fun _ => 5)              (* last_overlapping_ii *)
    ramp_bands ramp_bands     (* the band arrays of the two axes *)
    (IEEE.of_int 53 1024 7)   (* previous_integral_l *)
    IEEE.ramp_grid.           (* the left taps *)

(** * Properties *)

(** ** C integers and arrays *)

Lemma wrap_small (x : Z) : CInt.in_range x -> CInt.wrap x = x.
Proof.
  unfold CInt.in_range, CInt.wrap. intros [H1 H2].
  apply Z.leb_le in H1, H2. now rewrite H1, H2.
Qed.

(** [wrap] agrees with reduction modulo 2^32 everywhere. *)
Lemma wrap_mod (x : Z) :
  CInt.wrap x = (x + 2147483648) mod 4294967296 - 2147483648.
Proof.
  unfold CInt.wrap, CInt.INT_MIN, CInt.INT_MAX.
  destruct (Z.leb_spec (-2147483648) x), (Z.leb_spec x 2147483647);
    cbn [andb]; try reflexivity.
  rewrite Z.mod_small; lia.
Qed.

Lemma add_small (a b : Z) : CInt.in_range (a + b) -> CInt.add a b = a + b.
Proof. apply wrap_small. Qed.

Lemma sub_small (a b : Z) : CInt.in_range (a - b) -> CInt.sub a b = a - b.
Proof. apply wrap_small. Qed.

Lemma upd_same {A : Type} (a : Z -> A) (i : Z) (v : A) : upd a i v i = v.
Proof. unfold upd. now rewrite Z.eqb_refl. Qed.

Lemma upd_other {A : Type} (a : Z -> A) (i j : Z) (v : A) :
  j <> i -> upd a i v j = a j.
Proof. unfold upd. intros H. apply Z.eqb_neq in H. now rewrite H. Qed.

(** ** Loops *)

Lemma iter_from_invariant {St : Type} (P : Z -> St -> Prop) (body : Z -> St -> St) :
  forall (n : nat) (i : Z) (s : St),
    P i s ->
    (forall k t, i <= k < i + Z.of_nat n -> P k t -> P (k + 1) (body k t)) ->
    P (i + Z.of_nat n) (iter_from n i body s).
Proof.
  induction n as [|n IH]; intros i s Hs Hstep.
  - cbn [iter_from]. now replace (i + Z.of_nat 0) with i by lia.
  - cbn [iter_from].
    replace (i + Z.of_nat (S n)) with (i + 1 + Z.of_nat n) by lia.
    apply IH.
    + apply Hstep; [lia|exact Hs].
    + intros k t Hk. apply Hstep. lia.
Qed.

(** A [while (i < hi)] loop entered with [i <= hi] ends with [i = hi]. *)
Lemma while_lt_invariant {St : Type} (P : Z -> St -> Prop) (body : Z -> St -> St)
    (i hi : Z) (s : St) :
  i <= hi ->
  P i s ->
  (forall k t, i <= k < hi -> P k t -> P (k + 1) (body k t)) ->
  fst (while_lt i hi body s) = hi /\ P hi (snd (while_lt i hi body s)).
Proof.
  intros Hle Hs Hstep. unfold while_lt. cbn [fst snd]. split; [lia|].
  pose proof (iter_from_invariant P body (Z.to_nat (hi - i)) i s Hs) as H.
  replace (i + Z.of_nat (Z.to_nat (hi - i))) with hi in H by lia.
  apply H. intros k t Hk. apply Hstep. lia.
Qed.

(** A [do ... while (++i < hi)] loop entered with [i < hi] ends with
    [i = hi]. *)
Lemma do_while_lt_invariant {St : Type} (P : Z -> St -> Prop) (body : Z -> St -> St)
    (i hi : Z) (s : St) :
  i < hi ->
  P i s ->
  (forall k t, i <= k < hi -> P k t -> P (k + 1) (body k t)) ->
  fst (do_while_lt i hi body s) = hi /\ P hi (snd (do_while_lt i hi body s)).
Proof.
  intros Hlt Hs Hstep. unfold do_while_lt.
  apply while_lt_invariant; [lia| |].
  - apply Hstep; [lia|exact Hs].
  - intros k t Hk. apply Hstep. lia.
Qed.

Lemma repeat_n_invariant {St : Type} (P : Z -> St -> Prop) (body : St -> St)
    (n : Z) (s : St) :
  0 <= n ->
  P 0 s ->
  (forall k t, 0 <= k < n -> P k t -> P (k + 1) (body t)) ->
  P n (repeat_n n body s).
Proof.
  intros Hn Hs Hstep. unfold repeat_n.
  pose proof (iter_from_invariant P (fun _ => body) (Z.to_nat n) 0 s Hs) as H.
  replace (0 + Z.of_nat (Z.to_nat n)) with n in H by lia.
  apply H. intros k t Hk. apply Hstep. lia.
Qed.

(** ** OverlapMapper *)

Lemma lo_search_unfold (fuel : nat) (o kpoo kk kpo : Z) :
  lo_search fuel o kpoo kk kpo =
  if kpo <? kpoo then
    match fuel with
    | O => None
    | S fuel' => lo_search fuel' o kpoo (CInt.add kk 1) (CInt.add kpo o)
    end
  else Some (fuel, kk, kpo).
Proof. destruct fuel; reflexivity. Qed.

(** The sandwich that pins the last overlapping fine cell. *)
Lemma sandwich_is_last_overlap (o oo k v : Z) :
  0 < o -> v * o < (k + 1) * oo <= (v + 1) * o -> is_last_overlap o oo k v.
Proof.
  intros Ho [Hlt Hle]. split; [exact Hlt|].
  intros j Hj. nia.
Qed.

Lemma is_last_overlap_sandwich (o oo k v : Z) :
  0 < o -> is_last_overlap o oo k v -> v * o < (k + 1) * oo <= (v + 1) * o.
Proof.
  intros Ho [Hlt Hmax]. split; [exact Hlt|].
  destruct (Z_lt_le_dec ((v + 1) * o) ((k + 1) * oo)) as [H|H]; [|exact H].
  specialize (Hmax (v + 1) H). lia.
Qed.

(** The inner search, on a range where no product overflows: it stops at the
    last [kk] with [kk * o < bound]. *)
Lemma lo_search_spec (oo o bound : Z) :
  0 < o -> bound <= o * oo -> bound + o - 1 <= CInt.INT_MAX ->
  forall (fuel : nat) (kk : Z),
    0 <= kk -> kk * o < bound -> oo <= Z.of_nat fuel + kk ->
    exists fuel' kk',
      lo_search fuel o bound kk ((kk + 1) * o) = Some (fuel', kk', (kk' + 1) * o)
      /\ kk <= kk' /\ kk' * o < bound <= (kk' + 1) * o
      /\ oo <= Z.of_nat fuel' + kk'.
Proof.
  intros Ho Hb Hmax. induction fuel as [|fuel IH]; intros kk Hkk Hlt Hfuel;
    rewrite lo_search_unfold;
    destruct (Z.ltb_spec ((kk + 1) * o) bound) as [Hc|Hc].
  - exfalso. nia.
  - exists O, kk. repeat split; try lia.
  - assert (Hr1 : CInt.add kk 1 = kk + 1).
    { apply add_small. unfold CInt.in_range, CInt.INT_MIN, CInt.INT_MAX in *. nia. }
    assert (Hr2 : CInt.add ((kk + 1) * o) o = (kk + 1 + 1) * o).
    { rewrite add_small; [ring|].
      unfold CInt.in_range, CInt.INT_MIN, CInt.INT_MAX in *. nia. }
    rewrite Hr1, Hr2.
    destruct (IH (kk + 1)) as (fuel' & kk' & Heq & Hge & Hsand & Hf); try lia.
    exists fuel', kk'. repeat split; try lia. exact Heq.
  - exists (S fuel), kk. repeat split; try lia.
Qed.

(** The upsizing loop from coarse cell [k] on: every entry it writes is the
    last overlapping fine cell, and nothing else is touched. *)
Lemma lo_upsize_spec (o oo : Z) :
  0 < o < oo -> o * oo <= CInt.INT_MAX ->
  forall (iters fuel : nat) (k kk : Z) (map : Z -> Z),
    0 <= k -> k + 1 <= o -> (k + 1) * oo + o - 1 <= CInt.INT_MAX ->
    0 <= kk -> kk * o <= k * oo ->
    Z.max 1 (o - 1 - k) <= Z.of_nat iters ->
    oo <= Z.of_nat fuel + kk ->
    exists map',
      lo_upsize iters fuel o oo (o - 1) k ((k + 1) * oo) kk ((kk + 1) * o) map
        = Some map'
      /\ (forall j, j < k \/ Z.max (k + 1) (o - 1) <= j -> map' j = map j)
      /\ (forall j, k <= j < Z.max (k + 1) (o - 1) ->
            map' j * o < (j + 1) * oo <= (map' j + 1) * o).
Proof.
  intros Ho Hfit. induction iters as [|iters IH];
    intros fuel k kk map Hk Hko Hkmax Hkk Hinv Hit Hfuel; [lia|].
  cbn [lo_upsize].
  assert (Hr1 : CInt.add kk 1 = kk + 1).
  { apply add_small. unfold CInt.in_range, CInt.INT_MIN, CInt.INT_MAX in *. nia. }
  assert (Hr2 : CInt.add ((kk + 1) * o) o = (kk + 1 + 1) * o).
  { rewrite add_small; [ring|].
    unfold CInt.in_range, CInt.INT_MIN, CInt.INT_MAX in *. nia. }
  rewrite Hr1, Hr2.
  destruct (lo_search_spec oo o ((k + 1) * oo) (proj1 Ho)) with (fuel := fuel) (kk := kk + 1)
    as (fuel' & kk' & Heq & Hge & Hsand & Hf); try nia.
  rewrite Heq.
  assert (Hr3 : CInt.add k 1 = k + 1).
  { apply add_small. unfold CInt.in_range, CInt.INT_MIN, CInt.INT_MAX in *. nia. }
  rewrite Hr3.
  destruct (Z.ltb_spec (k + 1) (o - 1)) as [Hc|Hc].
  - assert (Hr4 : CInt.add ((k + 1) * oo) oo = (k + 1 + 1) * oo).
    { rewrite add_small; [ring|].
      unfold CInt.in_range, CInt.INT_MIN, CInt.INT_MAX in *. nia. }
    rewrite Hr4.
    destruct (IH fuel' (k + 1) kk' (upd map k kk')) as (map' & Hrun & Hframe & Hval);
      try nia.
    exists map'. split; [exact Hrun|]. split.
    + intros j Hj. rewrite Hframe by lia. apply upd_other. lia.
    + intros j Hj. destruct (Z.eq_dec j k) as [->|Hne].
      * rewrite Hframe by lia. rewrite upd_same. lia.
      * apply Hval. lia.
  - exists (upd map k kk'). split; [reflexivity|]. split.
    + intros j Hj. apply upd_other. lia.
    + intros j Hj. assert (j = k) as -> by lia. rewrite upd_same. lia.
Qed.

(** The identity loop from coarse cell [k] on. *)
Lemma lo_same_spec (o : Z) :
  o <= CInt.INT_MAX ->
  forall (iters : nat) (k : Z) (map : Z -> Z),
    0 <= k -> k + 1 <= Z.max 1 o ->
    Z.max 1 (o - 1 - k) <= Z.of_nat iters ->
    exists map',
      lo_same iters (o - 1) k map = Some map'
      /\ (forall j, j < k \/ Z.max (k + 1) (o - 1) <= j -> map' j = map j)
      /\ (forall j, k <= j < Z.max (k + 1) (o - 1) -> map' j = j).
Proof.
  intros Hfit. induction iters as [|iters IH]; intros k map Hk Hko Hit; [lia|].
  cbn [lo_same].
  assert (Hr3 : CInt.add k 1 = k + 1).
  { apply add_small. unfold CInt.in_range, CInt.INT_MIN, CInt.INT_MAX in *. lia. }
  rewrite Hr3.
  destruct (Z.ltb_spec (k + 1) (o - 1)) as [Hc|Hc].
  - destruct (IH (k + 1) (upd map k k)) as (map' & Hrun & Hframe & Hval); try lia.
    exists map'. split; [exact Hrun|]. split.
    + intros j Hj. rewrite Hframe by lia. apply upd_other. lia.
    + intros j Hj. destruct (Z.eq_dec j k) as [->|Hne].
      * rewrite Hframe by lia. apply upd_same.
      * apply Hval. lia.
  - exists (upd map k k). split; [reflexivity|]. split.
    + intros j Hj. apply upd_other. lia.
    + intros j Hj. assert (j = k) as -> by lia. apply upd_same.
Qed.

(** The whole function on a pair of dimensions whose product fits an [int]
    (the entries are given by the sandwich when upsizing), with any fuel
    that covers the two counts. *)
Lemma last_overlapping_index_upsize (iters fuel : nat) (o oo : Z) (map : Z -> Z) :
  2 <= o < oo -> o * oo <= CInt.INT_MAX ->
  o <= Z.of_nat iters -> oo <= Z.of_nat fuel ->
  exists map',
    last_overlapping_index iters fuel o oo map = Some map'
    /\ (forall j, j < 0 \/ o - 1 <= j -> map' j = map j)
    /\ (forall j, 0 <= j <= o - 2 ->
          map' j * o < (j + 1) * oo <= (map' j + 1) * o).
Proof.
  intros Ho Hfit Hiters Hfuel. unfold last_overlapping_index.
  assert (Hs : CInt.sub o 1 = o - 1).
  { apply sub_small. unfold CInt.in_range, CInt.INT_MIN, CInt.INT_MAX in *. nia. }
  rewrite Hs.
  destruct (Z.gtb_spec oo o) as [_|Hc]; [|lia].
  destruct (lo_upsize_spec o oo) with (iters := iters) (fuel := fuel)
      (k := 0) (kk := 0) (map := map) as (map' & Hrun & Hframe & Hval); try nia.
  replace ((0 + 1) * oo) with oo in Hrun by ring.
  replace ((0 + 1) * o) with o in Hrun by ring.
  exists map'. split; [exact Hrun|]. split.
  - intros j Hj. apply Hframe. lia.
  - intros j Hj. apply Hval. lia.
Qed.

Lemma last_overlapping_index_same (iters fuel : nat) (o oo : Z) (map : Z -> Z) :
  2 <= o <= CInt.INT_MAX -> oo <= o -> o <= Z.of_nat iters ->
  exists map',
    last_overlapping_index iters fuel o oo map = Some map'
    /\ (forall j, j < 0 \/ o - 1 <= j -> map' j = map j)
    /\ (forall j, 0 <= j <= o - 2 -> map' j = j).
Proof.
  intros Ho Hoo Hiters. unfold last_overlapping_index.
  assert (Hs : CInt.sub o 1 = o - 1).
  { apply sub_small. unfold CInt.in_range, CInt.INT_MIN, CInt.INT_MAX in *. lia. }
  rewrite Hs.
  destruct (Z.gtb_spec oo o) as [Hc|_]; [lia|].
  destruct (lo_same_spec o) with (iters := iters) (k := 0) (map := map)
    as (map' & Hrun & Hframe & Hval); try lia.
  exists map'. split; [exact Hrun|]. split.
  - intros j Hj. apply Hframe. lia.
  - intros j Hj. apply Hval. lia.
Qed.

Lemma lo_run_upsize (o oo : Z) (map : Z -> Z) :
  2 <= o < oo -> o * oo <= CInt.INT_MAX ->
  exists map',
    lo_run o oo map = Some map'
    /\ (forall j, j < 0 \/ o - 1 <= j -> map' j = map j)
    /\ (forall j, 0 <= j <= o - 2 ->
          map' j * o < (j + 1) * oo <= (map' j + 1) * o).
Proof.
  intros Ho Hfit. apply last_overlapping_index_upsize; lia.
Qed.

Lemma lo_run_same (o oo : Z) (map : Z -> Z) :
  2 <= o <= CInt.INT_MAX -> oo <= o ->
  exists map',
    lo_run o oo map = Some map'
    /\ (forall j, j < 0 \/ o - 1 <= j -> map' j = map j)
    /\ (forall j, 0 <= j <= o - 2 -> map' j = j).
Proof.
  intros Ho Hoo. apply last_overlapping_index_same; lia.
Qed.

(** In the supported range the map is one the column and row loops can
    walk. *)
Lemma last_overlapping_index_ok (iters fuel : nat) (o oo : Z) (map : Z -> Z) :
  2 <= o <= oo -> o * oo <= CInt.INT_MAX ->
  o <= Z.of_nat iters -> oo <= Z.of_nat fuel ->
  exists map',
    last_overlapping_index iters fuel o oo map = Some map'
    /\ 0 <= map' 0
    /\ (forall k, 0 <= k < o - 2 -> map' k < map' (k + 1))
    /\ map' (o - 2) < oo.
Proof.
  intros Ho Hfit Hiters Hfuel.
  destruct (Z.eq_dec oo o) as [->|Hne].
  - destruct (last_overlapping_index_same iters fuel o o map)
      as (map' & Hrun & _ & Hval); try lia.
    { unfold CInt.INT_MAX in *. nia. }
    exists map'. split; [exact Hrun|]. split; [|split].
    + rewrite Hval by lia. lia.
    + intros k Hk. rewrite !Hval by lia. lia.
    + rewrite Hval by lia. lia.
  - destruct (last_overlapping_index_upsize iters fuel o oo map)
      as (map' & Hrun & _ & Hval); try lia.
    exists map'. split; [exact Hrun|]. split; [|split].
    + pose proof (Hval 0 ltac:(lia)). nia.
    + intros k Hk.
      pose proof (Hval k ltac:(lia)). pose proof (Hval (k + 1) ltac:(lia)). nia.
    + pose proof (Hval (o - 2) ltac:(lia)). nia.
Qed.



(** C4 as the specification words it fails where a product of the two
    dimensions leaves the range of [int]: for a 50000-wide axis upsized to
    60000 the entry of coarse cell 35790 is 128848, which is not the last
    overlapping fine cell (that is 42949) and not even a fine index. *)
Lemma C4_overflow_counterexample :
  option_map (fun map => map 35790)
    (last_overlapping_index (Z.to_nat 50000) (Z.to_nat 100000) 50000 60000
       (fun _ => 0))
  = Some 128848
  /\ 60000 > 50000
  /\ ~ is_last_overlap 50000 60000 35790 128848.
Proof.
  split; [vm_compute; reflexivity|]. split; [lia|].
  intros [H _]. lia.
Qed.


(** The overlap map of a 50000-wide axis upsized to 60000, where the running
    products leave the range of [int]: its last entry is 145898. *)
Lemma overflowed_map_last_entry :
  exists map',
    last_overlapping_index (Z.to_nat 200000) (Z.to_nat 200000) 50000 60000 (fun _ => 0)
    = Some map'
    /\ map' 49998 = 145898.
Proof.
  assert (H : option_map (fun map => map 49998)
                (last_overlapping_index (Z.to_nat 200000) (Z.to_nat 200000)
                   50000 60000 (fun _ => 0))
              = Some 145898) by (vm_compute; reflexivity).
  destruct (last_overlapping_index (Z.to_nat 200000) (Z.to_nat 200000) 50000 60000
              (fun _ => 0)) as [map'|]; [|discriminate].
  cbn [option_map] in H. exists map'. split; [reflexivity|].
  injection H as H. exact H.
Qed.

(** C4 (amended): for every coarse_count >= 2, when fine_count equals
    coarse_count [last_overlapping_index] returns a map with [map[k] = k] on
    [0, coarse_count-2], whatever the size of the counts; and when
    fine_count is larger and the product of the two counts fits an [int],
    it returns a map with [map[k]] the largest fine index [j] such that
    [j * coarse_count < (k+1) * fine_count]. *)
Theorem C4_last_overlapping_index_entries (o oo : Z) (map : Z -> Z) :
  2 <= o <= CInt.INT_MAX ->
  (oo = o ->
   exists map',
     lo_run o oo map = Some map' /\ forall k, 0 <= k <= o - 2 -> map' k = k)
  /\ (oo > o -> o * oo <= CInt.INT_MAX ->
      exists map',
        lo_run o oo map = Some map'
        /\ forall k, 0 <= k <= o - 2 -> is_last_overlap o oo k (map' k)).
Proof.
  intros Ho. split.
  - intros ->.
    destruct (lo_run_same o o map) as (map' & Hrun & _ & Hval); try lia.
    exists map'. split; [exact Hrun|]. intros k Hk. apply Hval. exact Hk.
  - intros Hlt Hfit.
    destruct (lo_run_upsize o oo map) as (map' & Hrun & _ & Hval); try lia.
    exists map'. split; [exact Hrun|].
    intros k Hk. apply sandwich_is_last_overlap; [lia|]. apply Hval. exact Hk.
Qed.

Lemma C4_last_overlapping_index_entries_witness :
  (2 <= 4 <= CInt.INT_MAX) /\ 10 > 4 /\ 4 * 10 <= CInt.INT_MAX /\
  exists map',
    lo_run 4 10 (fun _ => 0) = Some map'
    /\ forall k, 0 <= k <= 4 - 2 -> is_last_overlap 4 10 k (map' k).
Proof.
  assert (H1 : 2 <= 4 <= CInt.INT_MAX) by (unfold CInt.INT_MAX; lia).
  assert (H2 : 10 > 4) by lia.
  assert (H3 : 4 * 10 <= CInt.INT_MAX) by (unfold CInt.INT_MAX; lia).
  split; [exact H1|]. split; [exact H2|]. split; [exact H3|].
  exact (proj2 (C4_last_overlapping_index_entries 4 10 (fun _ => 0) H1) H2 H3).
Defined.






(** ** TensorSynthesizer *)

Section SynthesizerProofs.

Context {FO : FloatOps}.
Variable d : depth.

Lemma clamp_max_pos : 0 < clamp_max d.
Proof. destruct d; reflexivity. Qed.

Lemma clamp_range (out : Z) : 0 <= clamp d out <= clamp_max d.
Proof.
  pose proof clamp_max_pos. unfold clamp.
  destruct (Z.gtb_spec out (clamp_max d)); [lia|].
  destruct (Z.ltb_spec out 0); lia.
Qed.

Lemma emit_unfold (value : Z -> float) (ob : outbuf) :
  emit d value ob =
  {| output_row :=
       upd (upd (upd (output_row ob) (output_row_p ob)
                     (ROUND_AND_CLAMP_TO_065535 d (value 0)))
                (output_row_p ob + 1) (ROUND_AND_CLAMP_TO_065535 d (value 1)))
           (output_row_p ob + 2) (ROUND_AND_CLAMP_TO_065535 d (value 2));
     output_row_p := output_row_p ob + 3 |}.
Proof.
  unfold emit, channels.
  change (Z.to_nat 3) with 3%nat. cbn [iter_from output_row output_row_p].
  change (0 + 1) with 1. change (1 + 1) with 2.
  replace (output_row_p ob + 1 + 1) with (output_row_p ob + 2) by lia.
  replace (output_row_p ob + 2 + 1) with (output_row_p ob + 3) by lia.
  reflexivity.
Qed.

Lemma emit_spec (value : Z -> float) (ob : outbuf) :
  output_row_p (emit d value ob) = output_row_p ob + channels
  /\ (forall q, q < output_row_p ob \/ output_row_p ob + channels <= q ->
        output_row (emit d value ob) q = output_row ob q)
  /\ (forall c, 0 <= c < channels ->
        output_row (emit d value ob) (output_row_p ob + c)
        = ROUND_AND_CLAMP_TO_065535 d (value c)).
Proof.
  rewrite emit_unfold. cbn [output_row output_row_p]. unfold channels.
  split; [lia|]. split.
  - intros q Hq. rewrite !upd_other by lia. reflexivity.
  - intros c Hc.
    assert (c = 0 \/ c = 1 \/ c = 2) as [-> | [-> | ->]] by lia.
    + rewrite !upd_other by lia.
      replace (output_row_p ob + 0) with (output_row_p ob) by lia.
      apply upd_same.
    + rewrite upd_other by lia. apply upd_same.
    + apply upd_same.
Qed.

Lemma emit_columns_done (value : Z -> float) (jj : Z) (ob : outbuf) :
  0 <= jj -> columns_done d jj ob -> columns_done d (jj + 1) (emit d value ob).
Proof.
  intros Hjj [Hp Hdone]. destruct (emit_spec value ob) as (Hp' & Hframe & Hnew).
  unfold columns_done, channels in *. split; [lia|].
  intros q Hq. destruct (Z_lt_le_dec q (3 * jj)) as [Hold|Hnewq].
  - rewrite Hframe by lia. apply Hdone. lia.
  - replace q with (output_row_p ob + (q - 3 * jj)) by lia.
    rewrite Hnew by lia. eexists. reflexivity.
Qed.

(** A loop [while (jj<last_jj) { emit; jj++; }] entered with
    [jj <= last_jj]. *)
Lemma emit_loop (value : Z -> Z -> float) (jj last_jj : Z) (ob : outbuf) :
  0 <= jj <= last_jj -> columns_done d jj ob ->
  exists ob',
    while_lt jj last_jj (fun jj => emit d (value jj)) ob = (last_jj, ob')
    /\ columns_done d last_jj ob'.
Proof.
  intros Hjj Hdone.
  destruct (while_lt_invariant (fun k t => 0 <= k /\ columns_done d k t)
              (fun jj => emit d (value jj)) jj last_jj ob) as (Hfst & _ & Hsnd);
    [lia|split; [lia|exact Hdone]| |].
  - intros k t Hk [_ Ht]. split; [lia|]. apply emit_columns_done; [lia|exact Ht].
  - destruct (while_lt jj last_jj _ ob) as [jj' ob'] eqn:E. cbn [fst snd] in *.
    subst jj'. exists ob'. split; [reflexivity|exact Hsnd].
Qed.

Lemma overlap_ok_lower (o oo : Z) (map : Z -> Z) :
  overlap_ok o oo map -> forall k, 0 <= k <= o - 2 -> k <= map k.
Proof.
  intros (H0 & Hinc & _) k [Hk Hk'].
  revert Hk'. pattern k. apply natlike_ind; [lia| |exact Hk].
  intros y Hy IH Hy'. unfold Z.succ in *. specialize (Hinc y). lia.
Qed.

Section OneRow.

Variable kind : row_kind.
Variable a : Z -> float.
Variable weights : list float.
Variable horizontal : bands.
Variable last_overlapping_jj : Z -> Z.
Variables n nn : Z.
Hypothesis n_min : 4 <= n.
Hypothesis map_ok : overlap_ok n nn last_overlapping_jj.

Lemma interior_columns (jj0 : Z) (wins : list window) (ob : outbuf) :
  jj0 = last_overlapping_jj 0 + 1 -> columns_done d jj0 ob ->
  exists wins' ob',
    do_while_lt 1 (n - 2)
      (interior_column d kind a weights horizontal last_overlapping_jj)
      (jj0, wins, ob)
    = (n - 2, (last_overlapping_jj (n - 3) + 1, wins', ob'))
    /\ columns_done d (last_overlapping_jj (n - 3) + 1) ob'.
Proof.
  intros Hjj0 Hdone. destruct map_ok as (H0 & Hinc & Hlast).
  pose proof (overlap_ok_lower n nn last_overlapping_jj map_ok) as Hmono.
  pose (P := fun (j : Z) (st : Z * list window * outbuf) =>
               fst (fst st) = last_overlapping_jj (j - 1) + 1
               /\ columns_done d (fst (fst st)) (snd st)).
  destruct (do_while_lt_invariant P
              (interior_column d kind a weights horizontal last_overlapping_jj)
              1 (n - 2) (jj0, wins, ob)) as (Hfst & Hsnd1 & Hsnd2).
  - lia.
  - unfold P. cbn [fst snd]. replace (1 - 1) with 0 by lia. split; assumption.
  - intros j [[jj ws] t] Hj [Hjj Ht]. cbn [fst snd] in Hjj, Ht. subst jj.
    unfold P, interior_column.
    destruct (emit_loop (value_interior weights horizontal (shift_interior kind a ws))
                (last_overlapping_jj (j - 1) + 1) (last_overlapping_jj j) t)
      as (t' & E & Ht').
    + specialize (Hinc (j - 1)). specialize (Hmono (j - 1)).
      replace (j - 1 + 1) with j in Hinc by lia. lia.
    + exact Ht.
    + rewrite E. cbn [fst snd]. replace (j + 1 - 1) with j by lia. split; [reflexivity|].
      apply emit_columns_done; [|exact Ht']. specialize (Hmono j). lia.
  - destruct (do_while_lt 1 (n - 2) _ (jj0, wins, ob)) as [j [[jj ws] t]] eqn:E.
    cbn [fst snd] in *. subst j jj. replace (n - 2 - 1) with (n - 3) in * by lia.
    exists ws, t. split; [reflexivity|exact Hsnd2].
Qed.

(** One pass of the column loop visits the fine columns [0 .. nn-1] in
    order, once each: it ends with [jj = nn], the output position
    [nn * channels] samples further, and every sample before it written by
    the macro. *)
Lemma synthesize_row_spec (rows : list Z) (a_left0 : Z -> float) (buffer : Z -> Z) :
  exists ob',
    synthesize_row d kind a weights horizontal last_overlapping_jj n nn
                   rows a_left0 buffer = (nn, ob')
    /\ columns_done d nn ob'.
Proof.
  destruct map_ok as (H0 & Hinc & Hlast).
  pose proof (overlap_ok_lower n nn last_overlapping_jj map_ok) as Hmono.
  unfold synthesize_row.
  set (wins := map (load a a_left0) rows).
  destruct (emit_loop (value_first weights horizontal wins) 0 (last_overlapping_jj 0)
              {| output_row := buffer; output_row_p := 0 |}) as (ob1 & E1 & Hd1).
  - lia.
  - split; [reflexivity|]. intros q Hq. unfold channels in Hq. lia.
  - rewrite E1.
    set (ob2 := emit d _ ob1).
    assert (Hd2 : columns_done d (last_overlapping_jj 0 + 1) ob2)
      by (apply emit_columns_done; [lia|exact Hd1]).
    destruct (interior_columns (last_overlapping_jj 0 + 1) wins ob2 eq_refl Hd2)
      as (wins3 & ob3 & E3 & Hd3).
    rewrite E3.
    assert (Hidx : second_to_last_index kind (n - 2) (n - 2) = n - 2)
      by (destruct kind; reflexivity).
    rewrite Hidx.
    destruct (emit_loop (value_interior weights horizontal (map shift_three wins3))
                (last_overlapping_jj (n - 3) + 1) (last_overlapping_jj (n - 2) + 1) ob3)
      as (ob4 & E4 & Hd4).
    + specialize (Hinc (n - 3)). specialize (Hmono (n - 3)).
      replace (n - 3 + 1) with (n - 2) in Hinc by lia. lia.
    + exact Hd3.
    + rewrite E4.
      destruct (emit_loop (value_last weights horizontal (map shift_two (map shift_three wins3)))
                  (last_overlapping_jj (n - 2) + 1) nn ob4) as (ob5 & E5 & Hd5).
      * specialize (Hmono (n - 2)). lia.
      * exact Hd4.
      * rewrite E5. exists ob5. split; [reflexivity|exact Hd5].
Qed.

End OneRow.

Lemma write_row_spec (nn : Z) (ob : outbuf) :
  0 <= nn -> columns_done d nn ob ->
  written_row d nn (snd (write_row d nn (output_row ob))).
Proof.
  intros Hnn [_ Hdone]. unfold write_row, written_row. cbn [snd]. split.
  - rewrite length_map, length_seq. unfold channels. lia.
  - apply Forall_forall. intros u Hu. apply in_map_iff in Hu.
    destruct Hu as (q & <- & Hq). apply in_seq in Hq.
    assert (Hq' : 0 <= Z.of_nat q < channels * nn) by (unfold channels in *; lia).
    destruct (Hdone (Z.of_nat q) Hq') as [v Hv]. exists v.
    destruct d.
    + assert (Hin : (0 <=? Z.of_nat q) && (Z.of_nat q <? 3 * nn) = true).
      { apply andb_true_intro. unfold channels in Hq'.
        split; [apply Z.leb_le|apply Z.ltb_lt]; lia. }
      rewrite Hin, Hv. reflexivity.
    + exact Hv.
Qed.

Section AllRows.

Variable a : Z -> float.
Variables horizontal vertical : bands.
Variables last_overlapping_jj last_overlapping_ii : Z -> Z.
Variables m n mm nn : Z.
Variable a_left0 : Z -> float.
Hypothesis n_min : 4 <= n.
Hypothesis m_min : 4 <= m.
Hypothesis nn_pos : 0 <= nn.
Hypothesis jj_ok : overlap_ok n nn last_overlapping_jj.
Hypothesis ii_ok : overlap_ok m mm last_overlapping_ii.

Local Abbreviation fine_row' :=
  (fine_row d a horizontal vertical last_overlapping_jj m n nn a_left0).

Lemma fine_row_rows_done (kind : row_kind) (i ii : Z) (s : synth) :
  0 <= ii -> rows_done d nn ii s -> rows_done d nn (ii + 1) (fine_row' kind i ii s).
Proof.
  intros Hii [Hlen Hrows]. unfold fine_row.
  destruct (synthesize_row_spec kind a (row_weights vertical kind i ii) horizontal
              last_overlapping_jj n nn n_min jj_ok (row_offsets m n kind i) a_left0
              (buffer s)) as (ob & E & Hdone).
  rewrite E.
  pose proof (write_row_spec nn ob nn_pos Hdone) as Hrow.
  destruct (write_row d nn (output_row ob)) as [buffer' units]. cbn [snd] in Hrow.
  unfold rows_done. cbn [outputfile]. split.
  - rewrite length_app. cbn [length]. lia.
  - apply Forall_app. split; [exact Hrows|]. constructor; [exact Hrow|constructor].
Qed.

(** A loop [while (ii<last_ii) { one fine row; ii++; }] entered with
    [ii <= last_ii]. *)
Lemma fine_row_loop (kind : row_kind) (i ii last_ii : Z) (s : synth) :
  0 <= ii <= last_ii -> rows_done d nn ii s ->
  exists s',
    while_lt ii last_ii (fine_row' kind i) s = (last_ii, s')
    /\ rows_done d nn last_ii s'.
Proof.
  intros Hii Hdone.
  destruct (while_lt_invariant (fun k t => 0 <= k /\ rows_done d nn k t)
              (fine_row' kind i) ii last_ii s) as (Hfst & _ & Hsnd);
    [lia|split; [lia|exact Hdone]| |].
  - intros k t Hk [_ Ht]. split; [lia|]. apply fine_row_rows_done; [lia|exact Ht].
  - destruct (while_lt ii last_ii _ s) as [ii' s'] eqn:E. cbn [fst snd] in *.
    subst ii'. exists s'. split; [reflexivity|exact Hsnd].
Qed.

(** The row loops write the fine rows [0 .. mm-1] in order, once each. *)
Lemma synthesize_spec (output_row0 : Z -> Z) :
  rows_done d nn mm
    (synthesize d a horizontal vertical last_overlapping_jj last_overlapping_ii
                m n mm nn a_left0 output_row0).
Proof.
  destruct ii_ok as (H0 & Hinc & Hlast).
  pose proof (overlap_ok_lower m mm last_overlapping_ii ii_ok) as Hmono.
  unfold synthesize.
  destruct (fine_row_loop FirstInner 0 0 (last_overlapping_ii 0)
              {| buffer := output_row0; outputfile := [] |}) as (s1 & E1 & Hd1).
  - lia.
  - split; [reflexivity|constructor].
  - rewrite E1.
    set (s2 := fine_row' FirstLast 0 (last_overlapping_ii 0) s1).
    assert (Hd2 : rows_done d nn (last_overlapping_ii 0 + 1) s2)
      by (apply fine_row_rows_done; [lia|exact Hd1]).
    pose (P := fun (i : Z) (st : Z * synth) =>
                 fst st = last_overlapping_ii (i - 1) + 1
                 /\ rows_done d nn (fst st) (snd st)).
    destruct (do_while_lt_invariant P
                (coarse_row d a horizontal vertical last_overlapping_jj
                            last_overlapping_ii m n nn a_left0)
                1 (m - 2) (last_overlapping_ii 0 + 1, s2)) as (Hfst & Hsnd1 & Hsnd2).
    + lia.
    + unfold P. cbn [fst snd]. replace (1 - 1) with 0 by lia. split; [reflexivity|exact Hd2].
    + intros i [ii t] Hi [Hii Ht]. cbn [fst snd] in Hii, Ht. subst ii.
      unfold P, coarse_row.
      destruct (fine_row_loop InteriorInner i (last_overlapping_ii (i - 1) + 1)
                  (last_overlapping_ii i) t) as (t' & E & Ht').
      * specialize (Hinc (i - 1)). specialize (Hmono (i - 1)).
        replace (i - 1 + 1) with i in Hinc by lia. lia.
      * exact Ht.
      * rewrite E. cbn [fst snd]. replace (i + 1 - 1) with i by lia.
        split; [reflexivity|].
        apply fine_row_rows_done; [|exact Ht']. specialize (Hmono i). lia.
    + destruct (do_while_lt 1 (m - 2) _ (last_overlapping_ii 0 + 1, s2))
        as [i [ii s3]] eqn:E3.
      cbn [fst snd] in *. subst i ii. replace (m - 2 - 1) with (m - 3) in * by lia.
      destruct (fine_row_loop SecondToLast 0 (last_overlapping_ii (m - 3) + 1)
                  (last_overlapping_ii (m - 2) + 1) s3) as (s4 & E4 & Hd4).
      * specialize (Hinc (m - 3)). specialize (Hmono (m - 3)).
        replace (m - 3 + 1) with (m - 2) in Hinc by lia. lia.
      * exact Hsnd2.
      * rewrite E4.
        destruct (fine_row_loop LastRow 0 (last_overlapping_ii (m - 2) + 1) mm s4)
          as (s5 & E5 & Hd5).
        -- specialize (Hmono (m - 2)). lia.
        -- exact Hd4.
        -- rewrite E5. exact Hd5.
Qed.

End AllRows.

(** *** The loops on any overlap map *)

(** A loop [while (jj<last_jj) { emit; jj++; }] entered anywhere: it ends
    with the larger of [jj] and [last_jj], every sample before the output
    position written by the macro. *)
Lemma emit_loop_any (value : Z -> Z -> float) (jj last_jj : Z) (ob : outbuf) :
  0 <= jj -> columns_done d jj ob ->
  exists ob',
    while_lt jj last_jj (fun jj => emit d (value jj)) ob = (Z.max jj last_jj, ob')
    /\ columns_done d (Z.max jj last_jj) ob'.
Proof.
  intros Hjj Hdone. unfold while_lt. eexists. split; [reflexivity|].
  pose proof (iter_from_invariant (fun k t => 0 <= k /\ columns_done d k t)
                (fun jj => emit d (value jj)) (Z.to_nat (last_jj - jj)) jj ob) as H.
  replace (jj + Z.of_nat (Z.to_nat (last_jj - jj))) with (Z.max jj last_jj) in H by lia.
  apply H; [split; assumption|].
  intros k t Hk [Hk0 Ht]. split; [lia|]. apply emit_columns_done; assumption.
Qed.

(** One pass of the column loop on any overlap map and any dimensions: the
    fine columns are emitted one after the other from column 0, and the pass
    ends no earlier than column [nn], nor, for [n >= 4], than the column
    after the map's last entry. *)
Lemma synthesize_row_any (kind : row_kind) (a : Z -> float) (weights : list float)
    (horizontal : bands) (last_overlapping_jj : Z -> Z) (n nn : Z) (rows : list Z)
    (a_left0 : Z -> float) (buffer : Z -> Z) :
  exists jj ob,
    synthesize_row d kind a weights horizontal last_overlapping_jj n nn
                   rows a_left0 buffer = (jj, ob)
    /\ 0 <= jj /\ nn <= jj
    /\ (4 <= n -> last_overlapping_jj (n - 2) + 1 <= jj)
    /\ columns_done d jj ob.
Proof.
  unfold synthesize_row.
  set (wins := map (load a a_left0) rows).
  destruct (emit_loop_any (value_first weights horizontal wins) 0 (last_overlapping_jj 0)
              {| output_row := buffer; output_row_p := 0 |}) as (ob1 & E1 & Hd1).
  { lia. }
  { split; [reflexivity|]. intros q Hq. unfold channels in Hq. lia. }
  rewrite E1.
  set (jj1 := Z.max 0 (last_overlapping_jj 0)) in *.
  set (ob2 := emit d _ ob1).
  assert (Hd2 : columns_done d (jj1 + 1) ob2)
    by (apply emit_columns_done; [lia|exact Hd1]).
  pose (Q := fun (st : Z * list window * outbuf) =>
               0 <= fst (fst st) /\ columns_done d (fst (fst st)) (snd st)).
  assert (Hstep : forall j st, Q st ->
             Q (interior_column d kind a weights horizontal last_overlapping_jj j st)).
  { intros j [[jj ws] t] [Hjj Ht]. cbn [fst snd] in Hjj, Ht. unfold Q, interior_column.
    destruct (emit_loop_any (value_interior weights horizontal (shift_interior kind a ws))
                jj (last_overlapping_jj j) t Hjj Ht) as (t' & E & Ht').
    rewrite E. cbn [fst snd]. split; [lia|].
    apply emit_columns_done; [lia|exact Ht']. }
  assert (H3 : Q (snd (do_while_lt 1 (n - 2)
                         (interior_column d kind a weights horizontal last_overlapping_jj)
                         (jj1 + 1, wins, ob2)))
               /\ fst (do_while_lt 1 (n - 2)
                         (interior_column d kind a weights horizontal last_overlapping_jj)
                         (jj1 + 1, wins, ob2)) = Z.max 2 (n - 2)).
  { unfold do_while_lt, while_lt. cbn [fst snd]. split; [|lia].
    change 2 with (1 + 1).
    apply (iter_from_invariant (fun _ st => Q st)
             (interior_column d kind a weights horizontal last_overlapping_jj)).
    - apply Hstep. unfold Q. cbn [fst snd]. split; [lia|exact Hd2].
    - intros k t _ Ht. apply Hstep. exact Ht. }
  destruct (do_while_lt 1 (n - 2) _ (jj1 + 1, wins, ob2)) as [j [[jj3 wins3] ob3]].
  destruct H3 as [[Hjj3 Hd3] Hj]. cbn [fst snd] in Hjj3, Hd3, Hj.
  destruct (emit_loop_any (value_interior weights horizontal (map shift_three wins3))
              jj3 (last_overlapping_jj (second_to_last_index kind j (n - 2)) + 1) ob3
              Hjj3 Hd3) as (ob4 & E4 & Hd4).
  rewrite E4.
  set (jj4 := Z.max jj3 _) in *.
  destruct (emit_loop_any (value_last weights horizontal
                             (map shift_two (map shift_three wins3)))
              jj4 nn ob4 ltac:(lia) Hd4) as (ob5 & E5 & Hd5).
  rewrite E5. exists (Z.max jj4 nn), ob5. split; [reflexivity|].
  split; [lia|]. split; [lia|]. split; [|exact Hd5].
  intros Hn.
  assert (Hidx : second_to_last_index kind j (n - 2) = n - 2).
  { destruct kind; cbn [second_to_last_index]; lia. }
  subst jj4. rewrite Hidx. lia.
Qed.

(** [fwrite] after a pass that reached column [nn]: every unit written
    carries a sample produced by the macro. *)
Lemma write_row_units (nn jj : Z) (ob : outbuf) :
  nn <= jj -> columns_done d jj ob ->
  Forall (written_unit d) (snd (write_row d nn (output_row ob))).
Proof.
  intros Hnn [_ Hdone]. unfold write_row. cbn [snd].
  apply Forall_forall. intros u Hu. apply in_map_iff in Hu.
  destruct Hu as (q & <- & Hq). apply in_seq in Hq.
  assert (Hq' : 0 <= Z.of_nat q < channels * jj) by (unfold channels in *; lia).
  destruct (Hdone (Z.of_nat q) Hq') as [v Hv]. exists v.
  destruct d.
  - assert (Hin : (0 <=? Z.of_nat q) && (Z.of_nat q <? 3 * nn) = true).
    { apply andb_true_intro. unfold channels in Hq.
      split; [apply Z.leb_le|apply Z.ltb_lt]; lia. }
    rewrite Hin, Hv. reflexivity.
  - exact Hv.
Qed.

Lemma fine_row_any (a : Z -> float) (horizontal vertical : bands)
    (last_overlapping_jj : Z -> Z) (m n nn : Z) (a_left0 : Z -> float)
    (kind : row_kind) (i ii ii0 : Z) (s : synth) :
  rows_emitted d ii0 s ->
  rows_emitted d (ii0 + 1)
    (fine_row d a horizontal vertical last_overlapping_jj m n nn a_left0 kind i ii s).
Proof.
  intros (Hii & Hlen & Hrows). unfold fine_row.
  destruct (synthesize_row_any kind a (row_weights vertical kind i ii) horizontal
              last_overlapping_jj n nn (row_offsets m n kind i) a_left0 (buffer s))
    as (jj & ob & E & _ & Hjj & _ & Hdone).
  rewrite E.
  pose proof (write_row_units nn jj ob Hjj Hdone) as Hrow.
  destruct (write_row d nn (output_row ob)) as [buffer' units]. cbn [snd] in Hrow.
  unfold rows_emitted. cbn [outputfile]. split; [lia|]. split.
  - rewrite length_app. cbn [length]. lia.
  - apply Forall_app. split; [exact Hrows|]. constructor; [exact Hrow|constructor].
Qed.

Lemma fine_row_loop_any (a : Z -> float) (horizontal vertical : bands)
    (last_overlapping_jj : Z -> Z) (m n nn : Z) (a_left0 : Z -> float)
    (kind : row_kind) (i ii last_ii : Z) (s : synth) :
  rows_emitted d ii s ->
  exists s',
    while_lt ii last_ii
      (fine_row d a horizontal vertical last_overlapping_jj m n nn a_left0 kind i) s
    = (Z.max ii last_ii, s')
    /\ rows_emitted d (Z.max ii last_ii) s'.
Proof.
  intros Hdone. unfold while_lt. eexists. split; [reflexivity|].
  pose proof (iter_from_invariant (fun k t => rows_emitted d k t)
                (fine_row d a horizontal vertical last_overlapping_jj m n nn a_left0
                          kind i)
                (Z.to_nat (last_ii - ii)) ii s) as H.
  assert (Hii : 0 <= ii) by (destruct Hdone as [H0 _]; exact H0).
  replace (ii + Z.of_nat (Z.to_nat (last_ii - ii))) with (Z.max ii last_ii) in H by lia.
  apply H; [exact Hdone|].
  intros k t _ Ht. apply fine_row_any. exact Ht.
Qed.

(** The row loops on any overlap maps and any dimensions: the rows are
    written one after the other from row 0, no fewer than [mm] of them nor,
    for [m >= 4], than the row map's last entry plus one, and every unit
    written carries a sample produced by the macro. *)
Lemma synthesize_any (a : Z -> float) (horizontal vertical : bands)
    (last_overlapping_jj last_overlapping_ii : Z -> Z) (m n mm nn : Z)
    (a_left0 : Z -> float) (output_row0 : Z -> Z) :
  exists ii,
    rows_emitted d ii
      (synthesize d a horizontal vertical last_overlapping_jj last_overlapping_ii
                  m n mm nn a_left0 output_row0)
    /\ mm <= ii
    /\ last_overlapping_ii (m - 2) + 1 <= ii.
Proof.
  unfold synthesize.
  destruct (fine_row_loop_any a horizontal vertical last_overlapping_jj m n nn a_left0
              FirstInner 0 0 (last_overlapping_ii 0)
              {| buffer := output_row0; outputfile := [] |}) as (s1 & E1 & Hd1).
  { split; [lia|]. split; [reflexivity|constructor]. }
  rewrite E1.
  set (ii1 := Z.max 0 (last_overlapping_ii 0)) in *.
  set (s2 := fine_row d a horizontal vertical last_overlapping_jj m n nn a_left0
                      FirstLast 0 ii1 s1).
  assert (Hd2 : rows_emitted d (ii1 + 1) s2) by (apply fine_row_any; exact Hd1).
  pose (Q := fun (st : Z * synth) => rows_emitted d (fst st) (snd st)).
  assert (Hstep : forall i st, Q st ->
             Q (coarse_row d a horizontal vertical last_overlapping_jj
                           last_overlapping_ii m n nn a_left0 i st)).
  { intros i [ii t] Ht. unfold Q in *. cbn [fst snd] in Ht. unfold coarse_row.
    destruct (fine_row_loop_any a horizontal vertical last_overlapping_jj m n nn a_left0
                InteriorInner i ii (last_overlapping_ii i) t Ht) as (t' & E & Ht').
    rewrite E. cbn [fst snd]. apply fine_row_any. exact Ht'. }
  assert (H3 : Q (snd (do_while_lt 1 (m - 2)
                         (coarse_row d a horizontal vertical last_overlapping_jj
                                     last_overlapping_ii m n nn a_left0)
                         (ii1 + 1, s2)))).
  { unfold do_while_lt, while_lt. cbn [fst snd].
    apply (iter_from_invariant (fun _ st => Q st)
             (coarse_row d a horizontal vertical last_overlapping_jj
                         last_overlapping_ii m n nn a_left0)).
    - apply Hstep. exact Hd2.
    - intros k t _ Ht. apply Hstep. exact Ht. }
  destruct (do_while_lt 1 (m - 2) _ (ii1 + 1, s2)) as [i [ii3 s3]].
  unfold Q in H3. cbn [fst snd] in H3.
  destruct (fine_row_loop_any a horizontal vertical last_overlapping_jj m n nn a_left0
              SecondToLast 0 ii3 (last_overlapping_ii (m - 2) + 1) s3 H3)
    as (s4 & E4 & Hd4).
  rewrite E4.
  set (ii4 := Z.max ii3 _) in *.
  destruct (fine_row_loop_any a horizontal vertical last_overlapping_jj m n nn a_left0
              LastRow 0 ii4 mm s4 Hd4) as (s5 & E5 & Hd5).
  rewrite E5. exists (Z.max ii4 mm). split; [exact Hd5|]. split; [lia|].
  subst ii4. lia.
Qed.

End SynthesizerProofs.

(** ** Reading the input *)

Section ReaderProofs.

Context {FO : FloatOps}.
Variable d : depth.

Lemma fread_got (count : Z) (file : list Z) (buf : Z -> Z) :
  fst (fst (fread count file buf))
  = Z.min (Z.max 0 count) (Z.of_nat (length file)).
Proof.
  unfold fread. cbn [fst]. rewrite length_firstn. lia.
Qed.

Lemma fread_rest (count : Z) (file : list Z) (buf : Z -> Z) :
  Z.of_nat (length (snd (fread count file buf)))
  = Z.of_nat (length file) - Z.min (Z.max 0 count) (Z.of_nat (length file)).
Proof.
  unfold fread. cbn [snd]. rewrite length_skipn. lia.
Qed.

Lemma solve_row_runs (s : float) (input_row : Z -> Z) (n i : Z) (a : Z -> float) :
  7 <= n -> exists a', solve_row d s input_row n i a = Some a'.
Proof.
  intros Hn. unfold solve_row, row_forward, row_backward, while_count, channels.
  destruct (Z.ltb_spec ((n - 7) * 3) 0) as [Hc|Hc]; [lia|].
  cbn [bind]. eexists. reflexivity.
Qed.

(** Every [fread] of the loop yields at least one unit as soon as the stream
    reaches into the last row: the loop then ends normally. *)
Lemma read_rows_normal (s : float) (m n : Z) :
  7 <= n ->
  forall (trips : nat) (i : Z) (file : list Z) (input_row : Z -> Z) (a : Z -> float),
    0 <= i < m -> m - i <= Z.of_nat trips ->
    (m - 1 - i) * (channels * n) < Z.of_nat (length file) ->
    exists res, read_rows d trips s m n i file input_row a = Some (inr res).
Proof.
  intros Hn. induction trips as [|trips IH]; intros i file input_row a Hi Htrips Hlen;
    [lia|].
  cbn [read_rows].
  pose proof (fread_got (channels * n) file input_row) as Hgot.
  pose proof (fread_rest (channels * n) file input_row) as Hrest.
  destruct (fread (channels * n) file input_row) as [[got input_row'] file'].
  cbn [fst snd] in Hgot, Hrest. unfold channels in *.
  destruct (Z.eqb_spec got 0) as [Hz|Hnz]; [nia|].
  destruct (solve_row_runs s input_row' n i a Hn) as [a' Ha']. rewrite Ha'. cbn [bind].
  destruct (Z.ltb_spec (i + 1) m) as [Hc|Hc].
  - apply IH; [lia|lia|]. unfold channels. nia.
  - eexists. reflexivity.
Qed.

(** When the stream ends before the last row begins, some [fread] yields
    nothing and the loop returns 1. *)
Lemma read_rows_exhausted (s : float) (m n : Z) :
  7 <= n ->
  forall (trips : nat) (i : Z) (file : list Z) (input_row : Z -> Z) (a : Z -> float),
    0 <= i < m -> m - i <= Z.of_nat trips ->
    Z.of_nat (length file) <= (m - 1 - i) * (channels * n) ->
    read_rows d trips s m n i file input_row a = Some (inl 1).
Proof.
  intros Hn. induction trips as [|trips IH]; intros i file input_row a Hi Htrips Hlen;
    [lia|].
  cbn [read_rows].
  pose proof (fread_got (channels * n) file input_row) as Hgot.
  pose proof (fread_rest (channels * n) file input_row) as Hrest.
  destruct (fread (channels * n) file input_row) as [[got input_row'] file'].
  cbn [fst snd] in Hgot, Hrest. unfold channels in *.
  destruct (Z.eqb_spec got 0) as [Hz|Hnz]; [reflexivity|].
  destruct (solve_row_runs s input_row' n i a Hn) as [a' Ha']. rewrite Ha'. cbn [bind].
  destruct (Z.ltb_spec (i + 1) m) as [Hc|Hc].
  - apply IH; [lia|lia|]. unfold channels. nia.
  - exfalso. nia.
Qed.

(** The sizes and offsets computed on entry are values of type [int] for
    an image of at least 3 rows and 7 columns whose [m * channels * n]
    coefficients and [channels * nn] samples of an output row can be counted
    in an [int]. *)
Lemma entry_ints_fit (m n nn : Z) :
  3 <= m -> 7 <= n -> 0 <= nn ->
  m * (channels * n) <= CInt.INT_MAX -> channels * nn <= CInt.INT_MAX ->
  forallb CInt.fits (entry_ints m n nn) = true.
Proof.
  intros Hm Hn Hnn Ha Hrow.
  assert (Hfits : forall x, CInt.INT_MIN <= x <= CInt.INT_MAX -> CInt.fits x = true).
  { intros x Hx. unfold CInt.fits. apply andb_true_intro.
    split; apply Z.leb_le; lia. }
  unfold entry_ints. cbn [forallb].
  rewrite !Hfits by (unfold CInt.INT_MIN, CInt.INT_MAX, channels in *; nia).
  reflexivity.
Qed.

(** An image whose [m * channels * n] coefficients cannot be counted in an
    [int]: [scale_up] has no defined result. *)
Lemma scale_up_overflow (fuel : nat) (g : storage) (inputfile : list Z)
    (m n mm nn maxval : Z) :
  CInt.INT_MAX < m * (channels * n) ->
  scale_up d fuel g inputfile m n mm nn maxval = None.
Proof.
  intros Hbig. unfold scale_up.
  assert (E : forallb CInt.fits (entry_ints m n nn) = false).
  { unfold entry_ints. cbn [forallb].
    assert (Hno : CInt.fits (m * (channels * n)) = false).
    { unfold CInt.fits. apply andb_false_intro2. apply Z.leb_gt. exact Hbig. }
    rewrite Hno. rewrite !andb_false_r. reflexivity. }
  rewrite E. reflexivity.
Qed.

(** [scale_up] on dimensions in the supported range, whenever the stream
    reaches into the last row: it returns 0 and writes [mm] rows of
    [nn * channels] samples, each produced by the macro. *)
Lemma scale_up_runs (fuel : nat) (g : storage) (inputfile : list Z)
    (m n mm nn maxval : Z) :
  15 <= m -> 15 <= n -> m <= mm -> n <= nn ->
  m * mm <= CInt.INT_MAX -> n * nn <= CInt.INT_MAX ->
  m * (channels * n) <= CInt.INT_MAX ->
  mm <= Z.of_nat fuel -> nn <= Z.of_nat fuel ->
  (m - 1) * (channels * n) < Z.of_nat (length inputfile) ->
  exists rows,
    scale_up d fuel g inputfile m n mm nn maxval = Some (0, rows)
    /\ Z.of_nat (length rows) = mm
    /\ Forall (written_row d nn) rows.
Proof.
  intros Hm Hn Hmm Hnn Hfm Hfn Hfa Hfuelm Hfueln Hlen. unfold scale_up.
  rewrite entry_ints_fit by (unfold channels in *; nia). cbn [negb].
  destruct (read_rows_normal
              (fdiv (fmul (float_of_int mm) (float_of_int nn))
                    (fmul (float_of_int m) (float_of_int n)))
              m n ltac:(lia) (Z.to_nat (Z.max 1 m)) 0 inputfile (g_input_row g) (g_a g))
    as [[[file' row'] a'] Hread]; [lia|lia| |].
  { replace (m - 1 - 0) with (m - 1) by lia. exact Hlen. }
  rewrite Hread. cbn [bind].
  unfold solve_columns, channels.
  destruct (Z.leb_spec (3 * n) 0) as [Hc|Hc]; [lia|]. cbn [bind].
  destruct (last_overlapping_index_ok fuel fuel n nn (g_last_overlapping_jj g))
    as (jj_map & Hjj & Hjj_ok); try lia.
  destruct (last_overlapping_index_ok fuel fuel m mm (g_last_overlapping_ii g))
    as (ii_map & Hii & Hii_ok); try lia.
  rewrite Hjj, Hii. cbn [bind].
  eexists. split; [reflexivity|].
  apply synthesize_spec; try lia; assumption.
Qed.

(** [scale_up] when the stream ends before the last row begins: it returns
    1 and has written nothing. *)
Lemma scale_up_exhausted (fuel : nat) (g : storage) (inputfile : list Z)
    (m n mm nn maxval : Z) :
  3 <= m -> 7 <= n -> 0 <= nn ->
  m * (channels * n) <= CInt.INT_MAX -> channels * nn <= CInt.INT_MAX ->
  Z.of_nat (length inputfile) <= (m - 1) * (channels * n) ->
  scale_up d fuel g inputfile m n mm nn maxval = Some (1, []).
Proof.
  intros Hm Hn Hnn Hfa Hfrow Hlen. unfold scale_up.
  rewrite entry_ints_fit by assumption. cbn [negb].
  rewrite read_rows_exhausted; [reflexivity|lia|lia|lia|].
  replace (m - 1 - 0) with (m - 1) by lia. exact Hlen.
Qed.

End ReaderProofs.

(** ** ControlCoefficientSolver *)

Section SolverProofs.

Context {FO : FloatOps}.
Variable d : depth.
Variable s : float.
Variable input_row : Z -> Z.

Lemma row_first_block (k : Z) (w : walk) :
  0 <= k ->
  let w' := repeat_n k (row_first d s input_row) w in
  w_a1 w' = w_a1 w + k /\ w_a2 w' = w_a2 w /\ w_in w' = w_in w + k
  /\ (forall q, q < w_a1 w \/ w_a1 w + k <= q -> w_a w' q = w_a w q)
  /\ (forall t, 0 <= t < k ->
        w_a w' (w_a1 w + t) = scaled_sample d s input_row (w_in w + t)).
Proof.
  intros Hk.
  apply (repeat_n_invariant
           (fun k w' =>
              w_a1 w' = w_a1 w + k /\ w_a2 w' = w_a2 w /\ w_in w' = w_in w + k
              /\ (forall q, q < w_a1 w \/ w_a1 w + k <= q -> w_a w' q = w_a w q)
              /\ (forall t, 0 <= t < k ->
                    w_a w' (w_a1 w + t) = scaled_sample d s input_row (w_in w + t))));
    [exact Hk| |].
  - repeat split; intros; first [lia | reflexivity].
  - intros t u Ht (H1 & H2 & H3 & Hframe & Hval).
    unfold row_first. cbn [w_a w_a1 w_a2 w_in]. rewrite H1, H3.
    split; [lia|]. split; [exact H2|]. split; [lia|]. split.
    + intros q Hq. rewrite upd_other by lia. apply Hframe. lia.
    + intros t' Ht'. destruct (Z.eq_dec t' t) as [->|Hne].
      * apply upd_same.
      * rewrite upd_other by lia. apply Hval. lia.
Qed.

Lemma row_forward_block (C : float) (k : Z) (w : walk) :
  0 <= k -> w_a2 w = w_a1 w - 3 ->
  let w' := repeat_n k (row_forward_step d s input_row C) w in
  w_a1 w' = w_a1 w + k /\ w_a2 w' = w_a2 w + k /\ w_in w' = w_in w + k
  /\ (forall q, q < w_a1 w \/ w_a1 w + k <= q -> w_a w' q = w_a w q)
  /\ (forall t, 0 <= t < k ->
        w_a w' (w_a1 w + t)
        = fsub (scaled_sample d s input_row (w_in w + t))
               (fmul (w_a w' (w_a1 w + t - 3)) C)).
Proof.
  intros Hk Hlag.
  apply (repeat_n_invariant
           (fun k w' =>
              w_a1 w' = w_a1 w + k /\ w_a2 w' = w_a2 w + k /\ w_in w' = w_in w + k
              /\ (forall q, q < w_a1 w \/ w_a1 w + k <= q -> w_a w' q = w_a w q)
              /\ (forall t, 0 <= t < k ->
                    w_a w' (w_a1 w + t)
                    = fsub (scaled_sample d s input_row (w_in w + t))
                           (fmul (w_a w' (w_a1 w + t - 3)) C))));
    [exact Hk| |].
  - repeat split; intros; first [lia | reflexivity].
  - intros t u Ht (H1 & H2 & H3 & Hframe & Hval).
    unfold row_forward_step. cbn [w_a w_a1 w_a2 w_in]. rewrite H1, H2, H3.
    split; [lia|]. split; [lia|]. split; [lia|]. split.
    + intros q Hq. rewrite upd_other by lia. apply Hframe. lia.
    + intros t' Ht'. destruct (Z.eq_dec t' t) as [->|Hne].
      * rewrite upd_same. rewrite upd_other by lia.
        replace (w_a2 w + t) with (w_a1 w + t - 3) by lia. reflexivity.
      * rewrite !upd_other by lia. apply Hval. lia.
Qed.

(** One block of three samples extends the prefix by one pixel. *)
Lemma forward_prefix_step (a0 : Z -> float) (base : Z) (C : float) (j : Z) (w : walk) :
  1 <= j -> forward_multiplier j = Some C ->
  forward_prefix d s input_row a0 base (3 * j) w ->
  forward_prefix d s input_row a0 base (3 * (j + 1))
    (repeat_n channels (row_forward_step d s input_row C) w).
Proof.
  intros Hj HC (H1 & H2 & H3 & Hframe & Hval). unfold channels in *.
  destruct (row_forward_block C 3 w ltac:(lia) ltac:(lia))
    as (B1 & B2 & B3 & Bframe & Bval).
  unfold forward_prefix, channels.
  split; [lia|]. split; [lia|]. split; [lia|]. split.
  - intros q Hq. rewrite Bframe by lia. apply Hframe. lia.
  - intros j' c Hj' Hc Hlt. destruct (Z_lt_le_dec (3 * j' + c) (3 * j)) as [Hold|Hnew].
    + rewrite !Bframe by lia. apply Hval; lia.
    + assert (j' = j) as -> by lia.
      replace (base + 3 * j + c) with (w_a1 w + c) by lia.
      rewrite Bval by lia. unfold forward_entry. rewrite HC.
      replace (w_in w + c) with (3 * j + c) by lia.
      replace (w_a1 w + c - 3) with (base + 3 * (j - 1) + c) by lia.
      reflexivity.
Qed.

(** The asymptotic block extends it to the end of the row. *)
Lemma forward_prefix_tail (a0 : Z -> float) (base n : Z) (w : walk) :
  7 <= n ->
  forward_prefix d s input_row a0 base (3 * 7) w ->
  forward_prefix d s input_row a0 base (3 * n)
    (repeat_n ((n - 7) * channels) (row_forward_step d s input_row CINFTY) w).
Proof.
  intros Hn (H1 & H2 & H3 & Hframe & Hval). unfold channels in *.
  destruct (row_forward_block CINFTY ((n - 7) * 3) w ltac:(lia) ltac:(lia))
    as (B1 & B2 & B3 & Bframe & Bval).
  unfold forward_prefix, channels.
  split; [lia|]. split; [lia|]. split; [lia|]. split.
  - intros q Hq. rewrite Bframe by lia. apply Hframe. lia.
  - intros j' c Hj' Hc Hlt. destruct (Z_lt_le_dec (3 * j' + c) (3 * 7)) as [Hold|Hnew].
    + rewrite !Bframe by lia. apply Hval; lia.
    + replace (base + 3 * j' + c) with (w_a1 w + (3 * j' + c - 21)) by lia.
      rewrite Bval by lia. unfold forward_entry, forward_multiplier.
      destruct (Z.leb_spec j' 0); [lia|].
      destruct (Z.eqb_spec j' 1); [lia|]. destruct (Z.eqb_spec j' 2); [lia|].
      destruct (Z.eqb_spec j' 3); [lia|]. destruct (Z.eqb_spec j' 4); [lia|].
      destruct (Z.eqb_spec j' 5); [lia|]. destruct (Z.eqb_spec j' 6); [lia|].
      replace (w_in w + (3 * j' + c - 21)) with (3 * j' + c) by lia.
      replace (w_a1 w + (3 * j' + c - 21) - 3) with (base + 3 * (j' - 1) + c) by lia.
      reflexivity.
Qed.

(** The forward substitution along a row follows the schedule of
    [forward_multiplier]. *)
Lemma row_forward_spec (n i : Z) (a : Z -> float) :
  7 <= n ->
  exists w,
    row_forward d s input_row n i a = Some w
    /\ forward_prefix d s input_row a (i * (channels * n)) (channels * n) w.
Proof.
  intros Hn. unfold row_forward, while_count.
  destruct (Z.ltb_spec ((n - 7) * channels) 0) as [Hc|Hc]; [unfold channels in *; lia|].
  eexists. split; [reflexivity|].
  set (base := i * (channels * n)).
  set (w0 := {| w_a := a; w_a1 := base; w_a2 := base; w_in := 0 |}).
  assert (P1 : forward_prefix d s input_row a base (3 * 1)
                 (repeat_n channels (row_first d s input_row) w0)).
  { destruct (row_first_block 3 w0 ltac:(lia)) as (B1 & B2 & B3 & Bframe & Bval).
    unfold forward_prefix, channels. subst w0. cbn [w_a w_a1 w_a2 w_in] in *.
    split; [lia|]. split; [lia|]. split; [lia|]. split.
    - intros q Hq. apply Bframe. lia.
    - intros j c Hj Hc' Hlt. assert (j = 0) as -> by lia.
      replace (base + 3 * 0 + c) with (base + c) by lia. rewrite Bval by lia.
      unfold forward_entry, forward_multiplier. cbn [Z.leb Z.compare].
      replace (0 + c) with (3 * 0 + c) by lia. reflexivity. }
  apply (forward_prefix_step a base C0 1) in P1; [|lia|reflexivity].
  apply (forward_prefix_step a base C1 2) in P1; [|lia|reflexivity].
  apply (forward_prefix_step a base C2 3) in P1; [|lia|reflexivity].
  apply (forward_prefix_step a base C3 4) in P1; [|lia|reflexivity].
  apply (forward_prefix_step a base C4 5) in P1; [|lia|reflexivity].
  apply (forward_prefix_step a base C5 6) in P1; [|lia|reflexivity].
  apply (forward_prefix_tail a base n) in P1; [|exact Hn].
  unfold channels in *. exact P1.
Qed.

Lemma row_last_block (k : Z) (w : walk) :
  0 <= k ->
  let w' := repeat_n k row_last w in
  w_a1 w' = w_a1 w - k
  /\ (forall q, q <= w_a1 w - k \/ w_a1 w < q -> w_a w' q = w_a w q)
  /\ (forall t, 0 <= t < k ->
        w_a w' (w_a1 w - t) = fmul (w_a w (w_a1 w - t)) CLAST).
Proof.
  intros Hk.
  apply (repeat_n_invariant
           (fun k w' =>
              w_a1 w' = w_a1 w - k
              /\ (forall q, q <= w_a1 w - k \/ w_a1 w < q -> w_a w' q = w_a w q)
              /\ (forall t, 0 <= t < k ->
                    w_a w' (w_a1 w - t) = fmul (w_a w (w_a1 w - t)) CLAST)));
    [exact Hk| |].
  - repeat split; intros; first [lia | reflexivity].
  - intros t u Ht (H1 & Hframe & Hval).
    unfold row_last. cbn [w_a w_a1 w_a2 w_in]. rewrite H1.
    split; [lia|]. split.
    + intros q Hq. rewrite upd_other by lia. apply Hframe. lia.
    + intros t' Ht'. destruct (Z.eq_dec t' t) as [->|Hne].
      * rewrite upd_same. rewrite Hframe by lia. reflexivity.
      * rewrite upd_other by lia. apply Hval. lia.
Qed.

(** A block of the back substitution along a row writes at its starting
    position and below. *)
Lemma row_backward_block (C : float) (k : Z) (w : walk) :
  0 <= k ->
  let w' := repeat_n k (row_backward_step C) w in
  w_a1 w' = w_a1 w - k /\ (forall q, w_a1 w < q -> w_a w' q = w_a w q).
Proof.
  intros Hk.
  apply (repeat_n_invariant
           (fun k w' =>
              w_a1 w' = w_a1 w - k /\ (forall q, w_a1 w < q -> w_a w' q = w_a w q)));
    [exact Hk| |].
  - split; intros; first [lia | reflexivity].
  - intros t u Ht (H1 & Hframe).
    unfold row_backward_step. cbn [w_a w_a1 w_a2 w_in]. rewrite H1.
    split; [lia|]. intros q Hq. rewrite upd_other by lia. apply Hframe. lia.
Qed.

(** The back substitution along a row leaves in the last pixel the
    eliminated entries times [CLAST]. *)
Lemma row_backward_last (n top : Z) (w : walk) :
  7 <= n -> w_a1 w = top ->
  exists w',
    row_backward n w = Some w'
    /\ (forall c, 0 <= c < channels ->
          w_a w' (top - channels + c) = fmul (w_a w (top - channels + c)) CLAST).
Proof.
  intros Hn Htop. unfold row_backward, while_count, channels.
  destruct (Z.ltb_spec ((n - 7) * 3) 0) as [Hc|Hc]; [lia|]. cbn [bind].
  eexists. split; [reflexivity|]. intros c Hc'.
  set (w1 := move (-1) 0 w).
  destruct (row_last_block 3 w1 ltac:(lia)) as (L1 & Lframe & Lval).
  set (w2 := repeat_n 3 row_last w1) in *.
  assert (Hw1 : w_a1 w1 = top - 1) by (subst w1; cbn [move w_a1]; lia).
  assert (Hv : w_a w2 (top - 3 + c) = fmul (w_a w (top - 3 + c)) CLAST).
  { replace (top - 3 + c) with (w_a1 w1 - (2 - c)) by lia. rewrite Lval by lia.
    reflexivity. }
  set (w3 := move 0 (3 - 1) w2).
  assert (H3 : w_a1 w3 <= top - 4 /\ w_a w3 (top - 3 + c) = fmul (w_a w (top - 3 + c)) CLAST).
  { subst w3. cbn [move w_a w_a1]. split; [lia|exact Hv]. }
  clearbody w3. clear - H3 Hc Hc'.
  assert (Hkeep : forall C k u,
             0 <= k ->
             w_a1 u <= top - 4 /\ w_a u (top - 3 + c) = fmul (w_a w (top - 3 + c)) CLAST ->
             w_a1 (repeat_n k (row_backward_step C) u) <= top - 4
             /\ w_a (repeat_n k (row_backward_step C) u) (top - 3 + c)
                = fmul (w_a w (top - 3 + c)) CLAST).
  { intros C k u Hk [Hu1 Hu2].
    destruct (row_backward_block C k u Hk) as (B1 & Bframe).
    split; [lia|]. rewrite Bframe by lia. exact Hu2. }
  apply (Hkeep CINFTY ((n - 7) * 3)) in H3; [|lia].
  apply (Hkeep C5 3) in H3; [|lia]. apply (Hkeep C4 3) in H3; [|lia].
  apply (Hkeep C3 3) in H3; [|lia]. apply (Hkeep C2 3) in H3; [|lia].
  apply (Hkeep C1 3) in H3; [|lia]. apply (Hkeep C0 3) in H3; [|lia].
  exact (proj2 H3).
Qed.

Lemma col_forward_block (C : float) (width : Z) (w : walk) :
  0 <= width -> w_a2 w = w_a1 w - width ->
  let w' := repeat_n width (col_forward_step C) w in
  w_a1 w' = w_a1 w + width /\ w_a2 w' = w_a2 w + width
  /\ (forall q, q < w_a1 w \/ w_a1 w + width <= q -> w_a w' q = w_a w q)
  /\ (forall t, 0 <= t < width ->
        w_a w' (w_a1 w + t)
        = fsub (w_a w (w_a1 w + t)) (fmul (w_a w' (w_a1 w + t - width)) C)).
Proof.
  intros Hk Hlag.
  apply (repeat_n_invariant
           (fun k w' =>
              w_a1 w' = w_a1 w + k /\ w_a2 w' = w_a2 w + k
              /\ (forall q, q < w_a1 w \/ w_a1 w + k <= q -> w_a w' q = w_a w q)
              /\ (forall t, 0 <= t < k ->
                    w_a w' (w_a1 w + t)
                    = fsub (w_a w (w_a1 w + t))
                           (fmul (w_a w' (w_a1 w + t - width)) C))));
    [exact Hk| |].
  - repeat split; intros; first [lia | reflexivity].
  - intros t u Ht (H1 & H2 & Hframe & Hval).
    unfold col_forward_step. cbn [w_a w_a1 w_a2 w_in]. rewrite H1, H2.
    split; [lia|]. split; [lia|]. split.
    + intros q Hq. rewrite upd_other by lia. apply Hframe. lia.
    + intros t' Ht'. destruct (Z.eq_dec t' t) as [->|Hne].
      * rewrite upd_same. rewrite upd_other by lia.
        rewrite (Hframe (w_a1 w + t)) by lia.
        replace (w_a2 w + t) with (w_a1 w + t - width) by lia. reflexivity.
      * rewrite !upd_other by lia. apply Hval. lia.
Qed.

(** One block extends the forward substitution by one row. *)
Lemma forward_rows_step (a0 : Z -> float) (width : Z) (C : float) (R : Z) (w : walk) :
  0 < width -> 1 <= R -> forward_multiplier R = Some C ->
  forward_rows a0 width R w ->
  forward_rows a0 width (R + 1) (repeat_n width (col_forward_step C) w).
Proof.
  intros Hw HR HC (H1 & H2 & Hframe & Hval).
  destruct (col_forward_block C width w ltac:(lia) ltac:(lia))
    as (B1 & B2 & Bframe & Bval).
  unfold forward_rows. split; [lia|]. split; [lia|]. split.
  - intros q Hq. rewrite Bframe by nia. apply Hframe. nia.
  - intros r q Hr Hq. destruct (Z_lt_le_dec r R) as [Hold|Hnew].
    + rewrite !Bframe by nia. apply Hval; lia.
    + assert (r = R) as -> by lia.
      replace (R * width + q) with (w_a1 w + q) by lia.
      rewrite Bval by lia. rewrite (Hframe (w_a1 w + q)) by nia.
      unfold forward_entry. rewrite HC.
      replace (w_a1 w + q - width) with ((R - 1) * width + q) by lia.
      reflexivity.
Qed.

(** The forward substitution down the columns follows the schedule of
    [forward_multiplier]. *)
Lemma col_forward_spec (m n : Z) (a : Z -> float) :
  7 <= m -> 1 <= n ->
  fst (col_forward m n a) = m
  /\ forward_rows a (channels * n) m (snd (col_forward m n a)).
Proof.
  intros Hm Hn. unfold col_forward.
  set (width := channels * n).
  assert (Hw : 0 < width) by (subst width; unfold channels; lia).
  assert (P1 : forward_rows a width 1
                 {| w_a := a; w_a1 := width; w_a2 := 0; w_in := 0 |}).
  { unfold forward_rows. cbn [w_a w_a1 w_a2]. split; [lia|]. split; [lia|].
    split; [reflexivity|]. intros r q Hr. lia. }
  apply (forward_rows_step a width C0 1) in P1; [|lia|lia|reflexivity].
  apply (forward_rows_step a width C1 2) in P1; [|lia|lia|reflexivity].
  apply (forward_rows_step a width C2 3) in P1; [|lia|lia|reflexivity].
  apply (forward_rows_step a width C3 4) in P1; [|lia|lia|reflexivity].
  apply (forward_rows_step a width C4 5) in P1; [|lia|lia|reflexivity].
  apply (forward_rows_step a width C5 6) in P1; [|lia|lia|reflexivity].
  set (w6 := repeat_n width (col_forward_step C5) _) in *.
  replace (6 + 1) with 7 in P1 by lia.
  destruct (while_lt_invariant (fun R w => 7 <= R /\ forward_rows a width R w)
              (fun _ : Z => repeat_n width (col_forward_step CINFTY)) 7 m w6)
    as [Hfst [_ Hsnd]].
  - exact Hm.
  - split; [lia|exact P1].
  - intros k t Hk [Hk' Ht]. split; [lia|].
    apply forward_rows_step; [exact Hw|lia| |exact Ht].
    unfold forward_multiplier.
    destruct (Z.leb_spec k 0); [lia|].
    destruct (Z.eqb_spec k 1); [lia|]. destruct (Z.eqb_spec k 2); [lia|].
    destruct (Z.eqb_spec k 3); [lia|]. destruct (Z.eqb_spec k 4); [lia|].
    destruct (Z.eqb_spec k 5); [lia|]. destruct (Z.eqb_spec k 6); [lia|].
    reflexivity.
  - split; assumption.
Qed.

Lemma col_last_block (k : Z) (w : walk) :
  0 <= k ->
  let w' := repeat_n k col_last w in
  w_a1 w' = w_a1 w + k /\ w_a2 w' = w_a2 w
  /\ (forall q, q < w_a1 w \/ w_a1 w + k <= q -> w_a w' q = w_a w q)
  /\ (forall t, 0 <= t < k ->
        w_a w' (w_a1 w + t) = fmul (w_a w (w_a1 w + t)) CLAST).
Proof.
  intros Hk.
  apply (repeat_n_invariant
           (fun k w' =>
              w_a1 w' = w_a1 w + k /\ w_a2 w' = w_a2 w
              /\ (forall q, q < w_a1 w \/ w_a1 w + k <= q -> w_a w' q = w_a w q)
              /\ (forall t, 0 <= t < k ->
                    w_a w' (w_a1 w + t) = fmul (w_a w (w_a1 w + t)) CLAST)));
    [exact Hk| |].
  - repeat split; intros; first [lia | reflexivity].
  - intros t u Ht (H1 & H2 & Hframe & Hval).
    unfold col_last. cbn [w_a w_a1 w_a2 w_in]. rewrite H1.
    split; [lia|]. split; [exact H2|]. split.
    + intros q Hq. rewrite upd_other by lia. apply Hframe. lia.
    + intros t' Ht'. destruct (Z.eq_dec t' t) as [->|Hne].
      * rewrite upd_same. rewrite Hframe by lia. reflexivity.
      * rewrite upd_other by lia. apply Hval. lia.
Qed.

(** A block of the back substitution up the columns writes one row. *)
Lemma col_backward_block (C : float) (k : Z) (w : walk) :
  0 <= k ->
  let w' := repeat_n k (col_backward_step C) w in
  w_a1 w' = w_a1 w + k
  /\ (forall q, q < w_a1 w \/ w_a1 w + k <= q -> w_a w' q = w_a w q).
Proof.
  intros Hk.
  apply (repeat_n_invariant
           (fun k w' =>
              w_a1 w' = w_a1 w + k
              /\ (forall q, q < w_a1 w \/ w_a1 w + k <= q -> w_a w' q = w_a w q)));
    [exact Hk| |].
  - split; intros; first [lia | reflexivity].
  - intros t u Ht (H1 & Hframe).
    unfold col_backward_step. cbn [w_a w_a1 w_a2 w_in]. rewrite H1.
    split; [lia|]. intros q Hq. rewrite upd_other by lia. apply Hframe. lia.
Qed.

(** The back substitution up the columns leaves in the last row the
    eliminated entries times [CLAST]. *)
Lemma col_backward_last (m n : Z) (w : walk) :
  7 <= m -> 1 <= n -> w_a1 w = m * (channels * n) ->
  forall q, 0 <= q < channels * n ->
    w_a (col_backward n (m, w)) ((m - 1) * (channels * n) + q)
    = fmul (w_a w ((m - 1) * (channels * n) + q)) CLAST.
Proof.
  intros Hm Hn Htop q Hq. unfold col_backward.
  set (width := channels * n) in *.
  assert (Hw : 0 < width) by (subst width; unfold channels; lia).
  set (w1 := move (- width) 0 w).
  destruct (col_last_block width w1 ltac:(lia)) as (L1 & _ & Lframe & Lval).
  assert (Hw1 : w_a1 w1 = (m - 1) * width) by (subst w1; cbn [move w_a1]; lia).
  set (w2 := repeat_n width col_last w1) in *.
  set (target := fmul (w_a w ((m - 1) * width + q)) CLAST).
  assert (Hv : w_a w2 ((m - 1) * width + q) = target).
  { replace ((m - 1) * width + q) with (w_a1 w1 + q) by lia. rewrite Lval by lia.
    subst target. replace (w_a1 w1 + q) with ((m - 1) * width + q) by lia. reflexivity. }
  set (K := fun u : walk =>
              w_a1 u <= (m - 2) * width /\ w_a u ((m - 1) * width + q) = target).
  assert (Hblock : forall C u, K u ->
             K (move (- (width + width)) (- (width + width))
                     (repeat_n width (col_backward_step C) u))).
  { intros C u [Hu1 Hu2].
    destruct (col_backward_block C width u ltac:(lia)) as (B1 & Bframe).
    unfold K. cbn [move w_a w_a1]. split; [lia|]. rewrite Bframe by lia. exact Hu2. }
  assert (H3 : K (move (- (width + width)) 0 w2)).
  { unfold K. cbn [move w_a w_a1]. split; [lia|exact Hv]. }
  apply (repeat_n_invariant (fun _ u => K u)
           (fun u => move (- (width + width)) (- (width + width))
                       (repeat_n width (col_backward_step CINFTY) u))
           (m - 1 - 1 - 5)) in H3; [|lia|intros k t _ Ht; apply Hblock; exact Ht].
  apply (Hblock C5) in H3. apply (Hblock C4) in H3. apply (Hblock C3) in H3.
  apply (Hblock C2) in H3. apply (Hblock C1) in H3.
  destruct H3 as [Hu1 Hu2].
  match goal with
  | |- w_a (repeat_n width (col_backward_step C0) ?u) _ = _ =>
      destruct (col_backward_block C0 width u ltac:(lia)) as (_ & Bframe)
  end.
  rewrite Bframe by lia. exact Hu2.
Qed.

End SolverProofs.

(** * The claims about the engine *)

Section EngineClaims.

Context {FO : FloatOps}.
Variable d : depth.

(** C9 (amended): on every valid input (m, n >= 15, mm >= m, nn >= n) whose
    products [m * mm], [n * nn] and [m * channels * n] fit an [int] and
    that can be read in full, [scale_up] returns 0 having written exactly
    [mm] rows of exactly [nn * channels] samples; and with the overlap map
    it computes, every pass of the column loop ends at [jj = nn] with the
    output position [nn * channels] samples after the start of the row,
    each sample before it written once on the way. *)
Theorem C9_output_rows_and_columns (fuel : nat) (g : storage) (inputfile : list Z)
    (m n mm nn maxval : Z) :
  15 <= m -> 15 <= n -> m <= mm -> n <= nn ->
  m * mm <= CInt.INT_MAX -> n * nn <= CInt.INT_MAX ->
  m * (channels * n) <= CInt.INT_MAX ->
  mm <= Z.of_nat fuel -> nn <= Z.of_nat fuel ->
  m * (channels * n) <= Z.of_nat (length inputfile) ->
  (exists rows,
      scale_up d fuel g inputfile m n mm nn maxval = Some (0, rows)
      /\ Z.of_nat (length rows) = mm
      /\ forall row, In row rows -> Z.of_nat (length row) = nn * channels)
  /\ (exists last_overlapping_jj,
        last_overlapping_index fuel fuel n nn (g_last_overlapping_jj g)
        = Some last_overlapping_jj
        /\ forall kind a weights horizontal rows a_left0 buffer,
             exists ob,
               synthesize_row d kind a weights horizontal last_overlapping_jj
                              n nn rows a_left0 buffer = (nn, ob)
               /\ output_row_p ob = nn * channels
               /\ forall q, 0 <= q < nn * channels -> rounded d (output_row ob q)).
Proof.
  intros Hm Hn Hmm Hnn Hfm Hfn Hfa Hf1 Hf2 Hlen. split.
  - destruct (scale_up_runs d fuel g inputfile m n mm nn maxval)
      as (rows & Hrun & Hcount & Hrows); try assumption.
    { unfold channels in *. nia. }
    exists rows. split; [exact Hrun|]. split; [exact Hcount|].
    intros row Hrow. rewrite Forall_forall in Hrows.
    destruct (Hrows row Hrow) as [Hlength _]. lia.
  - destruct (last_overlapping_index_ok fuel fuel n nn (g_last_overlapping_jj g))
      as (jj_map & Hjj & Hjj_ok); try lia.
    exists jj_map. split; [exact Hjj|].
    intros kind a weights horizontal rows a_left0 buffer.
    destruct (synthesize_row_spec d kind a weights horizontal jj_map n nn
                ltac:(lia) Hjj_ok rows a_left0 buffer) as (ob & E & Hp & Hdone).
    exists ob. split; [exact E|]. split; [lia|].
    intros q Hq. apply Hdone. lia.
Qed.

(** C8: in each of the two elimination passes (along a row, then down the
    columns) the forward substitution leaves the first entry as it is,
    applies [C0] .. [C5] to the next six and [CINFTY] to every later one,
    and the back substitution leaves in the last entry its eliminated value
    times [CLAST]: the multiplier of an entry is a constant fixed by its
    index. *)
Theorem C8_elimination_multipliers (s : float) (input_row : Z -> Z) (m n i : Z)
    (a : Z -> float) :
  7 <= m -> 7 <= n ->
  (forward_multiplier 0 = None
   /\ map forward_multiplier [1; 2; 3; 4; 5; 6] = map Some [C0; C1; C2; C3; C4; C5]
   /\ forall j, 7 <= j -> forward_multiplier j = Some CINFTY)
  /\ (exists w a',
        row_forward d s input_row n i a = Some w
        /\ solve_row d s input_row n i a = Some a'
        /\ (forall j c, 0 <= j < n -> 0 <= c < channels ->
              w_a w (i * (channels * n) + channels * j + c)
              = forward_entry j (scaled_sample d s input_row (channels * j + c))
                  (w_a w (i * (channels * n) + channels * (j - 1) + c)))
        /\ (forall c, 0 <= c < channels ->
              a' (i * (channels * n) + channels * (n - 1) + c)
              = fmul (w_a w (i * (channels * n) + channels * (n - 1) + c)) CLAST))
  /\ (exists a',
        solve_columns m n a = Some a'
        /\ (forall r q, 0 <= r < m -> 0 <= q < channels * n ->
              w_a (snd (col_forward m n a)) (r * (channels * n) + q)
              = forward_entry r (a (r * (channels * n) + q))
                  (w_a (snd (col_forward m n a)) ((r - 1) * (channels * n) + q)))
        /\ (forall q, 0 <= q < channels * n ->
              a' ((m - 1) * (channels * n) + q)
              = fmul (w_a (snd (col_forward m n a)) ((m - 1) * (channels * n) + q))
                     CLAST)).
Proof.
  intros Hm Hn. split; [|split].
  - split; [reflexivity|]. split; [reflexivity|].
    intros j Hj. unfold forward_multiplier.
    destruct (Z.leb_spec j 0); [lia|].
    destruct (Z.eqb_spec j 1); [lia|]. destruct (Z.eqb_spec j 2); [lia|].
    destruct (Z.eqb_spec j 3); [lia|]. destruct (Z.eqb_spec j 4); [lia|].
    destruct (Z.eqb_spec j 5); [lia|]. destruct (Z.eqb_spec j 6); [lia|].
    reflexivity.
  - destruct (row_forward_spec d s input_row n i a Hn)
      as (w & Hfwd & H1 & H2 & H3 & Hframe & Hval).
    destruct (row_backward_last n (i * (channels * n) + channels * n) w Hn H1)
      as (w' & Hback & Hlast).
    exists w, (w_a w'). split; [exact Hfwd|]. split.
    { unfold solve_row. rewrite Hfwd. cbn [bind]. rewrite Hback. reflexivity. }
    split.
    + intros j c Hj Hc. apply Hval; unfold channels in *; lia.
    + intros c Hc. specialize (Hlast c Hc).
      replace (i * (channels * n) + channels * (n - 1) + c)
        with (i * (channels * n) + channels * n - channels + c) by lia.
      exact Hlast.
  - destruct (col_forward_spec m n a Hm ltac:(lia)) as (Hi & H1 & H2 & Hframe & Hval).
    unfold solve_columns.
    destruct (Z.leb_spec (channels * n) 0) as [Hc|Hc]; [unfold channels in *; lia|].
    eexists. split; [reflexivity|]. split.
    + intros r q Hr Hq. destruct (Z.eq_dec r 0) as [->|Hne].
      * unfold forward_entry, forward_multiplier. cbn [Z.leb Z.compare].
        apply Hframe. lia.
      * apply Hval; lia.
    + intros q Hq.
      destruct (col_forward m n a) as [i' w] eqn:E. cbn [fst snd] in *. subst i'.
      apply col_backward_last; lia.
Qed.

(** What the shift of the interior columns does to a four-row window in
    the last fine row of an interior coarse row: the left, center and right
    taps of farbottom are those of the shifted bottom row. *)
Lemma shift_interior_last_row (a : Z -> float) (top middle bottom farbottom : window) :
  exists top' middle' bottom' farbottom',
    shift_interior InteriorLast a [top; middle; bottom; farbottom]
    = [top'; middle'; bottom'; farbottom']
    /\ a_left farbottom' = a_right bottom
    /\ a_center farbottom' = a_farright bottom
    /\ (forall c, a_right farbottom' c = a (a_next bottom + c))
    /\ (forall c, a_farright farbottom' c = a (a_next farbottom + c)).
Proof.
  cbn [shift_interior]. do 4 eexists. split; [reflexivity|].
  cbn [shift_farbottom_from_bottom shift_read a_left a_center a_right a_farright a_next].
  repeat split.
Qed.

End EngineClaims.

(** ** Concrete runs *)

#[local] Existing Instance IEEE.ops.

(** Side conditions on concrete dimensions and stream lengths. *)
Ltac concrete :=
  first
    [ reflexivity
    | unfold CInt.INT_MAX, channels, IEEE.constant_image, IEEE.truncated_image;
      rewrite ?repeat_length; lia ].

Lemma C9_output_rows_and_columns_witness :
  exists rows,
    scale_up Bits16 30 IEEE.zero_storage IEEE.constant_image 15 15 30 30 65535
    = Some (0, rows)
    /\ Z.of_nat (length rows) = 30
    /\ forall row, In row rows -> Z.of_nat (length row) = 30 * channels.
Proof.
  apply (C9_output_rows_and_columns Bits16 30%nat IEEE.zero_storage
           IEEE.constant_image 15 15 30 30 65535);
    concrete.
Defined.

(** C9 as the specification words it fails on valid dimensions whose
    products leave the range of [int].  For a 30000 x 30000 image the
    number [m * channels * n] of coefficients, which [scale_up] computes as
    an [int] for the size of [a] and for its row offsets, is 2700000000:
    the call has no defined result, on any stream.  And for an axis of
    50000 cells upsized to 60000 the last entry of the overlap map is
    145898: a pass of the column loop over such a row then runs on to fine
    column 145899, far past the 60000 columns of the row and of its buffer,
    and the row loops over such a column write at least 145899 rows where
    60000 are asked for. *)
Lemma C9_overflow_counterexample :
  (CInt.INT_MAX < 30000 * (channels * 30000)
   /\ forall (d : depth) (fuel : nat) (g : storage) (inputfile : list Z),
        scale_up d fuel g inputfile 30000 30000 30000 30000 (clamp_max d) = None)
  /\ exists last_overlapping_kk,
       last_overlapping_index (Z.to_nat 200000) (Z.to_nat 200000) 50000 60000
         (fun _ => 0) = Some last_overlapping_kk
       /\ (forall d kind a weights horizontal rows a_left0 buffer,
             exists jj ob,
               synthesize_row d kind a weights horizontal last_overlapping_kk
                              50000 60000 rows a_left0 buffer = (jj, ob)
               /\ 60000 < 145899 <= jj
               /\ output_row_p ob = channels * jj)
       /\ (forall d a horizontal vertical last_overlapping_jj n nn a_left0 output_row0,
             60000 < 145899
             <= Z.of_nat (length (outputfile
                  (synthesize d a horizontal vertical last_overlapping_jj
                              last_overlapping_kk 50000 n 60000 nn a_left0
                              output_row0)))).
Proof.
  split.
  - split; [unfold CInt.INT_MAX, channels; lia|].
    intros d fuel g inputfile. apply scale_up_overflow.
    unfold CInt.INT_MAX, channels. lia.
  - destruct overflowed_map_last_entry as (map' & Hrun & Hlast).
    exists map'. split; [exact Hrun|]. split.
    + intros d kind a weights horizontal rows a_left0 buffer.
      destruct (synthesize_row_any d kind a weights horizontal map' 50000 60000
                  rows a_left0 buffer) as (jj & ob & E & _ & _ & Hjj & Hp & _).
      exists jj, ob. split; [exact E|].
      specialize (Hjj ltac:(lia)). change (50000 - 2) with 49998 in Hjj.
      rewrite Hlast in Hjj. split; [lia|exact Hp].
    + intros d a horizontal vertical last_overlapping_jj n nn a_left0 output_row0.
      destruct (synthesize_any d a horizontal vertical last_overlapping_jj map'
                  50000 n 60000 nn a_left0 output_row0)
        as (ii & (_ & Hlen & _) & _ & Hii).
      change (50000 - 2) with 49998 in Hii. rewrite Hlast in Hii. lia.
Qed.

Lemma C8_elimination_multipliers_witness :
  (forward_multiplier 0 = None
   /\ map forward_multiplier [1; 2; 3; 4; 5; 6] = map Some [C0; C1; C2; C3; C4; C5]
   /\ forall j, 7 <= j -> forward_multiplier j = Some CINFTY)
  /\ (exists w a',
        row_forward Bits8 (IEEE.of_int 24 128 4) (fun _ => 100) 15 0 IEEE.ramp_grid
        = Some w
        /\ solve_row Bits8 (IEEE.of_int 24 128 4) (fun _ => 100) 15 0 IEEE.ramp_grid
           = Some a'
        /\ (forall j c, 0 <= j < 15 -> 0 <= c < channels ->
              w_a w (0 * (channels * 15) + channels * j + c)
              = forward_entry j
                  (scaled_sample Bits8 (IEEE.of_int 24 128 4) (fun _ => 100)
                                 (channels * j + c))
                  (w_a w (0 * (channels * 15) + channels * (j - 1) + c)))
        /\ (forall c, 0 <= c < channels ->
              a' (0 * (channels * 15) + channels * (15 - 1) + c)
              = fmul (w_a w (0 * (channels * 15) + channels * (15 - 1) + c)) CLAST))
  /\ (exists a',
        solve_columns 15 15 IEEE.ramp_grid = Some a'
        /\ (forall r q, 0 <= r < 15 -> 0 <= q < channels * 15 ->
              w_a (snd (col_forward 15 15 IEEE.ramp_grid)) (r * (channels * 15) + q)
              = forward_entry r (IEEE.ramp_grid (r * (channels * 15) + q))
                  (w_a (snd (col_forward 15 15 IEEE.ramp_grid))
                       ((r - 1) * (channels * 15) + q)))
        /\ (forall q, 0 <= q < channels * 15 ->
              a' ((15 - 1) * (channels * 15) + q)
              = fmul (w_a (snd (col_forward 15 15 IEEE.ramp_grid))
                          ((15 - 1) * (channels * 15) + q))
                     CLAST)).
Proof.
  apply (C8_elimination_multipliers (FO := IEEE.ops) Bits8 (IEEE.of_int 24 128 4)
           (fun _ => 100) 15 15 0 IEEE.ramp_grid); lia.
Defined.

(** C6 fails on the code when the stream breaks off inside the last row:
    with 674 of the 675 units of a 15 x 15 image every [fread] still yields
    units, so both engines return 0 and write all 15 rows. *)
Lemma C6_truncated_last_row_goes_unreported :
  Z.of_nat (length IEEE.truncated_image) < 15 * (channels * 15)
  /\ (exists rows,
        scale_up Bits16 15 IEEE.zero_storage IEEE.truncated_image 15 15 15 15 65535
        = Some (0, rows)
        /\ Z.of_nat (length rows) = 15)
  /\ (exists rows,
        scale_up Bits8 15 IEEE.zero_storage IEEE.truncated_image 15 15 15 15 255
        = Some (0, rows)
        /\ Z.of_nat (length rows) = 15).
Proof.
  split; [concrete|]. split.
  - destruct (scale_up_runs Bits16 15%nat IEEE.zero_storage IEEE.truncated_image
                15 15 15 15 65535) as (rows & Hrun & Hcount & _); try concrete.
    exists rows. split; assumption.
  - destruct (scale_up_runs Bits8 15%nat IEEE.zero_storage IEEE.truncated_image
                15 15 15 15 255) as (rows & Hrun & Hcount & _); try concrete.
    exists rows. split; assumption.
Qed.

(** What [scale_up] does with a short stream of whole units, for
    dimensions in the supported range (m, n >= 15, mm >= m, nn >= n, the
    products [m * mm], [n * nn] and [m * channels * n] within [int]): a
    stream that ends before the last row begins makes it return 1 with
    nothing written; a stream that reaches into the last row makes it
    return 0 with all [mm] rows written, the last row complete or not. *)
Theorem scale_up_on_short_input (d : depth) (fuel : nat) (g : storage)
    (inputfile : list Z) (m n mm nn maxval : Z) :
  15 <= m -> 15 <= n -> m <= mm -> n <= nn ->
  m * mm <= CInt.INT_MAX -> n * nn <= CInt.INT_MAX ->
  m * (channels * n) <= CInt.INT_MAX ->
  mm <= Z.of_nat fuel -> nn <= Z.of_nat fuel ->
  (Z.of_nat (length inputfile) <= (m - 1) * (channels * n) ->
   scale_up d fuel g inputfile m n mm nn maxval = Some (1, []))
  /\ ((m - 1) * (channels * n) < Z.of_nat (length inputfile) ->
      exists rows,
        scale_up d fuel g inputfile m n mm nn maxval = Some (0, rows)
        /\ Z.of_nat (length rows) = mm).
Proof.
  intros Hm Hn Hmm Hnn Hfm Hfn Hfa Hf1 Hf2. split.
  - intros Hlen.
    apply scale_up_exhausted; [lia|lia|lia|exact Hfa| |exact Hlen].
    unfold channels. nia.
  - intros Hlen.
    destruct (scale_up_runs d fuel g inputfile m n mm nn maxval)
      as (rows & Hrun & Hcount & _); try assumption.
    exists rows. split; assumption.
Qed.

Lemma scale_up_on_short_input_witness :
  scale_up Bits8 15 IEEE.zero_storage (repeat 100 630) 15 15 15 15 255 = Some (1, []).
Proof.
  apply (proj1 (scale_up_on_short_input Bits8 15%nat IEEE.zero_storage (repeat 100 630)
                  15 15 15 15 255
                  ltac:(lia) ltac:(lia) ltac:(lia) ltac:(lia)
                  ltac:(concrete) ltac:(concrete) ltac:(concrete)
                  ltac:(lia) ltac:(lia))).
  concrete.
Defined.

(** C7 fails on the code: in the four-row window of the last fine row of an
    interior coarse row the shift gives farbottom's left, center and right
    taps the entries 93, 96 and 99 of the grid, which belong to the bottom
    row, where the analogous shift gives them farbottom's own previous
    center, right and farright, the entries 135, 138 and 141. *)
Lemma C7_farbottom_taps_taken_from_bottom :
  exists top' middle' bottom' farbottom' expected,
    shift_interior InteriorLast IEEE.ramp_grid IEEE.ramp_windows
    = [top'; middle'; bottom'; farbottom']
    /\ nth_error (shift_interior_analogous IEEE.ramp_grid IEEE.ramp_windows) 3
       = Some expected
    /\ [a_left farbottom' 0; a_center farbottom' 0; a_right farbottom' 0]
       = map IEEE.ramp_grid [93; 96; 99]
    /\ [a_left expected 0; a_center expected 0; a_right expected 0]
       = map IEEE.ramp_grid [135; 138; 141]
    /\ a_farright farbottom' 0 = a_farright expected 0
    /\ a_left farbottom' 0 <> a_left expected 0
    /\ a_center farbottom' 0 <> a_center expected 0
    /\ a_right farbottom' 0 <> a_right expected 0.
Proof.
  do 5 eexists. split; [reflexivity|]. split; [reflexivity|].
  split; [reflexivity|]. split; [reflexivity|]. split; [reflexivity|].
  repeat split; vm_compute; discriminate.
Qed.

(** The eight multipliers are pairwise different numbers in binary32. *)
Lemma IEEE_multipliers_distinct :
  NoDup [C0; C1; C2; C3; C4; C5; CINFTY; CLAST].
Proof.
  vm_compute. repeat constructor; cbn [In]; intuition discriminate.
Qed.

(** The scenario of the specification: a 15 x 15 image with every sample
    100 and maxval 255, upsampled to 30 x 30 in binary32 and binary64
    arithmetic rounded to nearest, comes out with every sample 100. *)
Lemma constant_image_scenario :
  scale_up Bits8 30 IEEE.zero_storage IEEE.constant_image 15 15 30 30 255
  = Some (0, repeat (repeat 100 90) 30).
Proof. vm_compute. reflexivity. Qed.

(** The identity on one image: the 16-bit engine run on [varied_image] at
    its own size, in the same arithmetic, writes back the units it read. *)
Lemma varied_image_identity :
  option_map (fun r => (fst r, concat (snd r)))
    (scale_up Bits16 15 IEEE.zero_storage IEEE.varied_image 15 15 15 15 65535)
  = Some (0, IEEE.varied_image).
Proof. vm_compute. reflexivity. Qed.

(** * Further properties of the code *)

(** ** OverlapMapper: closed form, spacing, bounds and edge cases *)

(** The entry of coarse cell [k] is [((k+1)*oo - 1) / o] in integer
    arithmetic.  The comment at the head of the function gives
    [((k+1)*oo) / o - 1]: that is the entry when [o] divides [(k+1)*oo], and
    one less than the entry otherwise. *)
Theorem last_overlapping_index_closed_form (o oo : Z) (map : Z -> Z) :
  2 <= o < oo -> o * oo <= CInt.INT_MAX ->
  exists map',
    lo_run o oo map = Some map'
    /\ forall k, 0 <= k <= o - 2 ->
         map' k = ((k + 1) * oo - 1) / o
         /\ (((k + 1) * oo) mod o = 0 -> map' k = (k + 1) * oo / o - 1)
         /\ (((k + 1) * oo) mod o <> 0 -> map' k = (k + 1) * oo / o).
Proof.
  intros Ho Hfit.
  destruct (lo_run_upsize o oo map Ho Hfit) as (map' & Hrun & _ & Hval).
  exists map'. split; [exact Hrun|].
  intros k Hk. specialize (Hval k Hk).
  assert (H1 : map' k = ((k + 1) * oo - 1) / o).
  { apply Z.div_unique with (r := (k + 1) * oo - 1 - o * map' k); lia. }
  split; [exact H1|]. split.
  - intros Hdiv. rewrite H1.
    pose proof (Z.div_mod ((k + 1) * oo) o ltac:(lia)) as Hdm. rewrite Hdiv in Hdm.
    symmetry. apply Z.div_unique with (r := o - 1); nia.
  - intros Hndiv. rewrite H1.
    pose proof (Z.div_mod ((k + 1) * oo) o ltac:(lia)) as Hdm.
    pose proof (Z.mod_pos_bound ((k + 1) * oo) o ltac:(lia)) as Hb.
    symmetry. apply Z.div_unique with (r := ((k + 1) * oo) mod o - 1); nia.
Qed.

Lemma last_overlapping_index_closed_form_witness :
  exists map',
    lo_run 15 22 (fun _ => 0) = Some map'
    /\ forall k, 0 <= k <= 15 - 2 ->
         map' k = ((k + 1) * 22 - 1) / 15
         /\ (((k + 1) * 22) mod 15 = 0 -> map' k = (k + 1) * 22 / 15 - 1)
         /\ (((k + 1) * 22) mod 15 <> 0 -> map' k = (k + 1) * 22 / 15).
Proof.
  apply (last_overlapping_index_closed_form 15 22 (fun _ => 0));
    unfold CInt.INT_MAX; lia.
Defined.

(** When upsizing with the product [o * oo] within [int], consecutive
    entries are spaced by the magnification rounded down or up: no coarse
    cell is assigned fewer than [oo / o] fine cells or more than one above
    that; the first coarse cell ends at fine cell [(oo - 1) / o]. *)
Theorem last_overlapping_index_spacing (o oo : Z) (map : Z -> Z) :
  2 <= o < oo -> o * oo <= CInt.INT_MAX ->
  exists map',
    lo_run o oo map = Some map'
    /\ map' 0 = (oo - 1) / o
    /\ forall k, 0 <= k < o - 2 ->
         oo / o <= map' (k + 1) - map' k <= (oo + o - 1) / o.
Proof.
  intros Ho Hfit.
  destruct (lo_run_upsize o oo map Ho Hfit) as (map' & Hrun & _ & Hval).
  exists map'. split; [exact Hrun|]. split.
  - pose proof (Hval 0 ltac:(lia)) as H0.
    apply Z.div_unique with (r := oo - 1 - o * map' 0); lia.
  - intros k Hk.
    pose proof (Hval k ltac:(lia)) as H1. pose proof (Hval (k + 1) ltac:(lia)) as H2.
    pose proof (Z.div_mod oo o ltac:(lia)) as Hdm.
    pose proof (Z.mod_pos_bound oo o ltac:(lia)) as Hb.
    pose proof (Z.div_mod (oo + o - 1) o ltac:(lia)) as Hdm'.
    pose proof (Z.mod_pos_bound (oo + o - 1) o ltac:(lia)) as Hb'.
    split; nia.
Qed.

Lemma last_overlapping_index_spacing_witness :
  exists map',
    lo_run 15 22 (fun _ => 0) = Some map'
    /\ map' 0 = (22 - 1) / 15
    /\ forall k, 0 <= k < 15 - 2 ->
         22 / 15 <= map' (k + 1) - map' k <= (22 + 15 - 1) / 15.
Proof.
  apply (last_overlapping_index_spacing 15 22 (fun _ => 0));
    unfold CInt.INT_MAX; lia.
Defined.

(** The function writes the [o - 1] entries [0 .. o-2] of its array and no
    other; and whenever [oo <= o], also for a requested downsizing, what it
    writes is the identity map. *)
Theorem last_overlapping_index_footprint (o oo : Z) (map : Z -> Z) :
  2 <= o <= CInt.INT_MAX -> o * oo <= CInt.INT_MAX ->
  exists map',
    lo_run o oo map = Some map'
    /\ (forall j, j < 0 \/ o - 1 <= j -> map' j = map j)
    /\ (oo <= o -> forall k, 0 <= k <= o - 2 -> map' k = k).
Proof.
  intros Ho Hfit. destruct (Z_lt_le_dec o oo) as [Hlt|Hle].
  - destruct (lo_run_upsize o oo map) as (map' & Hrun & Hframe & _); try lia.
    exists map'. split; [exact Hrun|]. split; [exact Hframe|lia].
  - destruct (lo_run_same o oo map) as (map' & Hrun & Hframe & Hval); try lia.
    exists map'. split; [exact Hrun|]. split; [exact Hframe|].
    intros _. exact Hval.
Qed.

Lemma last_overlapping_index_footprint_witness :
  exists map',
    lo_run 15 10 (fun _ => 7) = Some map'
    /\ (forall j, j < 0 \/ 15 - 1 <= j -> map' j = 7)
    /\ (10 <= 15 -> forall k, 0 <= k <= 15 - 2 -> map' k = k).
Proof.
  apply (last_overlapping_index_footprint 15 10 (fun _ => 7));
    unfold CInt.INT_MAX; lia.
Defined.

(** With a single coarse cell the map has no entry, yet both [do ... while]
    loops run once and write entry 0: [oo - 1] when upsizing, 0 otherwise. *)
Theorem last_overlapping_index_single_cell (oo : Z) (map : Z -> Z) :
  oo <= CInt.INT_MAX ->
  exists map',
    last_overlapping_index 1 (Z.to_nat oo) 1 oo map = Some map'
    /\ map' 0 = (if oo >? 1 then oo - 1 else 0)
    /\ forall j, j <> 0 -> map' j = map j.
Proof.
  intros Hoo. unfold last_overlapping_index.
  change (CInt.sub 1 1) with 0.
  destruct (Z.gtb_spec oo 1) as [Hgt|Hle].
  - destruct (lo_upsize_spec 1 oo ltac:(lia) ltac:(lia) 1%nat (Z.to_nat oo) 0 0 map)
      as (map' & Hrun & Hframe & Hval); try lia.
    change (1 - 1) with 0 in Hrun. replace ((0 + 1) * oo) with oo in Hrun by ring.
    change ((0 + 1) * 1) with 1 in Hrun.
    exists map'. split; [exact Hrun|]. split.
    + specialize (Hval 0 ltac:(lia)). lia.
    + intros j Hj. apply Hframe. lia.
  - cbn [lo_same]. change (CInt.add 0 1) with 1. cbn [Z.ltb Z.compare].
    eexists. split; [reflexivity|]. split.
    + apply upd_same.
    + intros j Hj. apply upd_other. exact Hj.
Qed.

Lemma last_overlapping_index_single_cell_witness :
  exists map',
    last_overlapping_index 1 (Z.to_nat 4) 1 4 (fun _ => 9) = Some map'
    /\ map' 0 = (if 4 >? 1 then 4 - 1 else 0)
    /\ forall j, j <> 0 -> map' j = 9.
Proof.
  apply (last_overlapping_index_single_cell 4 (fun _ => 9)).
  unfold CInt.INT_MAX. lia.
Defined.

(** ** ControlCoefficientSolver: the back substitution and the footprint *)

Section BackSubstitution.

Context {FO : FloatOps}.
Variable d : depth.

Lemma backward_multiplier_tail (j : Z) : 6 <= j -> backward_multiplier j = CINFTY.
Proof.
  intros Hj. unfold backward_multiplier.
  destruct (Z.leb_spec j 0); [lia|].
  destruct (Z.eqb_spec j 1); [lia|]. destruct (Z.eqb_spec j 2); [lia|].
  destruct (Z.eqb_spec j 3); [lia|]. destruct (Z.eqb_spec j 4); [lia|].
  destruct (Z.eqb_spec j 5); [lia|]. reflexivity.
Qed.

(** A block of the back substitution along a row: each entry becomes its
    old value minus the new value three places on, times [C]. *)
Lemma row_backward_values (C : float) (k : Z) (w : walk) :
  0 <= k -> w_a2 w = w_a1 w + 3 ->
  let w' := repeat_n k (row_backward_step C) w in
  w_a1 w' = w_a1 w - k /\ w_a2 w' = w_a2 w - k
  /\ (forall q, q <= w_a1 w - k \/ w_a1 w < q -> w_a w' q = w_a w q)
  /\ (forall t, 0 <= t < k ->
        w_a w' (w_a1 w - t)
        = fmul (fsub (w_a w (w_a1 w - t)) (w_a w' (w_a1 w - t + 3))) C).
Proof.
  intros Hk Hlag.
  apply (repeat_n_invariant
           (fun k w' =>
              w_a1 w' = w_a1 w - k /\ w_a2 w' = w_a2 w - k
              /\ (forall q, q <= w_a1 w - k \/ w_a1 w < q -> w_a w' q = w_a w q)
              /\ (forall t, 0 <= t < k ->
                    w_a w' (w_a1 w - t)
                    = fmul (fsub (w_a w (w_a1 w - t)) (w_a w' (w_a1 w - t + 3))) C)));
    [exact Hk| |].
  - repeat split; intros; first [lia | reflexivity].
  - intros t u Ht (H1 & H2 & Hframe & Hval).
    unfold row_backward_step. cbn [w_a w_a1 w_a2 w_in]. rewrite H1, H2.
    split; [lia|]. split; [lia|]. split.
    + intros q Hq. rewrite upd_other by lia. apply Hframe. lia.
    + intros t' Ht'. destruct (Z.eq_dec t' t) as [->|Hne].
      * rewrite upd_same. rewrite upd_other by lia.
        rewrite (Hframe (w_a1 w - t)) by lia.
        replace (w_a2 w - t) with (w_a1 w - t + 3) by lia. reflexivity.
      * rewrite !upd_other by lia. apply Hval. lia.
Qed.

(** Blocks with the multiplier of the pixels [J0 .. J] extend the back
    substitution along a row from pixel [J + 1] down to pixel [J0]. *)
Lemma row_backward_extend (f : Z -> float) (base n : Z) (C : float) (J0 J : Z)
    (w : walk) :
  0 <= J0 <= J + 1 -> J + 1 <= n - 1 ->
  (forall j, J0 <= j <= J -> backward_multiplier j = C) ->
  w_a1 w = base + 3 * (J + 1) - 1 -> w_a2 w = w_a1 w + 3 ->
  backward_done f base 3 n (J + 1) (w_a w) ->
  let w' := repeat_n (3 * (J + 1 - J0)) (row_backward_step C) w in
  w_a1 w' = base + 3 * J0 - 1 /\ w_a2 w' = w_a1 w' + 3
  /\ backward_done f base 3 n J0 (w_a w').
Proof.
  intros HJ Hn HC H1 H2 (Dframe & Dval & Dlast).
  destruct (row_backward_values C (3 * (J + 1 - J0)) w ltac:(lia) H2)
    as (B1 & B2 & Bframe & Bval).
  cbv zeta. split; [lia|]. split; [lia|]. split; [|split].
  - intros q Hq. rewrite Bframe by lia. apply Dframe. lia.
  - intros j c Hj Hc. destruct (Z_le_gt_dec j J) as [Hin|Hout].
    + replace (base + 3 * j + c) with (w_a1 w - (3 * (J + 1) - 1 - 3 * j - c)) by lia.
      rewrite Bval by lia.
      replace (w_a1 w - (3 * (J + 1) - 1 - 3 * j - c)) with (base + 3 * j + c) by lia.
      rewrite (Dframe (base + 3 * j + c)) by lia.
      replace (base + 3 * j + c + 3) with (base + 3 * (j + 1) + c) by lia.
      rewrite (HC j) by lia. reflexivity.
    + rewrite !Bframe by lia. apply Dval; lia.
  - intros c Hc. rewrite Bframe by lia. apply Dlast. exact Hc.
Qed.

(** The back substitution along a row, in full. *)
Lemma row_backward_spec (n base : Z) (w : walk) :
  7 <= n -> w_a1 w = base + 3 * n -> w_a2 w = base + 3 * n - 3 ->
  exists w',
    row_backward n w = Some w'
    /\ backward_done (w_a w) base 3 n 0 (w_a w').
Proof.
  intros Hn Htop Hlag. unfold row_backward, while_count, channels.
  destruct (Z.ltb_spec ((n - 7) * 3) 0) as [Hc|Hc]; [lia|]. cbn [bind].
  eexists. split; [reflexivity|].
  set (w1 := move (-1) 0 w).
  destruct (row_last_block 3 w1 ltac:(lia)) as (L1 & Lframe & Lval).
  assert (H2 : w_a2 (repeat_n 3 row_last w1) = w_a2 w).
  { apply (repeat_n_invariant (fun _ u => w_a2 u = w_a2 w)); [lia| |].
    - subst w1. cbn [move w_a2]. lia.
    - intros k u _ Hu. exact Hu. }
  set (w2 := repeat_n 3 row_last w1) in *.
  assert (Hw1 : w_a1 w1 = base + 3 * n - 1) by (subst w1; cbn [move w_a1]; lia).
  set (w3 := move 0 (3 - 1) w2).
  assert (P : w_a1 w3 = base + 3 * (n - 2 + 1) - 1 /\ w_a2 w3 = w_a1 w3 + 3
              /\ backward_done (w_a w) base 3 n (n - 2 + 1) (w_a w3)).
  { subst w3. cbn [move w_a w_a1 w_a2].
    split; [lia|]. split; [lia|]. split; [|split].
    - intros q Hq. rewrite Lframe by lia. reflexivity.
    - intros j c Hj Hc'. lia.
    - intros c Hc'.
      replace (base + 3 * (n - 1) + c) with (w_a1 w1 - (2 - c)) by lia.
      rewrite Lval by lia. reflexivity. }
  clearbody w3. destruct P as (P1 & P2 & P3).
  destruct (row_backward_extend (w_a w) base n CINFTY 6 (n - 2) w3)
    as (Q1 & Q2 & Q3); try lia; try assumption.
  { intros j Hj. apply backward_multiplier_tail. lia. }
  replace (3 * (n - 2 + 1 - 6)) with ((n - 7) * 3) in * by lia.
  set (w4 := repeat_n ((n - 7) * 3) (row_backward_step CINFTY) w3) in *.
  clearbody w4. clear P1 P2 P3.
  assert (Hone : forall C J u,
             0 <= J <= 5 -> backward_multiplier J = C ->
             w_a1 u = base + 3 * (J + 1) - 1 /\ w_a2 u = w_a1 u + 3
             /\ backward_done (w_a w) base 3 n (J + 1) (w_a u) ->
             w_a1 (repeat_n 3 (row_backward_step C) u) = base + 3 * J - 1
             /\ w_a2 (repeat_n 3 (row_backward_step C) u)
                = w_a1 (repeat_n 3 (row_backward_step C) u) + 3
             /\ backward_done (w_a w) base 3 n J (w_a (repeat_n 3 (row_backward_step C) u))).
  { intros C J u HJ HC (U1 & U2 & U3).
    pose proof (row_backward_extend (w_a w) base n C J J u) as E.
    replace (3 * (J + 1 - J)) with 3 in E by lia.
    apply E; try lia; try assumption.
    intros j Hj. assert (j = J) as -> by lia. exact HC. }
  pose proof (conj Q1 (conj Q2 Q3)) as P.
  apply (Hone C5 5) in P; [|lia|reflexivity].
  apply (Hone C4 4) in P; [|lia|reflexivity].
  apply (Hone C3 3) in P; [|lia|reflexivity].
  apply (Hone C2 2) in P; [|lia|reflexivity].
  apply (Hone C1 1) in P; [|lia|reflexivity].
  apply (Hone C0 0) in P; [|lia|reflexivity].
  exact (proj2 (proj2 P)).
Qed.

(** A block of the back substitution up the columns: each entry of the row
    becomes its old value minus the entry one row below, times [C]. *)
Lemma col_backward_values (C : float) (width : Z) (w : walk) :
  0 <= width -> w_a2 w = w_a1 w + width ->
  let w' := repeat_n width (col_backward_step C) w in
  w_a1 w' = w_a1 w + width /\ w_a2 w' = w_a2 w + width
  /\ (forall q, q < w_a1 w \/ w_a1 w + width <= q -> w_a w' q = w_a w q)
  /\ (forall t, 0 <= t < width ->
        w_a w' (w_a1 w + t)
        = fmul (fsub (w_a w (w_a1 w + t)) (w_a w (w_a1 w + t + width))) C).
Proof.
  intros Hk Hlag.
  apply (repeat_n_invariant
           (fun k w' =>
              w_a1 w' = w_a1 w + k /\ w_a2 w' = w_a2 w + k
              /\ (forall q, q < w_a1 w \/ w_a1 w + k <= q -> w_a w' q = w_a w q)
              /\ (forall t, 0 <= t < k ->
                    w_a w' (w_a1 w + t)
                    = fmul (fsub (w_a w (w_a1 w + t)) (w_a w (w_a1 w + t + width))) C)));
    [exact Hk| |].
  - repeat split; intros; first [lia | reflexivity].
  - intros t u Ht (H1 & H2 & Hframe & Hval).
    unfold col_backward_step. cbn [w_a w_a1 w_a2 w_in]. rewrite H1, H2.
    split; [lia|]. split; [lia|]. split.
    + intros q Hq. rewrite upd_other by lia. apply Hframe. lia.
    + intros t' Ht'. destruct (Z.eq_dec t' t) as [->|Hne].
      * rewrite upd_same. rewrite !Hframe by lia.
        replace (w_a2 w + t) with (w_a1 w + t + width) by lia. reflexivity.
      * rewrite !upd_other by lia. apply Hval. lia.
Qed.

(** One block extends the back substitution up the columns from row
    [R + 1] to row [R]. *)
Lemma col_backward_extend (f : Z -> float) (width m : Z) (C : float) (R : Z)
    (u : walk) :
  0 < width -> 0 <= R -> R + 1 <= m - 1 -> backward_multiplier R = C ->
  w_a1 u = R * width -> w_a2 u = (R + 1) * width ->
  backward_done f 0 width m (R + 1) (w_a u) ->
  let u' := repeat_n width (col_backward_step C) u in
  w_a1 u' = (R + 1) * width /\ w_a2 u' = (R + 2) * width
  /\ backward_done f 0 width m R (w_a u').
Proof.
  intros Hw HR Hm HC H1 H2 (Dframe & Dval & Dlast).
  destruct (col_backward_values C width u ltac:(lia) ltac:(lia))
    as (B1 & B2 & Bframe & Bval).
  cbv zeta. split; [lia|]. split; [lia|]. split; [|split].
  - intros q Hq. rewrite Bframe by nia. apply Dframe. nia.
  - intros j c Hj Hc. destruct (Z.eq_dec j R) as [->|Hne].
    + replace (0 + width * R + c) with (w_a1 u + c) by lia.
      rewrite Bval by lia.
      replace (0 + width * (R + 1) + c) with (w_a1 u + c + width) by lia.
      rewrite (Bframe (w_a1 u + c + width)) by lia.
      rewrite (Dframe (w_a1 u + c)) by lia.
      rewrite HC. reflexivity.
    + rewrite !Bframe by nia. apply Dval; lia.
  - intros c Hc. rewrite Bframe by nia. apply Dlast. exact Hc.
Qed.

(** The back substitution up the columns, in full. *)
Lemma col_backward_spec (m n : Z) (w : walk) :
  7 <= m -> 1 <= n ->
  w_a1 w = m * (channels * n) -> w_a2 w = (m - 1) * (channels * n) ->
  backward_done (w_a w) 0 (channels * n) m 0 (w_a (col_backward n (m, w))).
Proof.
  intros Hm Hn Htop Hlag. unfold col_backward.
  set (width := channels * n) in *.
  assert (Hw : 0 < width) by (subst width; unfold channels; lia).
  set (w1 := move (- width) 0 w).
  destruct (col_last_block width w1 ltac:(lia)) as (L1 & L2 & Lframe & Lval).
  assert (Hw1 : w_a1 w1 = (m - 1) * width) by (subst w1; cbn [move w_a1]; lia).
  assert (Hw2 : w_a2 w1 = (m - 1) * width) by (subst w1; cbn [move w_a2]; lia).
  set (w2 := repeat_n width col_last w1) in *.
  set (K := fun (R : Z) (u : walk) =>
              w_a1 u = (R - 1) * width /\ w_a2 u = R * width
              /\ backward_done (w_a w) 0 width m R (w_a u)).
  assert (Hblock : forall C R u,
             1 <= R - 1 -> R <= m - 1 -> backward_multiplier (R - 1) = C -> K R u ->
             K (R - 1) (move (- (width + width)) (- (width + width))
                          (repeat_n width (col_backward_step C) u))).
  { intros C R u HR1 HR2 HC (U1 & U2 & U3).
    destruct (col_backward_extend (w_a w) width m C (R - 1) u)
      as (E1 & E2 & E3); try lia; try assumption.
    { replace (R - 1 + 1) with R by lia. exact U3. }
    unfold K. cbn [move w_a w_a1 w_a2]. split; [lia|]. split; [lia|]. exact E3. }
  assert (H3 : K (m - 1) (move (- (width + width)) 0 w2)).
  { unfold K. cbn [move w_a w_a1 w_a2]. split; [lia|]. split; [lia|].
    split; [|split].
    - intros q Hq. rewrite Lframe by nia. reflexivity.
    - intros j c Hj Hc. lia.
    - intros c Hc. replace (0 + width * (m - 1) + c) with (w_a1 w1 + c) by lia.
      rewrite Lval by lia. reflexivity. }
  replace (m - 1) with (m - 1 - 0) in H3 at 1 by lia.
  apply (repeat_n_invariant (fun k u => K (m - 1 - k) u)
           (fun u => move (- (width + width)) (- (width + width))
                       (repeat_n width (col_backward_step CINFTY) u))
           (m - 1 - 1 - 5)) in H3; [|lia|].
  2:{ intros k t Hk Ht. replace (m - 1 - (k + 1)) with (m - 1 - k - 1) by lia.
      apply Hblock; [lia|lia| |exact Ht]. apply backward_multiplier_tail. lia. }
  replace (m - 1 - (m - 1 - 1 - 5)) with 6 in H3 by lia.
  apply (Hblock C5 6) in H3; [|lia|lia|reflexivity].
  apply (Hblock C4 5) in H3; [|lia|lia|reflexivity].
  apply (Hblock C3 4) in H3; [|lia|lia|reflexivity].
  apply (Hblock C2 3) in H3; [|lia|lia|reflexivity].
  apply (Hblock C1 2) in H3; [|lia|lia|reflexivity].
  destruct H3 as (U1 & U2 & U3).
  match goal with
  | |- backward_done _ _ _ _ _ (w_a (repeat_n width (col_backward_step C0) ?u)) =>
      destruct (col_backward_extend (w_a w) width m C0 0 u) as (_ & _ & E3);
        try lia; try assumption; try reflexivity
  end.
Qed.

End BackSubstitution.

Section SolverProperties.

Context {FO : FloatOps}.
Variable d : depth.

(** The pass along row [i] changes the [channels * n] coefficients of that
    row and nothing else, and its back substitution follows the schedule of
    [backward_multiplier]: pixel [j] below the last becomes its value after
    the forward substitution minus the final value of pixel [j + 1], times
    [C0] .. [C5] for [j] = 0 .. 5 and [CINFTY] beyond. *)
Theorem solve_row_back_substitution (s : float) (input_row : Z -> Z) (n i : Z)
    (a : Z -> float) :
  7 <= n ->
  exists w a',
    row_forward d s input_row n i a = Some w
    /\ solve_row d s input_row n i a = Some a'
    /\ (forall q, q < i * (channels * n) \/ (i + 1) * (channels * n) <= q ->
          a' q = a q)
    /\ (forall j c, 0 <= j < n - 1 -> 0 <= c < channels ->
          a' (i * (channels * n) + channels * j + c)
          = fmul (fsub (w_a w (i * (channels * n) + channels * j + c))
                       (a' (i * (channels * n) + channels * (j + 1) + c)))
                 (backward_multiplier j)).
Proof.
  intros Hn.
  destruct (row_forward_spec d s input_row n i a Hn)
    as (w & Hfwd & H1 & H2 & H3 & Hframe & Hval).
  unfold channels in *.
  destruct (row_backward_spec n (i * (3 * n)) w Hn ltac:(lia) ltac:(lia))
    as (w' & Hback & Dframe & Dval & Dlast).
  exists w, (w_a w'). split; [exact Hfwd|]. split.
  { unfold solve_row. rewrite Hfwd. cbn [bind]. rewrite Hback. reflexivity. }
  split.
  - intros q Hq. rewrite Dframe by lia. apply Hframe. lia.
  - intros j c Hj Hc. apply Dval; lia.
Qed.

(** The pass down the columns changes the first [m] rows of [channels * n]
    coefficients and nothing else, and its back substitution follows the
    same schedule:
    row [r] below the last becomes its value after the forward substitution
    minus the final value of row [r + 1], times [backward_multiplier r]. *)
Theorem solve_columns_back_substitution (m n : Z) (a : Z -> float) :
  7 <= m -> 1 <= n ->
  exists a',
    solve_columns m n a = Some a'
    /\ (forall q, q < 0 \/ m * (channels * n) <= q -> a' q = a q)
    /\ (forall r q, 0 <= r < m - 1 -> 0 <= q < channels * n ->
          a' (r * (channels * n) + q)
          = fmul (fsub (w_a (snd (col_forward m n a)) (r * (channels * n) + q))
                       (a' ((r + 1) * (channels * n) + q)))
                 (backward_multiplier r)).
Proof.
  intros Hm Hn.
  destruct (col_forward_spec m n a Hm Hn) as (Hi & H1 & H2 & Hframe & Hval).
  unfold solve_columns.
  destruct (Z.leb_spec (channels * n) 0) as [Hc|Hc]; [unfold channels in *; lia|].
  eexists. split; [reflexivity|].
  destruct (col_forward m n a) as [i' w] eqn:E. cbn [fst snd] in *. subst i'.
  destruct (col_backward_spec m n w Hm Hn H1 H2) as (Dframe & Dval & Dlast).
  split.
  - intros q Hq. rewrite Dframe by lia. apply Hframe. nia.
  - intros r q Hr Hq.
    replace (r * (channels * n) + q) with (0 + channels * n * r + q) by lia.
    replace ((r + 1) * (channels * n) + q) with (0 + channels * n * (r + 1) + q) by lia.
    apply Dval; lia.
Qed.

End SolverProperties.

(** ** TensorSynthesizer: the sliding windows against direct indexing *)

Section DirectIndexing.

Context {FO : FloatOps}.
Variable d : depth.

Lemma overlap_ok_monotone (o oo : Z) (map : Z -> Z) :
  overlap_ok o oo map ->
  forall k k', 0 <= k -> k <= k' -> k' <= o - 2 -> map k <= map k'.
Proof.
  intros (_ & Hinc & _) k k' Hk Hkk'.
  replace k' with (k + (k' - k)) by lia.
  assert (Hd : 0 <= k' - k) by lia. revert Hd. generalize (k' - k). intros e He.
  pattern e. apply natlike_ind; [| |exact He].
  - intros _. replace (k + 0) with k by lia. lia.
  - intros y Hy IH Hy'. unfold Z.succ in *.
    specialize (Hinc (k + y)). replace (k + (y + 1)) with (k + y + 1) by lia. lia.
Qed.

Lemma coarse_column_from_spec (lo : Z -> Z) (jj j : Z) :
  forall (trips : nat) (j0 : Z),
    j0 <= j -> j - j0 <= Z.of_nat trips ->
    (forall k, j0 <= k < j -> lo k < jj) ->
    (j - j0 < Z.of_nat trips -> jj <= lo j) ->
    coarse_column_from trips lo j0 jj = j.
Proof.
  induction trips as [|trips IH]; intros j0 Hle Hfuel Hbelow Hat.
  - cbn [coarse_column_from]. lia.
  - cbn [coarse_column_from]. destruct (Z.leb_spec jj (lo j0)) as [Hin|Hout].
    + destruct (Z.eq_dec j0 j) as [E|E]; [exact E|]. specialize (Hbelow j0). lia.
    + assert (j0 <> j) by (intros ->; lia).
      apply IH; try lia.
      intros k Hk. apply Hbelow. lia.
Qed.

(** The fine columns after the last one of coarse column [j - 1], up to the
    last one of coarse column [j], belong to coarse column [j]. *)
Lemma coarse_column_spec (n nn : Z) (lo : Z -> Z) (j jj : Z) :
  overlap_ok n nn lo -> 0 <= j <= n - 1 ->
  (1 <= j -> lo (j - 1) < jj) -> (j <= n - 2 -> jj <= lo j) ->
  coarse_column lo n jj = j.
Proof.
  intros Hok Hj Hlow Hhigh. unfold coarse_column.
  apply coarse_column_from_spec; try lia.
  intros k Hk. pose proof (overlap_ok_monotone n nn lo Hok k (j - 1)). lia.
Qed.

Lemma Forall2_map_both {A B C D : Type} (R : C -> D -> Prop) (f : A -> C) (g : B -> D)
    (l : list A) (l' : list B) :
  Forall2 (fun x y => R (f x) (g y)) l l' -> Forall2 R (map f l) (map g l').
Proof. induction 1; cbn [map]; constructor; assumption. Qed.

Lemma Forall2_of_map_r {A B D : Type} (R : A -> D -> Prop) (g : B -> D)
    (l : list A) (l' : list B) :
  Forall2 R l (map g l') -> Forall2 (fun x y => R x (g y)) l l'.
Proof.
  revert l. induction l' as [|y l' IH]; intros l H; cbn [map] in H.
  - inversion H. constructor.
  - inversion H as [|x z l0 l1 Hxy Hrest]; subst. constructor; [exact Hxy|].
    apply IH. exact Hrest.
Qed.

(** The weighted sum over the rows of a window depends on the windows
    through the tap it reads only. *)
Lemma tap_sum_agree (weights : list float) (wins wins' : list window)
    (tap : window -> Z -> float) (c : Z) :
  Forall2 (fun w w' => tap w c = tap w' c) wins wins' ->
  tap_sum weights wins tap c = tap_sum weights wins' tap c.
Proof.
  intros H. unfold tap_sum.
  assert (Hc : Forall2 (fun wt wt' => fst wt = fst wt' /\ tap (snd wt) c = tap (snd wt') c)
                 (combine weights wins) (combine weights wins')).
  { revert weights. induction H as [|w w' l l' Hw Hl IH]; intros weights.
    - destruct weights; constructor.
    - destruct weights as [|x weights]; cbn [combine]; [constructor|].
      constructor; [split; [reflexivity|exact Hw]|apply IH]. }
  destruct Hc as [|[x w] [x' w'] rest rest' [Hx Hw] Hrest]; [reflexivity|].
  cbn [fst snd] in *. subst x'. rewrite Hw. generalize (fmul x (tap w' c)).
  induction Hrest as [|[y u] [y' u'] r r' [Hy Hu] Hr IH]; intros acc; [reflexivity|].
  cbn [fold_left fst snd] in *. subst y'. rewrite Hu. apply IH.
Qed.

Lemma Forall2_same {A : Type} (R : A -> A -> Prop) (l : list A) :
  (forall x, R x x) -> Forall2 R l l.
Proof. intros H. induction l; constructor; auto. Qed.

Lemma tap_sum_left (weights : list float) (wins wins' : list window)
    (C R F N : bool) (c : Z) :
  Forall2 (taps_agree true C R F N) wins wins' ->
  tap_sum weights wins a_left c = tap_sum weights wins' a_left c.
Proof.
  intros H. apply tap_sum_agree. eapply Forall2_impl; [|exact H].
  intros w w' (H1 & _). apply H1. reflexivity.
Qed.

Lemma tap_sum_center (weights : list float) (wins wins' : list window)
    (L R F N : bool) (c : Z) :
  Forall2 (taps_agree L true R F N) wins wins' ->
  tap_sum weights wins a_center c = tap_sum weights wins' a_center c.
Proof.
  intros H. apply tap_sum_agree. eapply Forall2_impl; [|exact H].
  intros w w' (_ & H1 & _). apply H1. reflexivity.
Qed.

Lemma tap_sum_right (weights : list float) (wins wins' : list window)
    (L C F N : bool) (c : Z) :
  Forall2 (taps_agree L C true F N) wins wins' ->
  tap_sum weights wins a_right c = tap_sum weights wins' a_right c.
Proof.
  intros H. apply tap_sum_agree. eapply Forall2_impl; [|exact H].
  intros w w' (_ & _ & H1 & _). apply H1. reflexivity.
Qed.

Lemma tap_sum_farright (weights : list float) (wins wins' : list window)
    (L C R N : bool) (c : Z) :
  Forall2 (taps_agree L C R true N) wins wins' ->
  tap_sum weights wins a_farright c = tap_sum weights wins' a_farright c.
Proof.
  intros H. apply tap_sum_agree. eapply Forall2_impl; [|exact H].
  intros w w' (_ & _ & _ & H1 & _). apply H1. reflexivity.
Qed.

(** Either the loop is the one of the last fine row of an interior coarse
    row, with its four rows, or every window is shifted and read alike. *)
Lemma kind_cases (kind : row_kind) (rows : list Z) :
  (exists top middle bottom farbottom,
      kind = InteriorLast /\ rows = [top; middle; bottom; farbottom])
  \/ ((forall a n j,
          direct_windows kind a rows n j = map (fun p => tap_window a p j) rows)
      /\ (forall a wins, length wins = length rows ->
            shift_interior kind a wins = map (shift_read a) wins)).
Proof.
  destruct kind; try (right; split; [reflexivity|]; intros a wins _; reflexivity).
  destruct rows as [|t [|m [|b [|fb [|x rest]]]]];
    try (right; split; [reflexivity|];
         intros a [|wt [|wm [|wb [|wf [|wx wins]]]]] Hlen;
         cbn [length] in Hlen; first [discriminate Hlen | reflexivity]).
  left. exists t, m, b, fb. split; reflexivity.
Qed.

Lemma load_agree (a a_left0 : Z -> float) (p : Z) :
  taps_agree false true true true true (load a a_left0 p) (tap_window a p 0).
Proof.
  unfold taps_agree, load, tap_window, channels. cbn [a_left a_center a_right a_farright a_next].
  repeat split; intros; first [discriminate | f_equal; lia | lia].
Qed.

Lemma shift_read_agree (a : Z -> float) (w : window) (p j : Z) (L : bool) :
  taps_agree L true true true true w (tap_window a p j) ->
  taps_agree true true true true true (shift_read a w) (tap_window a p (j + 1)).
Proof.
  intros (_ & HC & HR & HF & HN).
  specialize (HC eq_refl). specialize (HR eq_refl). specialize (HF eq_refl).
  specialize (HN eq_refl).
  unfold taps_agree, shift_read, tap_window, channels in *.
  cbn [a_left a_center a_right a_farright a_next] in *.
  repeat split; intros _; intros.
  - rewrite HC. f_equal; lia.
  - rewrite HR. f_equal; lia.
  - rewrite HF. f_equal; lia.
  - rewrite HN. f_equal; lia.
  - lia.
Qed.

Lemma shift_three_agree (a : Z -> float) (w : window) (p j : Z) (L N : bool) :
  taps_agree L true true true N w (tap_window a p j) ->
  taps_agree true true true false false (shift_three w) (tap_window a p (j + 1)).
Proof.
  intros (_ & HC & HR & HF & _).
  specialize (HC eq_refl). specialize (HR eq_refl). specialize (HF eq_refl).
  unfold taps_agree, shift_three, tap_window, channels in *.
  cbn [a_left a_center a_right a_farright a_next] in *.
  repeat split; intros; try discriminate.
  - rewrite HC. f_equal; lia.
  - rewrite HR. f_equal; lia.
  - rewrite HF. f_equal; lia.
Qed.

Lemma shift_two_agree (a : Z -> float) (w : window) (p j : Z) (L F N : bool) :
  taps_agree L true true F N w (tap_window a p j) ->
  taps_agree true true false false false (shift_two w) (tap_window a p (j + 1)).
Proof.
  intros (_ & HC & HR & _).
  specialize (HC eq_refl). specialize (HR eq_refl).
  unfold taps_agree, shift_two, tap_window, channels in *.
  cbn [a_left a_center a_right a_farright a_next] in *.
  repeat split; intros; try discriminate.
  - rewrite HC. f_equal; lia.
  - rewrite HR. f_equal; lia.
Qed.

Lemma farbottom_shift_agree (a : Z -> float) (wb wf : window) (b fb n j : Z)
    (L : bool) :
  0 <= j -> j + 1 <= n - 3 ->
  taps_agree L true true true true wb (tap_window a b j) ->
  taps_agree L true true true true wf (farbottom_window a b fb n j) ->
  taps_agree true true true true true
    (shift_farbottom_from_bottom a (shift_read a wb) wf)
    (farbottom_window a b fb n (j + 1)).
Proof.
  intros Hj Hn (_ & _ & HR & HF & HN) (_ & _ & _ & _ & HN').
  specialize (HR eq_refl). specialize (HF eq_refl). specialize (HN eq_refl).
  specialize (HN' eq_refl).
  assert (HN'' : a_next wf = fb + 3 * (j + 3)).
  { rewrite HN'. unfold farbottom_window, tap_window, channels.
    destruct (Z.eqb_spec j 0) as [->|_]; cbn [a_next]; lia. }
  unfold taps_agree, shift_farbottom_from_bottom, shift_read, farbottom_window,
    tap_window, channels in *.
  destruct (Z.eqb_spec (j + 1) 0) as [E|_]; [lia|].
  destruct (Z.ltb_spec (j + 1) (n - 1)) as [_|E]; [|lia].
  destruct (Z.ltb_spec (j + 1) (n - 2)) as [_|E]; [|lia].
  cbn [a_left a_center a_right a_farright a_next] in *.
  repeat split; intros _; intros.
  - rewrite HR. f_equal; lia.
  - rewrite HF. f_equal; lia.
  - rewrite HN. f_equal; lia.
  - rewrite HN''. f_equal; lia.
  - lia.
Qed.

Lemma farbottom_three_agree (a : Z -> float) (w : window) (b fb n : Z) (L N : bool) :
  4 <= n ->
  taps_agree L true true true N w (farbottom_window a b fb n (n - 3)) ->
  taps_agree true true true false false (shift_three w)
    (farbottom_window a b fb n (n - 3 + 1)).
Proof.
  intros Hn (_ & HC & HR & HF & _).
  specialize (HC eq_refl). specialize (HR eq_refl). specialize (HF eq_refl).
  unfold taps_agree, shift_three, farbottom_window, tap_window, channels in *.
  destruct (Z.eqb_spec (n - 3) 0) as [E|_]; [lia|].
  destruct (Z.eqb_spec (n - 3 + 1) 0) as [E|_]; [lia|].
  destruct (Z.ltb_spec (n - 3) (n - 1)) as [_|E]; [|lia].
  destruct (Z.ltb_spec (n - 3) (n - 2)) as [_|E]; [|lia].
  destruct (Z.ltb_spec (n - 3 + 1) (n - 1)) as [_|E]; [|lia].
  destruct (Z.ltb_spec (n - 3 + 1) (n - 2)) as [E|_]; [lia|].
  cbn [a_left a_center a_right a_farright a_next] in *.
  repeat split; intros; try discriminate.
  - rewrite HC. f_equal; lia.
  - rewrite HR. f_equal; lia.
  - rewrite HF. f_equal; lia.
Qed.

Lemma farbottom_two_agree (a : Z -> float) (w : window) (b fb n : Z) (L F N : bool) :
  4 <= n ->
  taps_agree L true true F N w (farbottom_window a b fb n (n - 2)) ->
  taps_agree true true false false false (shift_two w)
    (farbottom_window a b fb n (n - 2 + 1)).
Proof.
  intros Hn (_ & HC & HR & _).
  specialize (HC eq_refl). specialize (HR eq_refl).
  unfold taps_agree, shift_two, farbottom_window, tap_window, channels in *.
  destruct (Z.eqb_spec (n - 2) 0) as [E|_]; [lia|].
  destruct (Z.eqb_spec (n - 2 + 1) 0) as [E|_]; [lia|].
  destruct (Z.ltb_spec (n - 2) (n - 1)) as [_|E]; [|lia].
  destruct (Z.ltb_spec (n - 2) (n - 2)) as [E|_]; [lia|].
  destruct (Z.ltb_spec (n - 2 + 1) (n - 1)) as [E|_]; [lia|].
  cbn [a_left a_center a_right a_farright a_next] in *.
  repeat split; intros; try discriminate.
  - rewrite HC. f_equal; lia.
  - rewrite HR. f_equal; lia.
Qed.

Lemma windows_loaded (kind : row_kind) (a a_left0 : Z -> float) (rows : list Z)
    (n : Z) :
  Forall2 (taps_agree false true true true true)
    (map (load a a_left0) rows) (direct_windows kind a rows n 0).
Proof.
  destruct (kind_cases kind rows) as [(t & m & b & fb & -> & ->)|[Hd _]].
  - cbn [map direct_windows]. unfold farbottom_window. cbn [Z.eqb].
    do 4 (constructor; [apply load_agree|]). constructor.
  - rewrite Hd. apply Forall2_map_both. apply Forall2_same.
    intros x. apply load_agree.
Qed.

Lemma windows_shifted (kind : row_kind) (a : Z -> float) (rows : list Z) (n j : Z)
    (wins : list window) (L : bool) :
  0 <= j -> j + 1 <= n - 3 ->
  Forall2 (taps_agree L true true true true) wins (direct_windows kind a rows n j) ->
  Forall2 (taps_agree true true true true true)
    (shift_interior kind a wins) (direct_windows kind a rows n (j + 1)).
Proof.
  intros Hj Hn H.
  destruct (kind_cases kind rows) as [(t & m & b & fb & -> & ->)|[Hd Hs]].
  - cbn [direct_windows] in *.
    inversion H as [|wt ? l1 ? Ht H1]; subst.
    inversion H1 as [|wm ? l2 ? Hm H2]; subst.
    inversion H2 as [|wb ? l3 ? Hb H3]; subst.
    inversion H3 as [|wf ? l4 ? Hf H4]; subst.
    inversion H4; subst. cbn [shift_interior].
    constructor; [eapply shift_read_agree; exact Ht|].
    constructor; [eapply shift_read_agree; exact Hm|].
    constructor; [eapply shift_read_agree; exact Hb|].
    constructor; [|constructor].
    eapply farbottom_shift_agree; eassumption.
  - rewrite Hd in *. rewrite Hs.
    + apply Forall2_of_map_r in H. apply Forall2_map_both.
      eapply Forall2_impl; [|exact H]. intros w p Hw. cbv beta in *.
      eapply shift_read_agree. exact Hw.
    + apply Forall2_length in H. rewrite length_map in H. exact H.
Qed.

Lemma windows_mapped (kind : row_kind) (a : Z -> float) (rows : list Z) (n j : Z)
    (shift : window -> window) (Rin Rout : window -> window -> Prop)
    (wins : list window) :
  (forall p w, Rin w (tap_window a p j) -> Rout (shift w) (tap_window a p (j + 1))) ->
  (forall b fb w, Rin w (farbottom_window a b fb n j) ->
                  Rout (shift w) (farbottom_window a b fb n (j + 1))) ->
  Forall2 Rin wins (direct_windows kind a rows n j) ->
  Forall2 Rout (map shift wins) (direct_windows kind a rows n (j + 1)).
Proof.
  intros Htap Hfar H.
  destruct (kind_cases kind rows) as [(t & m & b & fb & -> & ->)|[Hd _]].
  - cbn [direct_windows] in *.
    inversion H as [|wt ? l1 ? Ht H1]; subst.
    inversion H1 as [|wm ? l2 ? Hm H2]; subst.
    inversion H2 as [|wb ? l3 ? Hb H3]; subst.
    inversion H3 as [|wf ? l4 ? Hf H4]; subst.
    inversion H4; subst. cbn [map].
    constructor; [apply Htap; exact Ht|].
    constructor; [apply Htap; exact Hm|].
    constructor; [apply Htap; exact Hb|].
    constructor; [apply Hfar; exact Hf|constructor].
  - rewrite Hd in *. apply Forall2_of_map_r in H. apply Forall2_map_both.
    eapply Forall2_impl; [|exact H]. intros w p Hw. cbv beta in *.
    apply Htap. exact Hw.
Qed.

Lemma taps_agree_weaken (L C R F N : bool) (w w' : window) :
  taps_agree true true true true true w w' -> taps_agree L C R F N w w'.
Proof.
  intros (H1 & H2 & H3 & H4 & H5). unfold taps_agree.
  repeat split; intros _; auto.
Qed.

Section Values.

Variable weights : list float.
Variable horizontal : bands.

Lemma value_first_agree (wins wins' : list window) (L F N : bool) (jj c : Z) :
  Forall2 (taps_agree L true true F N) wins wins' ->
  value_first weights horizontal wins jj c = value_first weights horizontal wins' jj c.
Proof.
  intros H. unfold value_first.
  rewrite (tap_sum_center weights wins wins' L true F N c H).
  rewrite (tap_sum_right weights wins wins' L true F N c H). reflexivity.
Qed.

Lemma value_first_boundary_agree (wins wins' : list window) (L N : bool) (jj j c : Z) :
  Forall2 (taps_agree L true true true N) wins wins' ->
  value_first_boundary weights horizontal wins jj j c
  = value_first_boundary weights horizontal wins' jj j c.
Proof.
  intros H. unfold value_first_boundary.
  rewrite (value_first_agree wins wins' L true N jj c H).
  rewrite (tap_sum_farright weights wins wins' L true true N c H). reflexivity.
Qed.

Lemma value_interior_agree (wins wins' : list window) (F N : bool) (jj c : Z) :
  Forall2 (taps_agree true true true F N) wins wins' ->
  value_interior weights horizontal wins jj c
  = value_interior weights horizontal wins' jj c.
Proof.
  intros H. unfold value_interior.
  rewrite (tap_sum_left weights wins wins' true true F N c H).
  rewrite (tap_sum_center weights wins wins' true true F N c H).
  rewrite (tap_sum_right weights wins wins' true true F N c H). reflexivity.
Qed.

Lemma value_interior_boundary_agree (wins wins' : list window) (N : bool) (jj j c : Z) :
  Forall2 (taps_agree true true true true N) wins wins' ->
  value_interior_boundary weights horizontal wins jj j c
  = value_interior_boundary weights horizontal wins' jj j c.
Proof.
  intros H. unfold value_interior_boundary.
  rewrite (value_interior_agree wins wins' true N jj c H).
  rewrite (tap_sum_farright weights wins wins' true true true N c H). reflexivity.
Qed.

Lemma value_last_agree (wins wins' : list window) (R F N : bool) (jj c : Z) :
  Forall2 (taps_agree true true R F N) wins wins' ->
  value_last weights horizontal wins jj c = value_last weights horizontal wins' jj c.
Proof.
  intros H. unfold value_last.
  rewrite (tap_sum_left weights wins wins' true R F N c H).
  rewrite (tap_sum_center weights wins wins' true R F N c H). reflexivity.
Qed.

End Values.

Lemma emit_filled (V : Z -> Z -> float) (buffer0 : Z -> Z) (value : Z -> float)
    (jj : Z) (ob : outbuf) :
  0 <= jj -> columns_filled d V buffer0 jj ob ->
  (forall c, 0 <= c < channels -> value c = V jj c) ->
  columns_filled d V buffer0 (jj + 1) (emit d value ob).
Proof.
  intros Hjj (Hp & Hdone & Hkept) Hv.
  destruct (emit_spec d value ob) as (Hp' & Hframe & Hnew).
  unfold columns_filled, channels in *. split; [lia|]. split.
  - intros k c Hk Hc. destruct (Z_lt_le_dec k jj) as [Hold|Hnewk].
    + rewrite Hframe by lia. apply Hdone; lia.
    + assert (k = jj) as -> by lia.
      replace (3 * jj + c) with (output_row_p ob + c) by lia.
      rewrite Hnew by lia. rewrite Hv by lia. reflexivity.
  - intros q Hq. rewrite Hframe by lia. apply Hkept. lia.
Qed.

Lemma emit_loop_filled (V : Z -> Z -> float) (buffer0 : Z -> Z)
    (value : Z -> Z -> float) (jj last_jj : Z) (ob : outbuf) :
  0 <= jj <= last_jj -> columns_filled d V buffer0 jj ob ->
  (forall k c, jj <= k < last_jj -> 0 <= c < channels -> value k c = V k c) ->
  exists ob',
    while_lt jj last_jj (fun jj => emit d (value jj)) ob = (last_jj, ob')
    /\ columns_filled d V buffer0 last_jj ob'.
Proof.
  intros Hjj Hdone Hv.
  destruct (while_lt_invariant (fun k t => 0 <= k /\ columns_filled d V buffer0 k t)
              (fun jj => emit d (value jj)) jj last_jj ob) as (Hfst & _ & Hsnd);
    [lia|split; [lia|exact Hdone]| |].
  - intros k t Hk [_ Ht]. split; [lia|]. apply emit_filled; [lia|exact Ht|].
    intros c Hc. apply Hv; lia.
  - destruct (while_lt jj last_jj _ ob) as [jj' ob'] eqn:E. cbn [fst snd] in *.
    subst jj'. exists ob'. split; [reflexivity|exact Hsnd].
Qed.

Section OneRowDirect.

Variable kind : row_kind.
Variable a : Z -> float.
Variable weights : list float.
Variable horizontal : bands.
Variable last_overlapping_jj : Z -> Z.
Variables n nn : Z.
Variable rows : list Z.
Hypothesis n_min : 4 <= n.
Hypothesis map_ok : overlap_ok n nn last_overlapping_jj.

Local Abbreviation V :=
  (direct_value kind a weights horizontal last_overlapping_jj n rows).
Local Abbreviation direct := (direct_windows kind a rows n).

Lemma direct_value_first (k c : Z) :
  k < last_overlapping_jj 0 ->
  V k c = value_first weights horizontal (direct 0) k c.
Proof.
  intros Hk. unfold direct_value.
  rewrite (coarse_column_spec n nn last_overlapping_jj 0 k map_ok) by lia.
  cbn [Z.eqb]. destruct (Z.eqb_spec k (last_overlapping_jj 0)); [lia|reflexivity].
Qed.

Lemma direct_value_first_boundary (c : Z) :
  V (last_overlapping_jj 0) c
  = value_first_boundary weights horizontal (direct 0) (last_overlapping_jj 0) 0 c.
Proof.
  unfold direct_value.
  rewrite (coarse_column_spec n nn last_overlapping_jj 0 _ map_ok) by lia.
  cbn [Z.eqb]. rewrite Z.eqb_refl. reflexivity.
Qed.

Lemma direct_value_interior (j k c : Z) :
  1 <= j <= n - 3 -> last_overlapping_jj (j - 1) < k < last_overlapping_jj j ->
  V k c = value_interior weights horizontal (direct j) k c.
Proof.
  intros Hj Hk. unfold direct_value.
  rewrite (coarse_column_spec n nn last_overlapping_jj j k map_ok) by lia.
  destruct (Z.eqb_spec j 0); [lia|]. destruct (Z.ltb_spec j (n - 2)); [|lia].
  destruct (Z.eqb_spec k (last_overlapping_jj j)); [lia|reflexivity].
Qed.

Lemma direct_value_interior_boundary (j c : Z) :
  1 <= j <= n - 3 ->
  V (last_overlapping_jj j) c
  = value_interior_boundary weights horizontal (direct j) (last_overlapping_jj j) j c.
Proof.
  intros Hj. unfold direct_value. destruct map_ok as (_ & Hinc & _).
  rewrite (coarse_column_spec n nn last_overlapping_jj j _ map_ok);
    [|lia|intros _; specialize (Hinc (j - 1));
          replace (j - 1 + 1) with j in Hinc by lia; lia|lia].
  destruct (Z.eqb_spec j 0); [lia|]. destruct (Z.ltb_spec j (n - 2)); [|lia].
  rewrite Z.eqb_refl. reflexivity.
Qed.

Lemma direct_value_second_to_last (k c : Z) :
  last_overlapping_jj (n - 3) < k <= last_overlapping_jj (n - 2) ->
  V k c = value_interior weights horizontal (direct (n - 2)) k c.
Proof.
  intros Hk. unfold direct_value.
  rewrite (coarse_column_spec n nn last_overlapping_jj (n - 2) k map_ok);
    [|lia|intros _; replace (n - 2 - 1) with (n - 3) by lia; lia|lia].
  destruct (Z.eqb_spec (n - 2) 0); [lia|].
  destruct (Z.ltb_spec (n - 2) (n - 2)); [lia|].
  rewrite Z.eqb_refl. reflexivity.
Qed.

Lemma direct_value_last (k c : Z) :
  last_overlapping_jj (n - 2) < k ->
  V k c = value_last weights horizontal (direct (n - 1)) k c.
Proof.
  intros Hk. unfold direct_value.
  rewrite (coarse_column_spec n nn last_overlapping_jj (n - 1) k map_ok);
    [|lia|intros _; replace (n - 1 - 1) with (n - 2) by lia; lia|lia].
  destruct (Z.eqb_spec (n - 1) 0); [lia|].
  destruct (Z.ltb_spec (n - 1) (n - 2)); [lia|].
  destruct (Z.eqb_spec (n - 1) (n - 2)); [lia|reflexivity].
Qed.

Lemma interior_columns_direct (buffer0 : Z -> Z) (jj0 : Z) (wins : list window)
    (ob : outbuf) :
  jj0 = last_overlapping_jj 0 + 1 -> columns_filled d V buffer0 jj0 ob ->
  Forall2 (taps_agree false true true true true) wins (direct 0) ->
  exists wins' ob',
    do_while_lt 1 (n - 2)
      (interior_column d kind a weights horizontal last_overlapping_jj)
      (jj0, wins, ob)
    = (n - 2, (last_overlapping_jj (n - 3) + 1, wins', ob'))
    /\ columns_filled d V buffer0 (last_overlapping_jj (n - 3) + 1) ob'
    /\ Forall2 (taps_agree false true true true true) wins' (direct (n - 3)).
Proof.
  intros Hjj0 Hdone Hwins. destruct map_ok as (H0 & Hinc & Hlast).
  pose proof (overlap_ok_lower n nn last_overlapping_jj map_ok) as Hmono.
  pose (P := fun (j : Z) (st : Z * list window * outbuf) =>
               fst (fst st) = last_overlapping_jj (j - 1) + 1
               /\ columns_filled d V buffer0 (fst (fst st)) (snd st)
               /\ Forall2 (taps_agree false true true true true)
                    (snd (fst st)) (direct (j - 1))).
  destruct (do_while_lt_invariant P
              (interior_column d kind a weights horizontal last_overlapping_jj)
              1 (n - 2) (jj0, wins, ob)) as (Hfst & Hsnd1 & Hsnd2 & Hsnd3).
  - lia.
  - unfold P. cbn [fst snd]. replace (1 - 1) with 0 by lia.
    split; [assumption|split; assumption].
  - intros j [[jj ws] t] Hj (Hjj & Ht & Hws). cbn [fst snd] in Hjj, Ht, Hws. subst jj.
    unfold P, interior_column.
    pose proof (windows_shifted kind a rows n (j - 1) ws false ltac:(lia) ltac:(lia) Hws)
      as Hws'.
    replace (j - 1 + 1) with j in Hws' by lia.
    set (ws' := shift_interior kind a ws) in *.
    assert (Hstep : last_overlapping_jj (j - 1) < last_overlapping_jj j).
    { specialize (Hinc (j - 1)). replace (j - 1 + 1) with j in Hinc by lia. lia. }
    destruct (emit_loop_filled V buffer0 (value_interior weights horizontal ws')
                (last_overlapping_jj (j - 1) + 1) (last_overlapping_jj j) t)
      as (t' & E & Ht').
    + specialize (Hmono (j - 1)). lia.
    + exact Ht.
    + intros k c Hk Hc. rewrite (direct_value_interior j k c) by lia.
      apply (value_interior_agree weights horizontal ws' (direct j) true true k c Hws').
    + rewrite E. cbn [fst snd]. replace (j + 1 - 1) with j by lia.
      split; [reflexivity|]. split.
      * apply emit_filled; [specialize (Hmono j); lia|exact Ht'|].
        intros c Hc. rewrite (direct_value_interior_boundary j c) by lia.
        apply (value_interior_boundary_agree weights horizontal ws' (direct j) true
                 (last_overlapping_jj j) j c Hws').
      * eapply Forall2_impl; [|exact Hws']. intros w w'. apply taps_agree_weaken.
  - destruct (do_while_lt 1 (n - 2) _ (jj0, wins, ob)) as [j [[jj ws] t]] eqn:E.
    cbn [fst snd] in *. subst j jj. replace (n - 2 - 1) with (n - 3) in * by lia.
    exists ws, t. split; [reflexivity|]. split; assumption.
Qed.

(** One pass of the column loop leaves in every sample of the row the
    rounded value that indexing the coefficients directly gives. *)
Lemma synthesize_row_direct (a_left0 : Z -> float) (buffer : Z -> Z) :
  exists ob',
    synthesize_row d kind a weights horizontal last_overlapping_jj n nn
                   rows a_left0 buffer = (nn, ob')
    /\ columns_filled d V buffer nn ob'.
Proof.
  destruct map_ok as (H0 & Hinc & Hlast).
  pose proof (overlap_ok_lower n nn last_overlapping_jj map_ok) as Hmono.
  unfold synthesize_row.
  pose proof (windows_loaded kind a a_left0 rows n) as Hw0.
  set (wins := map (load a a_left0) rows) in *.
  destruct (emit_loop_filled V buffer (value_first weights horizontal wins) 0
              (last_overlapping_jj 0)
              {| output_row := buffer; output_row_p := 0 |}) as (ob1 & E1 & Hd1).
  - lia.
  - split; [reflexivity|]. split; [intros k c Hk; lia|reflexivity].
  - intros k c Hk Hc. rewrite (direct_value_first k c) by lia.
    apply (value_first_agree weights horizontal wins (direct 0) false true true k c Hw0).
  - rewrite E1.
    set (ob2 := emit d _ ob1).
    assert (Hd2 : columns_filled d V buffer (last_overlapping_jj 0 + 1) ob2).
    { apply emit_filled; [lia|exact Hd1|]. intros c Hc.
      rewrite (direct_value_first_boundary c).
      apply (value_first_boundary_agree weights horizontal wins (direct 0) false true
               (last_overlapping_jj 0) 0 c Hw0). }
    destruct (interior_columns_direct buffer (last_overlapping_jj 0 + 1) wins ob2 eq_refl
                Hd2 Hw0)
      as (wins3 & ob3 & E3 & Hd3 & Hw3).
    rewrite E3.
    assert (Hidx : second_to_last_index kind (n - 2) (n - 2) = n - 2)
      by (destruct kind; reflexivity).
    rewrite Hidx.
    assert (Hw4 : Forall2 (taps_agree true true true false false)
                    (map shift_three wins3) (direct (n - 2))).
    { replace (n - 2) with (n - 3 + 1) by lia.
      apply (windows_mapped kind a rows n (n - 3) shift_three
               (taps_agree false true true true true)); [| |exact Hw3].
      - intros p w. apply shift_three_agree.
      - intros b fb w. apply farbottom_three_agree. exact n_min. }
    assert (Hw5 : Forall2 (taps_agree true true false false false)
                    (map shift_two (map shift_three wins3)) (direct (n - 1))).
    { replace (n - 1) with (n - 2 + 1) by lia.
      apply (windows_mapped kind a rows n (n - 2) shift_two
               (taps_agree true true true false false)); [| |exact Hw4].
      - intros p w. apply shift_two_agree.
      - intros b fb w. apply farbottom_two_agree. exact n_min. }
    assert (Hstep : last_overlapping_jj (n - 3) < last_overlapping_jj (n - 2)).
    { specialize (Hinc (n - 3)). replace (n - 3 + 1) with (n - 2) in Hinc by lia. lia. }
    destruct (emit_loop_filled V buffer
                (value_interior weights horizontal (map shift_three wins3))
                (last_overlapping_jj (n - 3) + 1) (last_overlapping_jj (n - 2) + 1) ob3)
      as (ob4 & E4 & Hd4).
    + specialize (Hmono (n - 3)). lia.
    + exact Hd3.
    + intros k c Hk Hc. rewrite (direct_value_second_to_last k c) by lia.
      apply (value_interior_agree weights horizontal _ (direct (n - 2)) false false
               k c Hw4).
    + rewrite E4.
      destruct (emit_loop_filled V buffer
                  (value_last weights horizontal (map shift_two (map shift_three wins3)))
                  (last_overlapping_jj (n - 2) + 1) nn ob4) as (ob5 & E5 & Hd5).
      * specialize (Hmono (n - 2)). lia.
      * exact Hd4.
      * intros k c Hk Hc. rewrite (direct_value_last k c) by lia.
        apply (value_last_agree weights horizontal _ (direct (n - 1)) false false false
                 k c Hw5).
      * rewrite E5. exists ob5. split; [reflexivity|exact Hd5].
Qed.

End OneRowDirect.

Lemma write_row_nth (nn : Z) (buf : Z -> Z) (q : Z) :
  0 <= q < channels * nn ->
  nth_error (snd (write_row d nn buf)) (Z.to_nat q) = Some (encode d (buf q)).
Proof.
  intros Hq. unfold write_row. cbn [snd].
  rewrite nth_error_map.
  assert (Hn : nth_error (seq 0 (Z.to_nat (channels * nn))) (Z.to_nat q)
               = Some (Z.to_nat q)).
  { rewrite (nth_error_nth' _ 0%nat) by (rewrite length_seq; lia).
    rewrite seq_nth by lia. reflexivity. }
  rewrite Hn. cbn [option_map]. rewrite Z2Nat.id by lia.
  unfold encode. destruct d; [|reflexivity].
  assert (Hin : (0 <=? q) && (q <? 3 * nn) = true).
  { apply andb_true_intro. unfold channels in Hq.
    split; [apply Z.leb_le|apply Z.ltb_lt]; lia. }
  rewrite Hin. reflexivity.
Qed.

Section AllRowsDirect.

Variable a : Z -> float.
Variables horizontal vertical : bands.
Variables last_overlapping_jj last_overlapping_ii : Z -> Z.
Variables m n mm nn : Z.
Variable a_left0 : Z -> float.
Hypothesis n_min : 4 <= n.
Hypothesis m_min : 4 <= m.
Hypothesis jj_ok : overlap_ok n nn last_overlapping_jj.
Hypothesis ii_ok : overlap_ok m mm last_overlapping_ii.

Local Abbreviation fine_row' :=
  (fine_row d a horizontal vertical last_overlapping_jj m n nn a_left0).
Local Abbreviation S' :=
  (direct_sample d a horizontal vertical last_overlapping_jj last_overlapping_ii m n).

Lemma fine_row_filled (kind : row_kind) (i ii : Z) (s : synth) :
  0 <= ii -> rows_filled d S' nn ii s ->
  (forall jj c,
      S' ii jj c
      = ROUND_AND_CLAMP_TO_065535 d
          (direct_value kind a (row_weights vertical kind i ii) horizontal
                        last_overlapping_jj n (row_offsets m n kind i) jj c)) ->
  rows_filled d S' nn (ii + 1) (fine_row' kind i ii s).
Proof.
  intros Hii [Hlen Hrows] HS. unfold fine_row.
  destruct (synthesize_row_direct kind a (row_weights vertical kind i ii) horizontal
              last_overlapping_jj n nn (row_offsets m n kind i) n_min jj_ok a_left0
              (buffer s)) as (ob & E & Hp & Hdone & _).
  rewrite E.
  pose proof (write_row_nth nn (output_row ob)) as Hnth.
  destruct (write_row d nn (output_row ob)) as [buffer' units]. cbn [snd] in Hnth.
  unfold rows_filled. cbn [outputfile]. split.
  - rewrite length_app. cbn [length]. lia.
  - intros k jj c Hk Hjj Hc. destruct (Z_lt_le_dec k ii) as [Hold|Hnew].
    + destruct (Hrows k jj c ltac:(lia) Hjj Hc) as (row & Hrow & Hunit).
      exists row. split; [|exact Hunit].
      rewrite nth_error_app1 by lia. exact Hrow.
    + assert (k = ii) as -> by lia. exists units. split.
      * rewrite nth_error_app2 by lia.
        replace (Z.to_nat ii - length (outputfile s))%nat with 0%nat by lia.
        reflexivity.
      * rewrite Hnth by (unfold channels in *; lia).
        rewrite Hdone by lia. rewrite HS. reflexivity.
Qed.

Lemma fine_row_loop_filled (kind : row_kind) (i ii last_ii : Z) (s : synth) :
  0 <= ii <= last_ii -> rows_filled d S' nn ii s ->
  (forall k jj c, ii <= k < last_ii ->
      S' k jj c
      = ROUND_AND_CLAMP_TO_065535 d
          (direct_value kind a (row_weights vertical kind i k) horizontal
                        last_overlapping_jj n (row_offsets m n kind i) jj c)) ->
  exists s',
    while_lt ii last_ii (fine_row' kind i) s = (last_ii, s')
    /\ rows_filled d S' nn last_ii s'.
Proof.
  intros Hii Hdone HS.
  destruct (while_lt_invariant (fun k t => 0 <= k /\ rows_filled d S' nn k t)
              (fine_row' kind i) ii last_ii s) as (Hfst & _ & Hsnd);
    [lia|split; [lia|exact Hdone]| |].
  - intros k t Hk [_ Ht]. split; [lia|].
    apply fine_row_filled; [lia|exact Ht|]. intros jj c. apply HS. lia.
  - destruct (while_lt ii last_ii _ s) as [ii' s'] eqn:E. cbn [fst snd] in *.
    subst ii'. exists s'. split; [reflexivity|exact Hsnd].
Qed.

Lemma direct_sample_kind (kind : row_kind) (i ii jj c : Z) :
  coarse_column last_overlapping_ii m ii = i ->
  fine_row_kind last_overlapping_ii m ii = kind ->
  S' ii jj c
  = ROUND_AND_CLAMP_TO_065535 d
      (direct_value kind a (row_weights vertical kind i ii) horizontal
                    last_overlapping_jj n (row_offsets m n kind i) jj c).
Proof. intros Hi Hk. unfold direct_sample. rewrite Hi, Hk. reflexivity. Qed.

Lemma fine_row_kind_first_inner (ii : Z) :
  ii < last_overlapping_ii 0 ->
  coarse_column last_overlapping_ii m ii = 0
  /\ fine_row_kind last_overlapping_ii m ii = FirstInner.
Proof.
  intros Hk. unfold fine_row_kind.
  rewrite (coarse_column_spec m mm last_overlapping_ii 0 ii ii_ok) by lia.
  split; [reflexivity|]. cbn [Z.eqb].
  destruct (Z.eqb_spec ii (last_overlapping_ii 0)); [lia|reflexivity].
Qed.

Lemma fine_row_kind_first_last :
  coarse_column last_overlapping_ii m (last_overlapping_ii 0) = 0
  /\ fine_row_kind last_overlapping_ii m (last_overlapping_ii 0) = FirstLast.
Proof.
  unfold fine_row_kind.
  rewrite (coarse_column_spec m mm last_overlapping_ii 0 _ ii_ok) by lia.
  split; [reflexivity|]. cbn [Z.eqb]. rewrite Z.eqb_refl. reflexivity.
Qed.

Lemma fine_row_kind_interior_inner (i ii : Z) :
  1 <= i <= m - 3 -> last_overlapping_ii (i - 1) < ii < last_overlapping_ii i ->
  coarse_column last_overlapping_ii m ii = i
  /\ fine_row_kind last_overlapping_ii m ii = InteriorInner.
Proof.
  intros Hi Hk. unfold fine_row_kind.
  rewrite (coarse_column_spec m mm last_overlapping_ii i ii ii_ok) by lia.
  split; [reflexivity|].
  destruct (Z.eqb_spec i 0); [lia|]. destruct (Z.ltb_spec i (m - 2)); [|lia].
  destruct (Z.eqb_spec ii (last_overlapping_ii i)); [lia|reflexivity].
Qed.

Lemma fine_row_kind_interior_last (i : Z) :
  1 <= i <= m - 3 ->
  coarse_column last_overlapping_ii m (last_overlapping_ii i) = i
  /\ fine_row_kind last_overlapping_ii m (last_overlapping_ii i) = InteriorLast.
Proof.
  intros Hi. unfold fine_row_kind. destruct ii_ok as (_ & Hinc & _).
  rewrite (coarse_column_spec m mm last_overlapping_ii i _ ii_ok);
    [|lia|intros _; specialize (Hinc (i - 1));
          replace (i - 1 + 1) with i in Hinc by lia; lia|lia].
  split; [reflexivity|].
  destruct (Z.eqb_spec i 0); [lia|]. destruct (Z.ltb_spec i (m - 2)); [|lia].
  rewrite Z.eqb_refl. reflexivity.
Qed.

Lemma fine_row_kind_second_to_last (ii : Z) :
  last_overlapping_ii (m - 3) < ii <= last_overlapping_ii (m - 2) ->
  coarse_column last_overlapping_ii m ii = m - 2
  /\ fine_row_kind last_overlapping_ii m ii = SecondToLast.
Proof.
  intros Hk. unfold fine_row_kind.
  rewrite (coarse_column_spec m mm last_overlapping_ii (m - 2) ii ii_ok);
    [|lia|intros _; replace (m - 2 - 1) with (m - 3) by lia; lia|lia].
  split; [reflexivity|].
  destruct (Z.eqb_spec (m - 2) 0); [lia|].
  destruct (Z.ltb_spec (m - 2) (m - 2)); [lia|].
  rewrite Z.eqb_refl. reflexivity.
Qed.

Lemma fine_row_kind_last (ii : Z) :
  last_overlapping_ii (m - 2) < ii ->
  coarse_column last_overlapping_ii m ii = m - 1
  /\ fine_row_kind last_overlapping_ii m ii = LastRow.
Proof.
  intros Hk. unfold fine_row_kind.
  rewrite (coarse_column_spec m mm last_overlapping_ii (m - 1) ii ii_ok);
    [|lia|intros _; replace (m - 1 - 1) with (m - 2) by lia; lia|lia].
  split; [reflexivity|].
  destruct (Z.eqb_spec (m - 1) 0); [lia|].
  destruct (Z.ltb_spec (m - 1) (m - 2)); [lia|].
  destruct (Z.eqb_spec (m - 1) (m - 2)); [lia|reflexivity].
Qed.

(** The row loops leave in every unit written the sample that indexing the
    coefficients directly gives. *)
Lemma synthesize_direct (output_row0 : Z -> Z) :
  rows_filled d S' nn mm
    (synthesize d a horizontal vertical last_overlapping_jj last_overlapping_ii
                m n mm nn a_left0 output_row0).
Proof.
  destruct ii_ok as (H0 & Hinc & Hlast).
  pose proof (overlap_ok_lower m mm last_overlapping_ii ii_ok) as Hmono.
  unfold synthesize.
  destruct (fine_row_loop_filled FirstInner 0 0 (last_overlapping_ii 0)
              {| buffer := output_row0; outputfile := [] |}) as (s1 & E1 & Hd1).
  - lia.
  - split; [reflexivity|]. intros k jj c Hk. lia.
  - intros k jj c Hk. destruct (fine_row_kind_first_inner k ltac:(lia)) as [Ei Ek].
    apply direct_sample_kind; assumption.
  - rewrite E1.
    set (s2 := fine_row' FirstLast 0 (last_overlapping_ii 0) s1).
    assert (Hd2 : rows_filled d S' nn (last_overlapping_ii 0 + 1) s2).
    { apply fine_row_filled; [lia|exact Hd1|]. intros jj c.
      destruct fine_row_kind_first_last as [Ei Ek].
      apply direct_sample_kind; assumption. }
    pose (P := fun (i : Z) (st : Z * synth) =>
                 fst st = last_overlapping_ii (i - 1) + 1
                 /\ rows_filled d S' nn (fst st) (snd st)).
    destruct (do_while_lt_invariant P
                (coarse_row d a horizontal vertical last_overlapping_jj
                            last_overlapping_ii m n nn a_left0)
                1 (m - 2) (last_overlapping_ii 0 + 1, s2)) as (Hfst & Hsnd1 & Hsnd2).
    + lia.
    + unfold P. cbn [fst snd]. replace (1 - 1) with 0 by lia. split; [reflexivity|exact Hd2].
    + intros i [ii t] Hi [Hii Ht]. cbn [fst snd] in Hii, Ht. subst ii.
      unfold P, coarse_row.
      assert (Hstep : last_overlapping_ii (i - 1) < last_overlapping_ii i).
      { specialize (Hinc (i - 1)). replace (i - 1 + 1) with i in Hinc by lia. lia. }
      destruct (fine_row_loop_filled InteriorInner i (last_overlapping_ii (i - 1) + 1)
                  (last_overlapping_ii i) t) as (t' & E & Ht').
      * specialize (Hmono (i - 1)). lia.
      * exact Ht.
      * intros k jj c Hk.
        destruct (fine_row_kind_interior_inner i k ltac:(lia) ltac:(lia)) as [Ei Ek].
        apply direct_sample_kind; assumption.
      * rewrite E. cbn [fst snd]. replace (i + 1 - 1) with i by lia.
        split; [reflexivity|].
        apply fine_row_filled; [specialize (Hmono i); lia|exact Ht'|].
        intros jj c. destruct (fine_row_kind_interior_last i ltac:(lia)) as [Ei Ek].
        apply direct_sample_kind; assumption.
    + destruct (do_while_lt 1 (m - 2) _ (last_overlapping_ii 0 + 1, s2))
        as [i [ii s3]] eqn:E3.
      cbn [fst snd] in *. subst i ii. replace (m - 2 - 1) with (m - 3) in * by lia.
      assert (Hstep : last_overlapping_ii (m - 3) < last_overlapping_ii (m - 2)).
      { specialize (Hinc (m - 3)). replace (m - 3 + 1) with (m - 2) in Hinc by lia. lia. }
      destruct (fine_row_loop_filled SecondToLast 0 (last_overlapping_ii (m - 3) + 1)
                  (last_overlapping_ii (m - 2) + 1) s3) as (s4 & E4 & Hd4).
      * specialize (Hmono (m - 3)). lia.
      * exact Hsnd2.
      * intros k jj c Hk.
        destruct (fine_row_kind_second_to_last k ltac:(lia)) as [Ei Ek].
        rewrite (direct_sample_kind SecondToLast (m - 2) k jj c Ei Ek). reflexivity.
      * rewrite E4.
        destruct (fine_row_loop_filled LastRow 0 (last_overlapping_ii (m - 2) + 1) mm s4)
          as (s5 & E5 & Hd5).
        -- specialize (Hmono (m - 2)). lia.
        -- exact Hd4.
        -- intros k jj c Hk.
           destruct (fine_row_kind_last k ltac:(lia)) as [Ei Ek].
           rewrite (direct_sample_kind LastRow (m - 1) k jj c Ei Ek). reflexivity.
        -- rewrite E5. exact Hd5.
Qed.

End AllRowsDirect.

End DirectIndexing.

(** ** The byte swap of the 16-bit engine *)

Lemma swap_bytes_arith (v : Z) :
  0 <= v <= 65535 -> swap_bytes v = 256 * (v mod 256) + v / 256.
Proof.
  intros Hv. unfold swap_bytes.
  assert (Hlow : Z.land v 255 = v mod 256).
  { change 255 with (Z.ones 8). rewrite Z.land_ones by lia. reflexivity. }
  assert (Hhigh : Z.shiftr (Z.land v 65280) 8 = v / 256).
  { rewrite Z.shiftr_land. change (Z.shiftr 65280 8) with (Z.ones 8).
    rewrite Z.land_ones by lia. rewrite Z.shiftr_div_pow2 by lia.
    change (2 ^ 8) with 256. apply Z.mod_small.
    split; [apply Z.div_pos; lia|apply Z.div_lt_upper_bound; lia]. }
  rewrite Hlow, Hhigh. rewrite Z.shiftl_mul_pow2 by lia. change (2 ^ 8) with 256.
  assert (Hdisjoint : Z.land (v mod 256 * 256) (v / 256) = 0).
  { apply Z.bits_inj'. intros i Hi. rewrite Z.land_spec, Z.bits_0.
    destruct (Z_lt_le_dec i 8) as [Hlt|Hge].
    - replace (v mod 256 * 256) with (Z.shiftl (v mod 256) 8)
        by (rewrite Z.shiftl_mul_pow2 by lia; reflexivity).
      rewrite Z.shiftl_spec_low by lia. reflexivity.
    - replace (v / 256) with ((v / 256) mod 2 ^ 8).
      + rewrite Z.mod_pow2_bits_high by lia. apply andb_false_r.
      + change (2 ^ 8) with 256. apply Z.mod_small.
        split; [apply Z.div_pos; lia|apply Z.div_lt_upper_bound; lia]. }
  rewrite <- Z.lxor_lor by exact Hdisjoint.
  rewrite <- Z.add_nocarry_lxor by exact Hdisjoint. lia.
Qed.

Lemma swap_bytes_twice (v : Z) :
  0 <= v <= 65535 ->
  0 <= swap_bytes v <= 65535 /\ swap_bytes (swap_bytes v) = v.
Proof.
  intros Hv. pose proof (swap_bytes_arith v Hv) as H1.
  pose proof (Z.mod_pos_bound v 256 ltac:(lia)) as Hm.
  assert (Hd : 0 <= v / 256 < 256)
    by (split; [apply Z.div_pos; lia|apply Z.div_lt_upper_bound; lia]).
  assert (Hr : 0 <= swap_bytes v <= 65535) by lia.
  split; [exact Hr|].
  rewrite (swap_bytes_arith (swap_bytes v) Hr). rewrite H1.
  assert (E1 : (256 * (v mod 256) + v / 256) mod 256 = v / 256).
  { symmetry. apply Z.mod_unique with (q := v mod 256); lia. }
  assert (E2 : (256 * (v mod 256) + v / 256) / 256 = v mod 256).
  { symmetry. apply Z.div_unique with (r := v / 256); lia. }
  rewrite E1, E2. pose proof (Z.div_mod v 256 ltac:(lia)). lia.
Qed.

(** On a 16-bit value the byte swap exchanges the two bytes: the result is
    again a 16-bit value, and swapping twice gives the value back. *)
Theorem swap_bytes_involutive (v : Z) :
  0 <= v <= 65535 ->
  swap_bytes v = 256 * (v mod 256) + v / 256
  /\ 0 <= swap_bytes v <= 65535
  /\ swap_bytes (swap_bytes v) = v.
Proof.
  intros Hv. split; [apply swap_bytes_arith; exact Hv|].
  apply swap_bytes_twice. exact Hv.
Qed.

Lemma swap_bytes_involutive_witness :
  swap_bytes 4660 = 256 * (4660 mod 256) + 4660 / 256
  /\ 0 <= swap_bytes 4660 <= 65535
  /\ swap_bytes (swap_bytes 4660) = 4660.
Proof. apply (swap_bytes_involutive 4660). lia. Defined.

(** ** TensorSynthesizer: what each sample written is *)

Section SynthesizerProperties.

Context {FO : FloatOps}.
Variable d : depth.

(** One pass of the column loop, with its windows slid from coarse column
    to coarse column, writes into channel [c] of every fine column [jj] the
    rounded value that reading the coefficients by index gives
    ([direct_value]): the taps are those of the coarse column that [jj]
    overlaps, except for the farbottom taps in the last fine row of an
    interior coarse row ([farbottom_window]).  Neither the content of the
    left taps before their first assignment nor that of the buffer reaches
    a sample, and nothing is stored outside the [channels * nn] entries of
    the buffer. *)
Theorem synthesize_row_by_direct_indexing (kind : row_kind) (a : Z -> float)
    (weights : list float) (horizontal : bands) (last_overlapping_jj : Z -> Z)
    (n nn : Z) (rows : list Z) (a_left0 : Z -> float) (buffer : Z -> Z) :
  4 <= n -> overlap_ok n nn last_overlapping_jj ->
  exists ob,
    synthesize_row d kind a weights horizontal last_overlapping_jj n nn
                   rows a_left0 buffer = (nn, ob)
    /\ (forall jj c, 0 <= jj < nn -> 0 <= c < channels ->
          output_row ob (channels * jj + c)
          = ROUND_AND_CLAMP_TO_065535 d
              (direct_value kind a weights horizontal last_overlapping_jj n rows jj c))
    /\ (forall q, q < 0 \/ channels * nn <= q -> output_row ob q = buffer q).
Proof.
  intros Hn Hok.
  destruct (synthesize_row_direct d kind a weights horizontal last_overlapping_jj
              n nn rows Hn Hok a_left0 buffer) as (ob & E & _ & Hdone & Hkept).
  exists ob. split; [exact E|]. split; [exact Hdone|exact Hkept].
Qed.

(** The row loops write [mm] rows, and the unit of channel [c] at fine row
    [ii] and fine column [jj] carries the sample that reading the
    coefficients by index gives ([direct_sample]): the copy of the column
    loop, its weights and its coarse rows are those of the coarse row that
    [ii] overlaps. *)
Theorem synthesize_by_direct_indexing (a : Z -> float) (horizontal vertical : bands)
    (last_overlapping_jj last_overlapping_ii : Z -> Z) (m n mm nn : Z)
    (a_left0 : Z -> float) (output_row0 : Z -> Z) :
  4 <= n -> 4 <= m ->
  overlap_ok n nn last_overlapping_jj -> overlap_ok m mm last_overlapping_ii ->
  let s := synthesize d a horizontal vertical last_overlapping_jj last_overlapping_ii
                      m n mm nn a_left0 output_row0 in
  Z.of_nat (length (outputfile s)) = mm
  /\ forall ii jj c, 0 <= ii < mm -> 0 <= jj < nn -> 0 <= c < channels ->
       exists row,
         nth_error (outputfile s) (Z.to_nat ii) = Some row
         /\ nth_error row (Z.to_nat (channels * jj + c))
            = Some (encode d (direct_sample d a horizontal vertical last_overlapping_jj
                                            last_overlapping_ii m n ii jj c)).
Proof.
  intros Hn Hm Hjj Hii.
  exact (synthesize_direct d a horizontal vertical last_overlapping_jj
           last_overlapping_ii m n mm nn a_left0 Hn Hm Hjj Hii output_row0).
Qed.

(** What [scale_up] writes can be read back.  On dimensions in the
    supported range (m, n >= 15, mm >= m, nn >= n, the products [m * mm],
    [n * nn] and [m * channels * n] within [int]) and a stream that reaches
    into the last row, every unit is a value of the sample width, and
    decoding it the way the engine decodes its input gives the rounded and
    clamped sample it carries. *)
Theorem scale_up_output_reads_back (fuel : nat) (g : storage) (inputfile : list Z)
    (m n mm nn maxval : Z) :
  15 <= m -> 15 <= n -> m <= mm -> n <= nn ->
  m * mm <= CInt.INT_MAX -> n * nn <= CInt.INT_MAX ->
  m * (channels * n) <= CInt.INT_MAX ->
  mm <= Z.of_nat fuel -> nn <= Z.of_nat fuel ->
  (m - 1) * (channels * n) < Z.of_nat (length inputfile) ->
  exists rows,
    scale_up d fuel g inputfile m n mm nn maxval = Some (0, rows)
    /\ forall row unit, In row rows -> In unit row ->
         0 <= unit <= clamp_max d /\ rounded d (decode d unit).
Proof.
  intros Hm Hn Hmm Hnn Hfm Hfn Hfa Hf1 Hf2 Hlen.
  destruct (scale_up_runs d fuel g inputfile m n mm nn maxval)
    as (rows & Hrun & _ & Hrows); try assumption.
  exists rows. split; [exact Hrun|].
  intros row unit Hrow Hunit.
  rewrite Forall_forall in Hrows. destruct (Hrows row Hrow) as [_ Hunits].
  rewrite Forall_forall in Hunits. destruct (Hunits unit Hunit) as [x Hx].
  pose proof (clamp_range d (int_of_double (dadd (double_lit 5 1) (double_of_float x))))
    as Hr.
  fold (ROUND_AND_CLAMP_TO_065535 d x) in Hr.
  unfold rounded, decode. destruct d.
  - change (clamp_max Bits16) with 65535 in *.
    destruct (swap_bytes_twice _ Hr) as (Hrange & Hinv).
    subst unit. split; [exact Hrange|]. exists x. exact Hinv.
  - subst unit. split; [exact Hr|]. exists x. reflexivity.
Qed.

(** A unit that carries a sample produced by the macro decodes to that
    sample. *)
Lemma written_unit_decoded (unit : Z) :
  written_unit d unit ->
  exists x : float, decode d unit = ROUND_AND_CLAMP_TO_065535 d x.
Proof.
  intros [x Hx]. exists x.
  pose proof (clamp_range d (int_of_double (dadd (double_lit 5 1) (double_of_float x))))
    as Hr.
  fold (ROUND_AND_CLAMP_TO_065535 d x) in Hr.
  unfold decode. destruct d.
  - change (clamp_max Bits16) with 65535 in Hr. subst unit.
    exact (proj2 (swap_bytes_twice _ Hr)).
  - exact Hx.
Qed.

Lemma decode_encode (v : Z) : 0 <= v <= 65535 -> decode d (encode d v) = v.
Proof.
  intros Hv. unfold decode, encode. destruct d; [|reflexivity].
  exact (proj2 (swap_bytes_twice v Hv)).
Qed.

(** Whatever [scale_up] is called with, every unit of every row it has
    written when it returns carries a sample produced by the macro. *)
Lemma scale_up_units (fuel : nat) (g : storage) (inputfile : list Z)
    (m n mm nn maxval r : Z) (rows : list (list Z)) :
  scale_up d fuel g inputfile m n mm nn maxval = Some (r, rows) ->
  Forall (Forall (written_unit d)) rows.
Proof.
  unfold scale_up. intros Hrun.
  destruct (forallb CInt.fits (entry_ints m n nn)); cbn [negb] in Hrun; [|discriminate].
  destruct (read_rows d _ _ m n 0 inputfile (g_input_row g) (g_a g))
    as [[code|[[file' row'] a']]|]; cbn [bind] in Hrun; [| |discriminate].
  - injection Hrun as _ <-. constructor.
  - destruct (solve_columns m n a') as [a2|]; cbn [bind] in Hrun; [|discriminate].
    destruct (last_overlapping_index fuel fuel n nn (g_last_overlapping_jj g))
      as [jj_map|]; cbn [bind] in Hrun; [|discriminate].
    destruct (last_overlapping_index fuel fuel m mm (g_last_overlapping_ii g))
      as [ii_map|]; cbn [bind] in Hrun; [|discriminate].
    injection Hrun as _ <-.
    destruct (synthesize_any d a2
                (coarse_to_fine_coefficients n nn jj_map (g_previous_integral_l g)
                                             (g_horizontal g))
                (coarse_to_fine_coefficients m mm ii_map (g_previous_integral_l g)
                                             (g_vertical g))
                jj_map ii_map m n mm nn (g_a_left g) (g_output_row g))
      as (ii & (_ & _ & Hunits) & _).
    exact Hunits.
Qed.

(** C3: every output sample is the tensor contraction value plus 0.5,
    converted to [int] and clamped to [0, maxval], [maxval] being the
    maximum of the engine's sample width (65535 or 255, the only value
    [main] accepts).

    First, for every call of [scale_up], whatever the image, the dimensions
    and the storage: every unit of every row it has written carries (bytes
    swapped for 16-bit samples) a sample within [0, maxval] that is such a
    conversion of a [float].

    Second, that [float] is the tensor contraction: in the rows that the
    synthesizer writes from any array [a] of control coefficients, band
    arrays and valid overlap maps, the unit of channel [c] at fine row [ii]
    and fine column [jj] carries the conversion of [direct_sample_value],
    the sum over the coarse rows that [ii] overlaps and the coarse columns
    that [jj] overlaps of coefficient times vertical weight times horizontal
    weight. *)
Theorem C3_output_samples_rounded_and_clamped :
  (forall (fuel : nat) (g : storage) (inputfile : list Z) (m n mm nn maxval r : Z)
          (rows : list (list Z)),
      maxval = clamp_max d ->
      scale_up d fuel g inputfile m n mm nn maxval = Some (r, rows) ->
      forall row unit, In row rows -> In unit row ->
        0 <= decode d unit <= maxval
        /\ exists x : float,
             let out := int_of_double (dadd (double_lit 5 1) (double_of_float x)) in
             decode d unit
             = if out >? maxval then maxval else if out <? 0 then 0 else out)
  /\ (forall (a : Z -> float) (horizontal vertical : bands)
             (last_overlapping_jj last_overlapping_ii : Z -> Z) (m n mm nn : Z)
             (a_left0 : Z -> float) (output_row0 : Z -> Z),
        4 <= n -> 4 <= m ->
        overlap_ok n nn last_overlapping_jj -> overlap_ok m mm last_overlapping_ii ->
        forall ii jj c, 0 <= ii < mm -> 0 <= jj < nn -> 0 <= c < channels ->
          exists row unit,
            nth_error
              (outputfile (synthesize d a horizontal vertical last_overlapping_jj
                                      last_overlapping_ii m n mm nn a_left0 output_row0))
              (Z.to_nat ii) = Some row
            /\ nth_error row (Z.to_nat (channels * jj + c)) = Some unit
            /\ let x := direct_sample_value a horizontal vertical last_overlapping_jj
                                            last_overlapping_ii m n ii jj c in
               let out := int_of_double (dadd (double_lit 5 1) (double_of_float x)) in
               decode d unit
               = if out >? clamp_max d then clamp_max d
                 else if out <? 0 then 0 else out).
Proof.
  split.
  - intros fuel g inputfile m n mm nn maxval r rows -> Hrun row unit Hrow Hunit.
    pose proof (scale_up_units fuel g inputfile m n mm nn (clamp_max d) r rows Hrun)
      as Hall.
    rewrite Forall_forall in Hall. pose proof (Hall row Hrow) as Hunits.
    rewrite Forall_forall in Hunits.
    destruct (written_unit_decoded unit (Hunits unit Hunit)) as [x Hx].
    split.
    + rewrite Hx. apply clamp_range.
    + exists x. exact Hx.
  - intros a horizontal vertical last_overlapping_jj last_overlapping_ii m n mm nn
      a_left0 output_row0 Hn Hm Hjj Hii ii jj c Hi Hj Hc.
    destruct (synthesize_direct d a horizontal vertical last_overlapping_jj
                last_overlapping_ii m n mm nn a_left0 Hn Hm Hjj Hii output_row0)
      as [_ Hrows].
    destruct (Hrows ii jj c Hi Hj Hc) as (row & Hrow & Hunit).
    exists row. eexists. split; [exact Hrow|]. split; [exact Hunit|].
    cbv zeta. rewrite decode_encode.
    + reflexivity.
    + pose proof (clamp_range d
                    (int_of_double
                       (dadd (double_lit 5 1)
                             (double_of_float
                                (direct_sample_value a horizontal vertical
                                   last_overlapping_jj last_overlapping_ii m n ii jj c)))))
        as Hr.
      change (direct_sample d a horizontal vertical last_overlapping_jj
                            last_overlapping_ii m n ii jj c)
        with (clamp d
                (int_of_double
                   (dadd (double_lit 5 1)
                         (double_of_float
                            (direct_sample_value a horizontal vertical
                               last_overlapping_jj last_overlapping_ii m n ii jj c))))).
      destruct d; cbn [clamp_max] in Hr; lia.
Qed.

End SynthesizerProperties.

(** ** [main]: the header up to the dimensions *)

Lemma skip_comment_spec (file : list Z) :
  Forall (fun b => 0 <= b <= 255) file ->
  forall fuel : nat,
    (length file < fuel)%nat ->
    exists header_char rest,
      skip_comment fuel file = Some (header_char, rest)
      /\ (length rest <= length file)%nat
      /\ Forall (fun b => 0 <= b <= 255) rest
      /\ (exists skipped, file = skipped ++ rest)
      /\ ((header_char = EOF /\ dimensions_start true file = None)
          \/ (header_char = 10
              /\ dimensions_start true file = dimensions_start false rest)).
Proof.
  induction 1 as [|b file Hb Hfile IH]; intros fuel Hfuel.
  - destruct fuel as [|fuel]; [lia|]. cbn [skip_comment fgetc].
    exists EOF, []. cbn.
    split; [reflexivity|]. split; [lia|]. split; [constructor|].
    split; [exists []; reflexivity|]. left. split; reflexivity.
  - destruct fuel as [|fuel]; [cbn [length] in Hfuel; lia|].
    cbn [skip_comment fgetc dimensions_start].
    destruct (Z.eqb_spec b 10) as [->|Hnl].
    + cbn [negb andb]. exists 10, file.
      split; [reflexivity|]. split; [cbn [length]; lia|]. split; [exact Hfile|].
      split; [exists [10]; reflexivity|]. right. split; reflexivity.
    + destruct (Z.eqb_spec b EOF) as [E|_]; [unfold EOF in E; lia|].
      cbn [negb andb].
      destruct (IH fuel ltac:(cbn [length] in Hfuel; lia))
        as (hc & rest & Hrun & Hlen & Hbytes & [skipped Hsk] & Hres).
      exists hc, rest. split; [exact Hrun|]. split; [cbn [length]; lia|].
      split; [exact Hbytes|]. split; [|exact Hres].
      exists (b :: skipped). rewrite Hsk. reflexivity.
Qed.

Lemma skip_comments_spec :
  forall (fuel : nat) (file : list Z),
    Forall (fun b => 0 <= b <= 255) file ->
    (length file < fuel)%nat ->
    skip_comments fuel file
    = Some (match dimensions_start false file with
            | Some rest => inr rest
            | None => inl 1
            end).
Proof.
  induction fuel as [|fuel IH]; intros file Hbytes Hfuel; [lia|].
  cbn [skip_comments]. destruct file as [|b file].
  - reflexivity.
  - cbn [fgetc dimensions_start]. inversion Hbytes as [|? ? Hb Hfile]; subst.
    cbn [length] in Hfuel.
    destruct (Z.eqb_spec b 35) as [->|Hhash].
    + destruct (skip_comment_spec file Hfile fuel ltac:(lia))
        as (hc & rest & Hrun & Hlen & Hrest & _ & [[-> Hnone]|[-> Hsome]]).
      * rewrite Hrun. cbn [bind]. rewrite Hnone. reflexivity.
      * rewrite Hrun. cbn [bind]. rewrite Hsome.
        change (10 =? EOF) with false. change ((10 <? 48) || (10 >? 57)) with true.
        cbv iota. apply IH; [exact Hrest|lia].
    + cbn [bind]. destruct (Z.eqb_spec b EOF) as [E|_]; [unfold EOF in E; lia|].
      destruct (Z.ltb_spec b 48) as [Hlow|Hlow].
      * cbn [orb]. destruct (Z.leb_spec 48 b) as [|_]; [lia|]. cbn [andb].
        apply IH; [exact Hfile|lia].
      * cbn [orb]. destruct (Z.leb_spec 48 b) as [_|]; [|lia]. cbn [andb].
        destruct (Z.gtb_spec b 57) as [Hhigh|Hhigh].
        -- destruct (Z.leb_spec b 57) as [|_]; [lia|]. apply IH; [exact Hfile|lia].
        -- destruct (Z.leb_spec b 57) as [_|]; [|lia]. reflexivity.
Qed.

Lemma dimensions_start_suffix (file : list Z) :
  forall (in_comment : bool) (rest : list Z),
    dimensions_start in_comment file = Some rest ->
    exists skipped digit tail,
      file = skipped ++ digit :: tail /\ rest = digit :: tail /\ 48 <= digit <= 57.
Proof.
  induction file as [|b file IH]; intros in_comment rest H; [discriminate H|].
  cbn [dimensions_start] in H.
  assert (Hrec : forall st, dimensions_start st file = Some rest ->
            exists skipped digit tail,
              b :: file = skipped ++ digit :: tail /\ rest = digit :: tail
              /\ 48 <= digit <= 57).
  { intros st Hst. destruct (IH st rest Hst) as (skipped & digit & tail & E & Hr & Hd).
    exists (b :: skipped), digit, tail. rewrite E. repeat split; assumption || lia. }
  destruct in_comment; [exact (Hrec _ H)|].
  destruct (b =? 35); [exact (Hrec _ H)|].
  destruct (Z.leb_spec 48 b) as [Hlow|_]; cbn [andb] in H; [|exact (Hrec _ H)].
  destruct (Z.leb_spec b 57) as [Hhigh|_]; [|exact (Hrec _ H)].
  injection H as <-. exists [], b, file. repeat split; lia.
Qed.

(** The start of [main], on a stream of bytes and with fuel beyond its
    length: anything but [P6] in the first two bytes exits through [usage];
    after [P6] the loops over the comment lines do what the two-state
    scanner [dimensions_start] does, so every byte before the first digit
    outside a comment is dropped, white space or not, a [#] opens a comment
    wherever it stands, and a header without such a digit exits through
    [usage]; on success the stream handed to [fscanf] starts at that digit. *)
Theorem read_header_prefix_spec (fuel : nat) (file : list Z) :
  Forall (fun b => 0 <= b <= 255) file ->
  (length file < fuel)%nat ->
  exists result,
    read_header_prefix fuel file = Some result
    /\ (forall rest, file = 80 :: 54 :: rest ->
          result = match dimensions_start false rest with
                   | Some r => inr r
                   | None => inl 1
                   end)
    /\ ((forall rest, file <> 80 :: 54 :: rest) -> result = inl 1)
    /\ (forall r, result = inr r ->
          exists skipped digit tail,
            file = skipped ++ digit :: tail /\ r = digit :: tail
            /\ 48 <= digit <= 57).
Proof.
  intros Hbytes Hfuel. unfold read_header_prefix, read_magic.
  destruct file as [|p file]; cbn [fgetc].
  { change (EOF =? 80) with false. cbn [negb]. eexists. split; [reflexivity|].
    split; [intros rest E; discriminate E|]. split; [reflexivity|].
    intros r E. discriminate E. }
  destruct (Z.eqb_spec p 80) as [->|Hp]; cbn [negb].
  2:{ eexists. split; [reflexivity|]. split; [intros rest E; congruence|].
      split; [reflexivity|]. intros r E. discriminate E. }
  destruct file as [|q file]; cbn [fgetc].
  { change (EOF =? 54) with false. cbn [negb]. eexists. split; [reflexivity|].
    split; [intros rest E; discriminate E|]. split; [reflexivity|].
    intros r E. discriminate E. }
  destruct (Z.eqb_spec q 54) as [->|Hq]; cbn [negb].
  2:{ eexists. split; [reflexivity|]. split; [intros rest E; congruence|].
      split; [reflexivity|]. intros r E. discriminate E. }
  inversion Hbytes as [|? ? _ H1]; subst. inversion H1 as [|? ? _ H2]; subst.
  cbn [length] in Hfuel.
  rewrite (skip_comments_spec fuel file H2 ltac:(lia)).
  eexists. split; [reflexivity|]. split; [|split].
  - intros rest E. injection E as <-. reflexivity.
  - intros Hno. exfalso. apply (Hno file). reflexivity.
  - intros r E. destruct (dimensions_start false file) as [r'|] eqn:Hd; [|discriminate E].
    injection E as <-.
    destruct (dimensions_start_suffix file false r' Hd)
      as (skipped & digit & tail & Hfile & Hr & Hdigit).
    exists (80 :: 54 :: skipped), digit, tail. rewrite Hfile.
    split; [reflexivity|]. split; assumption.
Qed.

Lemma read_header_prefix_spec_witness :
  exists result,
    read_header_prefix 20 [80; 54; 10; 35; 32; 49; 53; 10; 49; 53; 32; 49; 53; 10]
    = Some result
    /\ (forall rest,
          [80; 54; 10; 35; 32; 49; 53; 10; 49; 53; 32; 49; 53; 10] = 80 :: 54 :: rest ->
          result = match dimensions_start false rest with
                   | Some r => inr r
                   | None => inl 1
                   end)
    /\ ((forall rest,
            [80; 54; 10; 35; 32; 49; 53; 10; 49; 53; 32; 49; 53; 10] <> 80 :: 54 :: rest) ->
        result = inl 1)
    /\ (forall r, result = inr r ->
          exists skipped digit tail,
            [80; 54; 10; 35; 32; 49; 53; 10; 49; 53; 32; 49; 53; 10]
            = skipped ++ digit :: tail
            /\ r = digit :: tail /\ 48 <= digit <= 57).
Proof.
  apply (read_header_prefix_spec 20
           [80; 54; 10; 35; 32; 49; 53; 10; 49; 53; 32; 49; 53; 10]).
  - repeat constructor; lia.
  - cbn [length]. lia.
Defined.

(** ** Two runs of a loop side by side *)

Lemma iter_from_rel {St St' : Type} (R : Z -> St -> St' -> Prop)
    (body : Z -> St -> St) (body' : Z -> St' -> St') :
  forall (n : nat) (i : Z) (s : St) (s' : St'),
    R i s s' ->
    (forall k t t', i <= k < i + Z.of_nat n -> R k t t' ->
                    R (k + 1) (body k t) (body' k t')) ->
    R (i + Z.of_nat n) (iter_from n i body s) (iter_from n i body' s').
Proof.
  induction n as [|n IH]; intros i s s' Hs Hstep.
  - cbn [iter_from]. now replace (i + Z.of_nat 0) with i by lia.
  - cbn [iter_from].
    replace (i + Z.of_nat (S n)) with (i + 1 + Z.of_nat n) by lia.
    apply IH.
    + apply Hstep; [lia|exact Hs].
    + intros k t t' Hk. apply Hstep. lia.
Qed.

Lemma while_lt_rel {St St' : Type} (R : Z -> St -> St' -> Prop)
    (body : Z -> St -> St) (body' : Z -> St' -> St') (i hi : Z) (s : St) (s' : St') :
  i <= hi ->
  R i s s' ->
  (forall k t t', i <= k < hi -> R k t t' -> R (k + 1) (body k t) (body' k t')) ->
  fst (while_lt i hi body s) = hi /\ fst (while_lt i hi body' s') = hi
  /\ R hi (snd (while_lt i hi body s)) (snd (while_lt i hi body' s')).
Proof.
  intros Hle Hs Hstep. unfold while_lt. cbn [fst snd].
  split; [lia|]. split; [lia|].
  pose proof (iter_from_rel R body body' (Z.to_nat (hi - i)) i s s' Hs) as H.
  replace (i + Z.of_nat (Z.to_nat (hi - i))) with hi in H by lia.
  apply H. intros k t t' Hk. apply Hstep. lia.
Qed.

Lemma do_while_lt_rel {St St' : Type} (R : Z -> St -> St' -> Prop)
    (body : Z -> St -> St) (body' : Z -> St' -> St') (i hi : Z) (s : St) (s' : St') :
  i < hi ->
  R i s s' ->
  (forall k t t', i <= k < hi -> R k t t' -> R (k + 1) (body k t) (body' k t')) ->
  fst (do_while_lt i hi body s) = hi /\ fst (do_while_lt i hi body' s') = hi
  /\ R hi (snd (do_while_lt i hi body s)) (snd (do_while_lt i hi body' s')).
Proof.
  intros Hlt Hs Hstep. unfold do_while_lt.
  apply while_lt_rel; [lia| |].
  - apply Hstep; [lia|exact Hs].
  - intros k t t' Hk. apply Hstep. lia.
Qed.

(** ** BandCoefficientGenerator: footprint and independence of the storage *)

Section GeneratorProofs.

Context {FO : FloatOps}.

Ltac c2f_open H :=
  destruct H as (Hx & Hl & Hc & Hr & (AL & AC & AR & AF) & (KL & KC & KR & KF)).

Ltac c2f_entry kk H :=
  let q := fresh "q" in
  let Hq := fresh "Hq" in
  let Hne := fresh "Hne" in
  intros q Hq;
  first
    [ destruct (Z.eq_dec q kk) as [->|Hne];
      [ first [ rewrite !upd_same; reflexivity | exfalso; lia ]
      | rewrite ?upd_other by exact Hne; apply H; lia ]
    | apply H; lia ].

Lemma c2f_first_cell_rel (arrays : bands) (h : double) (e f_hi kk : Z) (s s' : c2f) :
  0 <= kk ->
  c2f_rel arrays false e e (kk - 1) (kk - 1) f_hi s s' ->
  c2f_rel arrays false e e kk kk f_hi (c2f_first_cell h kk s) (c2f_first_cell h kk s').
Proof.
  intros Hkk H. c2f_open H.
  unfold c2f_rel, bands_agree, bands_kept, c2f_first_cell, set_center, set_right.
  cbn [x previous_integral_l previous_integral_c previous_integral_r out
       b_left b_center b_right b_farright].
  rewrite <- Hx, <- Hc, <- Hr.
  split; [reflexivity|]. split; [intros E; discriminate E|].
  split; [reflexivity|]. split; [reflexivity|]. split.
  - split; [c2f_entry kk AL|]. split; [c2f_entry kk AC|].
    split; [c2f_entry kk AR|c2f_entry kk AF].
  - split; [c2f_entry kk KL|]. split; [c2f_entry kk KC|].
    split; [c2f_entry kk KR|c2f_entry kk KF].
Qed.

Lemma c2f_first_boundary_rel (arrays : bands) (o oo : Z) (one_over_oo : double)
    (e kk : Z) (s s' : c2f) :
  0 <= kk ->
  c2f_rel arrays false e e (kk - 1) (kk - 1) (-1) s s' ->
  c2f_rel arrays true kk kk kk kk 0
    (c2f_first_boundary o oo one_over_oo kk s)
    (c2f_first_boundary o oo one_over_oo kk s').
Proof.
  intros Hkk H. c2f_open H.
  unfold c2f_rel, bands_agree, bands_kept, c2f_first_boundary,
    set_center, set_right, set_farright.
  cbn [x previous_integral_l previous_integral_c previous_integral_r out
       b_left b_center b_right b_farright].
  rewrite <- Hc, <- Hr.
  split; [reflexivity|]. split; [reflexivity|].
  split; [reflexivity|]. split; [reflexivity|]. split.
  - split; [c2f_entry kk AL|]. split; [c2f_entry kk AC|].
    split; [c2f_entry kk AR|c2f_entry 0 AF].
  - split; [c2f_entry kk KL|]. split; [c2f_entry kk KC|].
    split; [c2f_entry kk KR|c2f_entry 0 KF].
Qed.

Lemma c2f_interior_cell_rel (arrays : bands) (h : double) (l_lo f_hi kk : Z)
    (s s' : c2f) :
  0 <= kk -> l_lo < kk ->
  c2f_rel arrays true l_lo (kk - 1) (kk - 1) (kk - 1) f_hi s s' ->
  c2f_rel arrays true l_lo kk kk kk f_hi
    (c2f_interior_cell h kk s) (c2f_interior_cell h kk s').
Proof.
  intros Hkk Hlo H. c2f_open H. specialize (Hl eq_refl).
  unfold c2f_rel, bands_agree, bands_kept, c2f_interior_cell,
    set_left, set_center, set_right.
  cbn [x previous_integral_l previous_integral_c previous_integral_r out
       b_left b_center b_right b_farright].
  rewrite <- Hx, <- Hl, <- Hc, <- Hr.
  split; [reflexivity|]. split; [reflexivity|].
  split; [reflexivity|]. split; [reflexivity|]. split.
  - split; [c2f_entry kk AL|]. split; [c2f_entry kk AC|].
    split; [c2f_entry kk AR|c2f_entry kk AF].
  - split; [c2f_entry kk KL|]. split; [c2f_entry kk KC|].
    split; [c2f_entry kk KR|c2f_entry kk KF].
Qed.

Lemma c2f_interior_boundary_rel (arrays : bands) (o oo : Z) (one_over_oo : double)
    (l_lo k kk : Z) (s s' : c2f) :
  0 <= kk -> l_lo < kk -> 0 <= k ->
  c2f_rel arrays true l_lo (kk - 1) (kk - 1) (kk - 1) (k - 1) s s' ->
  c2f_rel arrays true l_lo kk kk kk k
    (c2f_interior_boundary o oo one_over_oo k kk s)
    (c2f_interior_boundary o oo one_over_oo k kk s').
Proof.
  intros Hkk Hlo Hk H. c2f_open H. specialize (Hl eq_refl).
  unfold c2f_rel, bands_agree, bands_kept, c2f_interior_boundary,
    set_left, set_center, set_right, set_farright.
  cbn [x previous_integral_l previous_integral_c previous_integral_r out
       b_left b_center b_right b_farright].
  rewrite <- Hl, <- Hc, <- Hr.
  split; [reflexivity|]. split; [reflexivity|].
  split; [reflexivity|]. split; [reflexivity|]. split.
  - split; [c2f_entry kk AL|]. split; [c2f_entry kk AC|].
    split; [c2f_entry kk AR|c2f_entry k AF].
  - split; [c2f_entry kk KL|]. split; [c2f_entry kk KC|].
    split; [c2f_entry kk KR|c2f_entry k KF].
Qed.

Lemma c2f_last_correction_rel (arrays : bands) (l_lo l_hi c_hi f_hi kk : Z)
    (s s' : c2f) :
  0 <= kk ->
  c2f_rel arrays true l_lo l_hi c_hi kk f_hi s s' ->
  c2f_rel arrays true l_lo l_hi c_hi kk f_hi
    (c2f_last_correction kk s) (c2f_last_correction kk s').
Proof.
  intros Hkk H. c2f_open H.
  unfold c2f_rel, bands_agree, bands_kept, c2f_last_correction, set_right.
  cbn [x previous_integral_l previous_integral_c previous_integral_r out
       b_left b_center b_right b_farright].
  rewrite <- Hx, <- Hc, <- Hr. rewrite <- (AR kk) by lia.
  split; [reflexivity|]. split; [exact Hl|].
  split; [reflexivity|]. split; [reflexivity|]. split.
  - split; [c2f_entry kk AL|]. split; [c2f_entry kk AC|].
    split; [c2f_entry kk AR|c2f_entry kk AF].
  - split; [c2f_entry kk KL|]. split; [c2f_entry kk KC|].
    split; [c2f_entry kk KR|c2f_entry kk KF].
Qed.

Lemma c2f_last_cell_rel (arrays : bands) (h : double) (l_lo r_hi f_hi kk : Z)
    (s s' : c2f) :
  0 <= kk -> l_lo < kk ->
  c2f_rel arrays true l_lo (kk - 1) (kk - 1) r_hi f_hi s s' ->
  c2f_rel arrays true l_lo kk kk r_hi f_hi
    (c2f_last_cell h kk s) (c2f_last_cell h kk s').
Proof.
  intros Hkk Hlo H. c2f_open H. specialize (Hl eq_refl).
  unfold c2f_rel, bands_agree, bands_kept, c2f_last_cell, set_left, set_center.
  cbn [x previous_integral_l previous_integral_c previous_integral_r out
       b_left b_center b_right b_farright].
  rewrite <- Hx, <- Hl, <- Hc, <- Hr.
  split; [reflexivity|]. split; [reflexivity|].
  split; [reflexivity|]. split; [reflexivity|]. split.
  - split; [c2f_entry kk AL|]. split; [c2f_entry kk AC|].
    split; [c2f_entry kk AR|c2f_entry kk AF].
  - split; [c2f_entry kk KL|]. split; [c2f_entry kk KC|].
    split; [c2f_entry kk KR|c2f_entry kk KF].
Qed.

Lemma c2f_coarse_cell_rel (arrays : bands) (o oo : Z) (one_over_oo h : double)
    (lo lo' : Z -> Z) (k : Z) (st st' : Z * c2f) :
  1 <= k -> 0 <= lo 0 -> lo 0 <= lo (k - 1) -> lo (k - 1) < lo k -> lo' k = lo k ->
  fst st = lo (k - 1) /\ fst st' = lo (k - 1)
  /\ c2f_rel arrays true (lo 0) (lo (k - 1)) (lo (k - 1)) (lo (k - 1)) (k - 1)
       (snd st) (snd st') ->
  fst (c2f_coarse_cell o oo one_over_oo h lo k st) = lo k
  /\ fst (c2f_coarse_cell o oo one_over_oo h lo' k st') = lo k
  /\ c2f_rel arrays true (lo 0) (lo k) (lo k) (lo k) k
       (snd (c2f_coarse_cell o oo one_over_oo h lo k st))
       (snd (c2f_coarse_cell o oo one_over_oo h lo' k st')).
Proof.
  intros Hk H0 Hprev Hinc Hlo' (E & E' & Hrel).
  destruct st as [kk s]. destruct st' as [kk' s']. cbn [fst snd] in *. subst kk kk'.
  unfold c2f_coarse_cell. rewrite Hlo'.
  destruct (while_lt_rel
              (fun q t t' => c2f_rel arrays true (lo 0) (q - 1) (q - 1) (q - 1) (k - 1) t t')
              (c2f_interior_cell h) (c2f_interior_cell h)
              (lo (k - 1) + 1) (lo k) s s') as (F & F' & Hrel').
  - lia.
  - replace (lo (k - 1) + 1 - 1) with (lo (k - 1)) by lia. exact Hrel.
  - intros q t t' Hq Ht. replace (q + 1 - 1) with q by lia.
    apply c2f_interior_cell_rel; [lia|lia|exact Ht].
  - destruct (while_lt (lo (k - 1) + 1) (lo k) (c2f_interior_cell h) s) as [kk2 s2].
    destruct (while_lt (lo (k - 1) + 1) (lo k) (c2f_interior_cell h) s') as [kk2' s2'].
    cbn [fst snd] in *. subst kk2 kk2'.
    split; [reflexivity|]. split; [reflexivity|].
    apply c2f_interior_boundary_rel; [lia|lia|lia|exact Hrel'].
Qed.

(** Two runs of the generator on the same axis, from any arrays, any
    [previous_integral_l] and overlap maps that agree on their [o - 1]
    entries, end with the same coefficients in every entry written, and
    the entries written are: [left] on [(lo 0, oo)], [center] on [[0, oo)],
    [right] on [[0, lo (o-2)]], [farright] on [[0, o-2]]. *)
Lemma c2f_run_rel (o oo : Z) (lo lo' : Z -> Z) (p0 p0' : double)
    (arrays arrays' : bands) :
  3 <= o -> overlap_ok o oo lo ->
  (forall k, 0 <= k <= o - 2 -> lo' k = lo k) ->
  bands_agree (lo 0) (oo - 1) (oo - 1) (lo (o - 2)) (o - 2)
    (coarse_to_fine_coefficients o oo lo p0 arrays)
    (coarse_to_fine_coefficients o oo lo' p0' arrays')
  /\ bands_kept (lo 0) (oo - 1) (oo - 1) (lo (o - 2)) (o - 2) arrays
       (coarse_to_fine_coefficients o oo lo p0 arrays).
Proof.
  intros Ho Hok Hlo'. pose proof Hok as (H0 & Hinc & Hlast).
  pose proof (overlap_ok_monotone o oo lo Hok) as Hmono.
  unfold coarse_to_fine_coefficients.
  set (one_over_oo := ddiv (dl 1) (double_of_int oo)).
  set (h := dmul (double_of_int o) one_over_oo).
  rewrite (Hlo' 0) by lia.
  set (s0 := {| x := dl 0; previous_integral_l := p0; previous_integral_c := dl 0;
                previous_integral_r := dl 0; out := arrays |}).
  set (s0' := {| x := dl 0; previous_integral_l := p0'; previous_integral_c := dl 0;
                 previous_integral_r := dl 0; out := arrays' |}).
  destruct (while_lt_rel
              (fun q t t' => c2f_rel arrays false 0 0 (q - 1) (q - 1) (-1) t t')
              (c2f_first_cell h) (c2f_first_cell h) 0 (lo 0) s0 s0') as (F1 & F1' & R1).
  { exact H0. }
  { unfold c2f_rel, bands_agree, bands_kept. subst s0 s0'.
    cbn [x previous_integral_l previous_integral_c previous_integral_r out].
    split; [reflexivity|]. split; [intros E; discriminate E|].
    split; [reflexivity|]. split; [reflexivity|].
    split; repeat split; intros; first [lia | reflexivity]. }
  { intros q t t' Hq Ht. replace (q + 1 - 1) with q by lia.
    apply c2f_first_cell_rel; [lia|exact Ht]. }
  destruct (while_lt 0 (lo 0) (c2f_first_cell h) s0) as [kk1 s1].
  destruct (while_lt 0 (lo 0) (c2f_first_cell h) s0') as [kk1' s1'].
  cbn [fst snd] in *. subst kk1 kk1'. clearbody s0 s0'.
  apply (c2f_first_boundary_rel arrays o oo one_over_oo 0 (lo 0) s1 s1' H0) in R1.
  set (s2 := c2f_first_boundary o oo one_over_oo (lo 0) s1) in *.
  set (s2' := c2f_first_boundary o oo one_over_oo (lo 0) s1') in *.
  clearbody s2 s2'.
  destruct (do_while_lt_rel
              (fun k (st st' : Z * c2f) =>
                 fst st = lo (k - 1) /\ fst st' = lo (k - 1)
                 /\ c2f_rel arrays true (lo 0) (lo (k - 1)) (lo (k - 1)) (lo (k - 1))
                      (k - 1) (snd st) (snd st'))
              (c2f_coarse_cell o oo one_over_oo h lo)
              (c2f_coarse_cell o oo one_over_oo h lo')
              1 (o - 1) (lo 0, s2) (lo 0, s2')) as (F3 & F3' & E3 & E3' & R3).
  { lia. }
  { cbn [fst snd]. replace (1 - 1) with 0 by lia.
    split; [reflexivity|]. split; [reflexivity|exact R1]. }
  { intros k st st' Hk Hst. replace (k + 1 - 1) with k by lia.
    apply c2f_coarse_cell_rel; try assumption; try lia.
    - apply Hmono; lia.
    - specialize (Hinc (k - 1)). replace (k - 1 + 1) with k in Hinc by lia. lia.
    - apply Hlo'. lia. }
  destruct (do_while_lt 1 (o - 1) (c2f_coarse_cell o oo one_over_oo h lo) (lo 0, s2))
    as [k3 [kk3 s3]].
  destruct (do_while_lt 1 (o - 1) (c2f_coarse_cell o oo one_over_oo h lo') (lo 0, s2'))
    as [k3' [kk3' s3']].
  cbn [fst snd] in *. subst k3 k3' kk3 kk3'.
  replace (o - 1 - 1) with (o - 2) in * by lia.
  assert (Hpos : 0 <= lo (o - 2)) by (specialize (Hmono 0 (o - 2)); lia).
  assert (R4 : c2f_rel arrays true (lo 0) (lo (o - 2)) (lo (o - 2)) (lo (o - 2)) (o - 2)
                 (if Z.rem oo o =? 0 then s3 else c2f_last_correction (lo (o - 2)) s3)
                 (if Z.rem oo o =? 0 then s3' else c2f_last_correction (lo (o - 2)) s3')).
  { destruct (Z.rem oo o =? 0); [exact R3|].
    apply c2f_last_correction_rel; [exact Hpos|exact R3]. }
  set (s4 := if Z.rem oo o =? 0 then s3 else _) in *.
  set (s4' := if Z.rem oo o =? 0 then s3' else _) in *.
  clearbody s4 s4'.
  destruct (while_lt_rel
              (fun q t t' =>
                 c2f_rel arrays true (lo 0) (q - 1) (q - 1) (lo (o - 2)) (o - 2) t t')
              (c2f_last_cell h) (c2f_last_cell h) (lo (o - 2) + 1) oo s4 s4')
    as (F5 & F5' & R5).
  { lia. }
  { replace (lo (o - 2) + 1 - 1) with (lo (o - 2)) by lia. exact R4. }
  { intros q t t' Hq Ht. replace (q + 1 - 1) with q by lia.
    apply c2f_last_cell_rel; [lia| |exact Ht]. specialize (Hmono 0 (o - 2)). lia. }
  destruct (while_lt (lo (o - 2) + 1) oo (c2f_last_cell h) s4) as [kk5 s5].
  destruct (while_lt (lo (o - 2) + 1) oo (c2f_last_cell h) s4') as [kk5' s5'].
  cbn [fst snd] in *.
  destruct R5 as (_ & _ & _ & _ & HA & HK). split; assumption.
Qed.

End GeneratorProofs.

(** The generator writes [left] on [(lo 0, oo)], [center] on [[0, oo)],
    [right] on [[0, lo (o-2)]] and [farright] on [[0, o-2]], [lo] being the
    overlap map: every other entry of the four arrays keeps its content.
    In particular the first [lo 0 + 1] entries of [left] receive no value. *)
Theorem coarse_to_fine_coefficients_footprint {FO : FloatOps} (o oo : Z)
    (last_overlapping_kk : Z -> Z) (previous_integral_l0 : double) (arrays : bands) :
  3 <= o -> overlap_ok o oo last_overlapping_kk ->
  let result :=
    coarse_to_fine_coefficients o oo last_overlapping_kk previous_integral_l0 arrays in
  (forall q, q <= last_overlapping_kk 0 \/ oo <= q ->
      b_left result q = b_left arrays q)
  /\ (forall q, q < 0 \/ oo <= q -> b_center result q = b_center arrays q)
  /\ (forall q, q < 0 \/ last_overlapping_kk (o - 2) < q ->
        b_right result q = b_right arrays q)
  /\ (forall q, q < 0 \/ o - 1 <= q -> b_farright result q = b_farright arrays q).
Proof.
  intros Ho Hok.
  destruct (c2f_run_rel o oo last_overlapping_kk last_overlapping_kk
              previous_integral_l0 previous_integral_l0 arrays arrays Ho Hok
              ltac:(reflexivity)) as [_ (KL & KC & KR & KF)].
  cbv zeta. split; [|split; [|split]]; intros q Hq.
  - apply KL. lia.
  - apply KC. lia.
  - apply KR. lia.
  - apply KF. lia.
Qed.

(** The coefficients that the generator writes depend on the two counts
    and on the [o - 1] entries of the overlap map only: not on what the
    four arrays held, not on the content of [previous_integral_l] before
    its first assignment (it is assigned before it is read), not on
    entries of the map beyond the last. *)
Theorem coarse_to_fine_coefficients_independent {FO : FloatOps} (o oo : Z)
    (last_overlapping_kk last_overlapping_kk' : Z -> Z)
    (previous_integral_l0 previous_integral_l0' : double) (arrays arrays' : bands) :
  3 <= o -> overlap_ok o oo last_overlapping_kk ->
  (forall k, 0 <= k <= o - 2 -> last_overlapping_kk' k = last_overlapping_kk k) ->
  let result :=
    coarse_to_fine_coefficients o oo last_overlapping_kk previous_integral_l0 arrays in
  let result' :=
    coarse_to_fine_coefficients o oo last_overlapping_kk' previous_integral_l0'
                                arrays' in
  (forall q, last_overlapping_kk 0 < q < oo -> b_left result q = b_left result' q)
  /\ (forall q, 0 <= q < oo -> b_center result q = b_center result' q)
  /\ (forall q, 0 <= q <= last_overlapping_kk (o - 2) ->
        b_right result q = b_right result' q)
  /\ (forall q, 0 <= q <= o - 2 -> b_farright result q = b_farright result' q).
Proof.
  intros Ho Hok Hlo.
  destruct (c2f_run_rel o oo last_overlapping_kk last_overlapping_kk'
              previous_integral_l0 previous_integral_l0' arrays arrays' Ho Hok Hlo)
    as [(AL & AC & AR & AF) _].
  cbv zeta. split; [|split; [|split]]; intros q Hq.
  - apply AL. lia.
  - apply AC. lia.
  - apply AR. exact Hq.
  - apply AF. exact Hq.
Qed.

(** At the last fine cell of a coarse cell the generator places [x] at
    the offset of the fine cell's right edge inside the next coarse cell,
    [((lo k + 1) * o - (k + 1) * oo) / oo]: when upsizing within [int] the
    numerator is computed without overflow and lies in [[0, o)], so that
    [x] is a proper fraction of the fine step. *)
Theorem coarse_to_fine_boundary_offset {FO : FloatOps} (o oo : Z) (map : Z -> Z)
    (one_over_oo : double) :
  2 <= o < oo -> o * oo <= CInt.INT_MAX ->
  exists lo,
    lo_run o oo map = Some lo
    /\ forall k s, 0 <= k <= o - 2 ->
         let e := (lo k + 1) * o - (k + 1) * oo in
         0 <= e < o
         /\ x (c2f_interior_boundary o oo one_over_oo k (lo k) s)
            = dmul (double_of_int e) one_over_oo
         /\ (k = 0 ->
             x (c2f_first_boundary o oo one_over_oo (lo 0) s)
             = dmul (double_of_int e) one_over_oo).
Proof.
  intros Ho Hfit.
  destruct (lo_run_upsize o oo map Ho Hfit) as (lo & Hrun & _ & Hval).
  exists lo. split; [exact Hrun|]. intros k s Hk. cbv zeta.
  pose proof (Hval k Hk) as Hs.
  assert (Hlo : 0 <= lo k) by nia.
  assert (Hkoo : (k + 1) * oo <= (o - 1) * oo) by nia.
  assert (Hr : forall v, 0 <= v <= o * oo -> CInt.wrap v = v).
  { intros v Hv. apply wrap_small.
    unfold CInt.in_range, CInt.INT_MIN, CInt.INT_MAX in *. lia. }
  assert (E1 : CInt.add (lo k) 1 = lo k + 1) by (apply Hr; nia).
  assert (E2 : CInt.mul (lo k + 1) o = (lo k + 1) * o) by (apply Hr; nia).
  assert (E3 : CInt.add k 1 = k + 1) by (apply Hr; nia).
  assert (E4 : CInt.mul (k + 1) oo = (k + 1) * oo) by (apply Hr; nia).
  assert (E5 : CInt.sub ((lo k + 1) * o) ((k + 1) * oo)
               = (lo k + 1) * o - (k + 1) * oo) by (apply Hr; nia).
  split; [nia|]. split.
  - unfold c2f_interior_boundary. cbn [x]. rewrite E1, E2, E3, E4, E5. reflexivity.
  - intros ->. unfold c2f_first_boundary. cbn [x].
    rewrite E1, E2. replace ((0 + 1) * oo) with oo in E5 by ring.
    rewrite E5. replace ((0 + 1) * oo) with oo by ring. reflexivity.
Qed.

(** ** What the result of each stage depends on *)

Section Determinacy.

Context {FO : FloatOps}.
Variables d d' : depth.

(** The recurrence of the forward substitution has one solution. *)
Lemma forward_unique (f f' : Z -> float) (e e' : Z -> Z -> float)
    (idx : Z -> Z -> Z) (total stride : Z) :
  (forall j c, 0 <= j < total -> 0 <= c < stride ->
      f (idx j c) = forward_entry j (e j c) (f (idx (j - 1) c))) ->
  (forall j c, 0 <= j < total -> 0 <= c < stride ->
      f' (idx j c) = forward_entry j (e' j c) (f' (idx (j - 1) c))) ->
  (forall j c, 0 <= j < total -> 0 <= c < stride -> e j c = e' j c) ->
  forall j c, 0 <= j < total -> 0 <= c < stride -> f (idx j c) = f' (idx j c).
Proof.
  intros Hf Hf' He j c [Hj Hj'] Hc. revert Hj'. pattern j.
  apply natlike_ind; [| |exact Hj].
  - intros H0. rewrite Hf, Hf' by lia. unfold forward_entry, forward_multiplier.
    cbn [Z.leb Z.compare]. apply He; lia.
  - intros y Hy IH Hy'. unfold Z.succ in *.
    rewrite Hf, Hf' by lia. replace (y + 1 - 1) with y by lia.
    rewrite IH by lia. rewrite He by lia. reflexivity.
Qed.

(** So has the recurrence of the back substitution. *)
Lemma backward_unique (f f' a a' : Z -> float) (base stride total : Z) :
  1 <= total ->
  backward_done f base stride total 0 a ->
  backward_done f' base stride total 0 a' ->
  (forall j c, 0 <= j < total -> 0 <= c < stride ->
      f (base + stride * j + c) = f' (base + stride * j + c)) ->
  forall j c, 0 <= j < total -> 0 <= c < stride ->
    a (base + stride * j + c) = a' (base + stride * j + c).
Proof.
  intros Ht (_ & Dval & Dlast) (_ & Dval' & Dlast') Hf j c Hj Hc.
  replace j with (total - 1 - (total - 1 - j)) by lia.
  assert (Hd : 0 <= total - 1 - j <= total - 1) by lia.
  revert Hd. generalize (total - 1 - j). intros t [Ht0 Ht1]. revert Ht1. pattern t.
  apply natlike_ind; [| |exact Ht0].
  - intros _. replace (total - 1 - 0) with (total - 1) by lia.
    rewrite Dlast, Dlast' by lia. rewrite Hf by lia. reflexivity.
  - intros y Hy IH Hy'. unfold Z.succ in *.
    rewrite Dval, Dval' by lia.
    replace (total - 1 - (y + 1) + 1) with (total - 1 - y) by lia.
    rewrite IH by lia. rewrite Hf by lia. reflexivity.
Qed.

(** The pass along a row: the coefficients of the row are determined by the
    samples decoded from the [channels * n] units of [input_row]; the rest
    of the array is kept.  The two runs may be of the two engines. *)
Lemma solve_row_determined (s : float) (input_row input_row' : Z -> Z) (n i : Z)
    (a a' : Z -> float) :
  7 <= n ->
  (forall p, 0 <= p < 3 * n -> decode d (input_row p) = decode d' (input_row' p)) ->
  exists a1 a1',
    solve_row d s input_row n i a = Some a1
    /\ solve_row d' s input_row' n i a' = Some a1'
    /\ (forall q, q < i * (3 * n) \/ (i + 1) * (3 * n) <= q ->
          a1 q = a q /\ a1' q = a' q)
    /\ (forall q, i * (3 * n) <= q < (i + 1) * (3 * n) -> a1 q = a1' q).
Proof.
  intros Hn Hin.
  destruct (row_forward_spec d s input_row n i a Hn)
    as (w & Hfwd & H1 & H2 & H3 & Hframe & Hval).
  destruct (row_forward_spec d' s input_row' n i a' Hn)
    as (w' & Hfwd' & H1' & H2' & H3' & Hframe' & Hval').
  unfold channels in *.
  destruct (row_backward_spec n (i * (3 * n)) w Hn ltac:(lia) ltac:(lia))
    as (u & Hback & D).
  destruct (row_backward_spec n (i * (3 * n)) w' Hn ltac:(lia) ltac:(lia))
    as (u' & Hback' & D').
  exists (w_a u), (w_a u'). split.
  { unfold solve_row. rewrite Hfwd. cbn [bind]. rewrite Hback. reflexivity. }
  split.
  { unfold solve_row. rewrite Hfwd'. cbn [bind]. rewrite Hback'. reflexivity. }
  split.
  - intros q Hq. destruct D as (Dframe & _). destruct D' as (Dframe' & _). split.
    + rewrite Dframe by lia. apply Hframe. lia.
    + rewrite Dframe' by lia. apply Hframe'. lia.
  - intros q Hq.
    assert (Hf : forall j c, 0 <= j < n -> 0 <= c < 3 ->
               w_a w (i * (3 * n) + 3 * j + c) = w_a w' (i * (3 * n) + 3 * j + c)).
    { apply (forward_unique (w_a w) (w_a w')
               (fun j c => scaled_sample d s input_row (3 * j + c))
               (fun j c => scaled_sample d' s input_row' (3 * j + c))
               (fun j c => i * (3 * n) + 3 * j + c) n 3).
      - intros j c Hj Hc. apply Hval; lia.
      - intros j c Hj Hc. apply Hval'; lia.
      - intros j c Hj Hc. unfold scaled_sample. rewrite Hin by lia. reflexivity. }
    pose proof (backward_unique (w_a w) (w_a w') (w_a u) (w_a u') (i * (3 * n)) 3 n
                  ltac:(lia) D D' Hf) as Hb.
    pose proof (Z.div_mod (q - i * (3 * n)) 3 ltac:(lia)) as Hdm.
    pose proof (Z.mod_pos_bound (q - i * (3 * n)) 3 ltac:(lia)) as Hm.
    replace q with (i * (3 * n) + 3 * ((q - i * (3 * n)) / 3) + (q - i * (3 * n)) mod 3)
      by lia.
    apply Hb; [|exact Hm].
    split; [apply Z.div_pos; lia|apply Z.div_lt_upper_bound; lia].
Qed.

(** The pass down the columns: the first [m] rows of the result are
    determined by the first [m] rows of the array. *)
Lemma solve_columns_determined (m n : Z) (a a' : Z -> float) :
  7 <= m -> 1 <= n ->
  (forall q, 0 <= q < m * (3 * n) -> a q = a' q) ->
  exists a1 a1',
    solve_columns m n a = Some a1
    /\ solve_columns m n a' = Some a1'
    /\ (forall q, 0 <= q < m * (3 * n) -> a1 q = a1' q).
Proof.
  intros Hm Hn Ha.
  destruct (col_forward_spec m n a Hm Hn) as (Hi & H1 & H2 & Hframe & Hval).
  destruct (col_forward_spec m n a' Hm Hn) as (Hi' & H1' & H2' & Hframe' & Hval').
  unfold solve_columns.
  destruct (Z.leb_spec (channels * n) 0) as [Hc|Hc]; [unfold channels in *; lia|].
  do 2 eexists. split; [reflexivity|]. split; [reflexivity|].
  destruct (col_forward m n a) as [i1 w] eqn:E.
  destruct (col_forward m n a') as [i1' w'] eqn:E'.
  cbn [fst snd] in *. subst i1 i1'.
  pose proof (col_backward_spec m n w Hm Hn H1 H2) as D.
  pose proof (col_backward_spec m n w' Hm Hn H1' H2') as D'.
  unfold channels in *. set (width := 3 * n) in *.
  assert (Hf : forall r q, 0 <= r < m -> 0 <= q < width ->
             w_a w (0 + width * r + q) = w_a w' (0 + width * r + q)).
  { intros r q Hr Hq.
    replace (0 + width * r + q) with (r * width + q) by lia.
    apply (forward_unique (w_a w) (w_a w')
             (fun r q => a (r * width + q)) (fun r q => a' (r * width + q))
             (fun r q => r * width + q) m width); try assumption.
    - intros j c Hj Hc'. destruct (Z.eq_dec j 0) as [->|Hne].
      + unfold forward_entry, forward_multiplier. cbn [Z.leb Z.compare].
        apply Hframe. lia.
      + apply Hval; lia.
    - intros j c Hj Hc'. destruct (Z.eq_dec j 0) as [->|Hne].
      + unfold forward_entry, forward_multiplier. cbn [Z.leb Z.compare].
        apply Hframe'. lia.
      + apply Hval'; lia.
    - intros j c Hj Hc'. apply Ha. nia. }
  intros q Hq.
  pose proof (backward_unique (w_a w) (w_a w') _ _ 0 width m ltac:(lia) D D' Hf) as Hb.
  pose proof (Z.div_mod q width ltac:(lia)) as Hdm.
  pose proof (Z.mod_pos_bound q width ltac:(lia)) as Hmod.
  replace q with (0 + width * (q / width) + q mod width) by lia.
  apply Hb; [|exact Hmod].
  split; [apply Z.div_pos; lia|apply Z.div_lt_upper_bound; lia].
Qed.

Lemma store_from_agree {A : Type} (l : list A) :
  forall (buf buf' : Z -> A) (i : Z) (P : Z -> Prop),
    (forall q, P q -> buf q = buf' q) ->
    forall q, P q \/ i <= q < i + Z.of_nat (length l) ->
      store_from buf i l q = store_from buf' i l q.
Proof.
  induction l as [|v l IH]; intros buf buf' i P HP q Hq; cbn [store_from].
  - destruct Hq as [Hq|Hq]; [apply HP; exact Hq|cbn [length] in Hq; lia].
  - apply (IH (upd buf i v) (upd buf' i v) (i + 1) (fun q => P q \/ q = i)).
    + intros q' [Hq'| ->].
      * destruct (Z.eq_dec q' i) as [->|Hne]; [rewrite !upd_same; reflexivity|].
        rewrite !upd_other by exact Hne. apply HP. exact Hq'.
      * rewrite !upd_same. reflexivity.
    + cbn [length] in Hq. destruct Hq as [Hq|Hq]; [left; left; exact Hq|].
      destruct (Z.eq_dec q i) as [->|Hne]; [left; right; reflexivity|right; lia].
Qed.

Lemma nth_map_seq (f : nat -> Z) (start len k : nat) (d0 : Z) :
  (k < len)%nat -> nth k (map f (seq start len)) d0 = f (start + k)%nat.
Proof.
  intros Hk.
  rewrite (nth_indep _ d0 (f 0%nat)) by (rewrite length_map, length_seq; lia).
  rewrite (map_nth f). rewrite seq_nth by lia. reflexivity.
Qed.

Lemma store_from_nth (l : list Z) :
  forall (buf : Z -> Z) (i q : Z),
    store_from buf i l q
    = if (i <=? q) && (q <? i + Z.of_nat (length l))
      then nth (Z.to_nat (q - i)) l 0 else buf q.
Proof.
  induction l as [|v l IH]; intros buf i q; cbn [store_from length].
  - destruct (Z.leb_spec i q); destruct (Z.ltb_spec q (i + Z.of_nat 0));
      cbn [andb]; first [reflexivity | lia].
  - rewrite IH.
    destruct (Z.leb_spec (i + 1) q); destruct (Z.ltb_spec q (i + 1 + Z.of_nat (length l)));
      destruct (Z.leb_spec i q); destruct (Z.ltb_spec q (i + Z.of_nat (S (length l))));
      cbn [andb]; try lia.
    + replace (Z.to_nat (q - i)) with (S (Z.to_nat (q - (i + 1)))) by lia. reflexivity.
    + apply upd_other. lia.
    + assert (q = i) as -> by lia. rewrite upd_same.
      replace (Z.to_nat (i - i)) with 0%nat by lia. reflexivity.
    + apply upd_other. lia.
Qed.

(** A row read in full holds the units of the stream. *)
Lemma fread_row (n : Z) (file : list Z) (input_row : Z -> Z) (p : Z) :
  3 * n <= Z.of_nat (length file) -> 0 <= p < 3 * n ->
  store_from input_row 0 (firstn (Z.to_nat (3 * n)) file) p = nth (Z.to_nat p) file 0.
Proof.
  intros Hlen Hp. rewrite store_from_nth. rewrite length_firstn.
  destruct (Z.leb_spec 0 p); [|lia].
  destruct (Z.ltb_spec p (0 + Z.of_nat (Nat.min (Z.to_nat (3 * n)) (length file))));
    [|lia].
  cbn [andb]. rewrite nth_firstn.
  destruct (Nat.ltb_spec (Z.to_nat (p - 0)) (Z.to_nat (3 * n))); [|lia].
  f_equal. lia.
Qed.

(** Reading the rows: when two streams hold every row in full and carry the
    same samples, the first [m] rows of coefficients are the same, whatever
    the arrays held. *)
Lemma read_rows_determined (s : float) (m n : Z) :
  7 <= n ->
  forall (trips : nat) (i : Z) (file file' : list Z) (input_row input_row' : Z -> Z)
         (a a' : Z -> float),
    0 <= i < m -> m - i <= Z.of_nat trips ->
    (m - i) * (3 * n) <= Z.of_nat (length file) ->
    (m - i) * (3 * n) <= Z.of_nat (length file') ->
    (forall q, 0 <= q < (m - i) * (3 * n) ->
        decode d (nth (Z.to_nat q) file 0) = decode d' (nth (Z.to_nat q) file' 0)) ->
    (forall q, 0 <= q < i * (3 * n) -> a q = a' q) ->
    exists res res',
      read_rows d trips s m n i file input_row a = Some (inr res)
      /\ read_rows d' trips s m n i file' input_row' a' = Some (inr res')
      /\ forall q, 0 <= q < m * (3 * n) -> snd res q = snd res' q.
Proof.
  intros Hn. induction trips as [|trips IH];
    intros i file file' input_row input_row' a a' Hi Htrips Hlen Hlen' Hsame Ha; [lia|].
  cbn [read_rows]. unfold fread, channels.
  assert (Hgot : Z.of_nat (length (firstn (Z.to_nat (3 * n)) file)) = 3 * n).
  { rewrite length_firstn. nia. }
  assert (Hgot' : Z.of_nat (length (firstn (Z.to_nat (3 * n)) file')) = 3 * n).
  { rewrite length_firstn. nia. }
  rewrite Hgot, Hgot'. destruct (Z.eqb_spec (3 * n) 0) as [E|_]; [lia|].
  set (row := store_from input_row 0 (firstn (Z.to_nat (3 * n)) file)).
  set (row' := store_from input_row' 0 (firstn (Z.to_nat (3 * n)) file')).
  assert (Hrow : forall p, 0 <= p < 3 * n -> decode d (row p) = decode d' (row' p)).
  { intros p Hp. subst row row'. rewrite !fread_row by nia. apply Hsame. nia. }
  destruct (solve_row_determined s row row' n i a a' Hn Hrow)
    as (a1 & a1' & E1 & E1' & Hframe & Hdet).
  rewrite E1, E1'. cbn [bind].
  assert (Hnext : forall q, 0 <= q < (i + 1) * (3 * n) -> a1 q = a1' q).
  { intros q Hq. destruct (Z_lt_le_dec q (i * (3 * n))) as [Hold|Hnew].
    - destruct (Hframe q ltac:(lia)) as [-> ->]. apply Ha. lia.
    - apply Hdet. lia. }
  destruct (Z.ltb_spec (i + 1) m) as [Hc|Hc].
  - apply IH; [lia|lia| | | |exact Hnext].
    + rewrite length_skipn. nia.
    + rewrite length_skipn. nia.
    + intros q Hq. rewrite !nth_skipn.
      replace (Z.to_nat (3 * n) + Z.to_nat q)%nat with (Z.to_nat (3 * n + q)) by lia.
      apply Hsame. nia.
  - assert (i + 1 = m) by lia. subst m.
    do 2 eexists. split; [reflexivity|]. split; [reflexivity|exact Hnext].
Qed.

(** The overlap map computed does not depend on the content of its array. *)
Lemma last_overlapping_index_determined (iters fuel : nat) (o oo : Z)
    (map map' : Z -> Z) :
  2 <= o <= oo -> o * oo <= CInt.INT_MAX ->
  o <= Z.of_nat iters -> oo <= Z.of_nat fuel ->
  exists lo lo',
    last_overlapping_index iters fuel o oo map = Some lo
    /\ last_overlapping_index iters fuel o oo map' = Some lo'
    /\ overlap_ok o oo lo
    /\ forall k, 0 <= k <= o - 2 -> lo' k = lo k.
Proof.
  intros Ho Hfit Hiters Hfuel.
  destruct (last_overlapping_index_ok iters fuel o oo map Ho Hfit Hiters Hfuel)
    as (lo & Hrun & Hok).
  destruct (Z.eq_dec oo o) as [->|Hne].
  - destruct (last_overlapping_index_same iters fuel o o map)
      as (lo1 & Hrun1 & _ & Hval1); try lia.
    { unfold CInt.INT_MAX in *. nia. }
    destruct (last_overlapping_index_same iters fuel o o map')
      as (lo2 & Hrun2 & _ & Hval2); try lia.
    { unfold CInt.INT_MAX in *. nia. }
    rewrite Hrun in Hrun1. injection Hrun1 as <-.
    exists lo, lo2. split; [exact Hrun|]. split; [exact Hrun2|].
    split; [exact Hok|]. intros k Hk. rewrite Hval1, Hval2 by lia. reflexivity.
  - destruct (last_overlapping_index_upsize iters fuel o oo map)
      as (lo1 & Hrun1 & _ & Hval1); try lia.
    destruct (last_overlapping_index_upsize iters fuel o oo map')
      as (lo2 & Hrun2 & _ & Hval2); try lia.
    rewrite Hrun in Hrun1. injection Hrun1 as <-.
    exists lo, lo2. split; [exact Hrun|]. split; [exact Hrun2|].
    split; [exact Hok|]. intros k Hk.
    pose proof (Hval1 k Hk). pose proof (Hval2 k Hk). nia.
Qed.

End Determinacy.

(** ** What the samples written depend on *)

Section SampleDependence.

Context {FO : FloatOps}.
Variable d : depth.

Lemma coarse_column_from_agree (lo lo' : Z -> Z) (o k : Z) :
  (forall j, 0 <= j <= o - 2 -> lo' j = lo j) ->
  forall (trips : nat) (j0 : Z),
    0 <= j0 -> j0 + Z.of_nat trips <= o - 1 ->
    coarse_column_from trips lo' j0 k = coarse_column_from trips lo j0 k.
Proof.
  intros Hlo. induction trips as [|trips IH]; intros j0 Hj0 Hend; [reflexivity|].
  cbn [coarse_column_from]. rewrite Hlo by lia.
  destruct (k <=? lo j0); [reflexivity|]. apply IH; lia.
Qed.

Lemma coarse_column_agree (lo lo' : Z -> Z) (o k : Z) :
  1 <= o ->
  (forall j, 0 <= j <= o - 2 -> lo' j = lo j) ->
  coarse_column lo' o k = coarse_column lo o k.
Proof.
  intros Ho Hlo. unfold coarse_column.
  apply (coarse_column_from_agree lo lo' o k Hlo); lia.
Qed.

Lemma coarse_column_from_bounds (lo : Z -> Z) (k : Z) :
  forall (trips : nat) (j0 : Z),
    let j := coarse_column_from trips lo j0 k in
    j0 <= j <= j0 + Z.of_nat trips
    /\ (j < j0 + Z.of_nat trips -> k <= lo j)
    /\ (j0 < j -> lo (j - 1) < k).
Proof.
  induction trips as [|trips IH]; intros j0; cbn [coarse_column_from].
  - cbv zeta. lia.
  - destruct (Z.leb_spec k (lo j0)) as [Hin|Hout].
    + cbv zeta. lia.
    + specialize (IH (j0 + 1)). cbv zeta in *.
      destruct IH as (H1 & H2 & H3). split; [lia|]. split.
      * intros H. apply H2. lia.
      * intros H.
        destruct (Z.eq_dec (coarse_column_from trips lo (j0 + 1) k) (j0 + 1)) as [E|E].
        -- rewrite E. replace (j0 + 1 - 1) with j0 by lia. exact Hout.
        -- apply H3. lia.
Qed.

(** The coarse cell found for the fine cell [k]: it lies on the axis, and
    [k] lies after the last fine cell of the cell before and not after its
    own last fine cell. *)
Lemma coarse_column_bounds (lo : Z -> Z) (o k : Z) :
  1 <= o ->
  let j := coarse_column lo o k in
  0 <= j <= o - 1 /\ (j <= o - 2 -> k <= lo j) /\ (1 <= j -> lo (j - 1) < k).
Proof.
  intros Ho. unfold coarse_column.
  pose proof (coarse_column_from_bounds lo k (Z.to_nat (o - 1)) 0) as H.
  cbv zeta in *. destruct H as (H1 & H2 & H3).
  split; [lia|]. split; intros; [apply H2|apply H3]; lia.
Qed.

Lemma Forall2_map_same {A B C : Type} (R : B -> C -> Prop) (f : A -> B) (g : A -> C)
    (l : list A) :
  Forall (fun x => R (f x) (g x)) l -> Forall2 R (map f l) (map g l).
Proof. induction 1; cbn [map]; constructor; assumption. Qed.

Section Windows.

Variables a a' : Z -> float.
Variables m n : Z.
Hypothesis n_min : 4 <= n.
Hypothesis a_agree : forall q, 0 <= q < m * (3 * n) -> a q = a' q.

(** The offset of a row of coefficients inside the array. *)
Local Abbreviation row_inside :=
  (fun p : Z => exists r, 0 <= r < m /\ p = r * (3 * n)).

Lemma entry_agree (p col c : Z) :
  row_inside p -> 0 <= col <= n - 1 -> 0 <= c < 3 ->
  a (p + 3 * col + c) = a' (p + 3 * col + c).
Proof.
  intros (r & Hr & ->) Hcol Hc. apply a_agree.
  assert ((r + 1) * (3 * n) <= m * (3 * n)) by nia. nia.
Qed.

Lemma tap_window_agree (p j c : Z) :
  row_inside p -> 0 <= j <= n - 1 -> 0 <= c < 3 ->
  (1 <= j -> a_left (tap_window a p j) c = a_left (tap_window a' p j) c)
  /\ a_center (tap_window a p j) c = a_center (tap_window a' p j) c
  /\ (j <= n - 2 -> a_right (tap_window a p j) c = a_right (tap_window a' p j) c)
  /\ (j <= n - 3 ->
      a_farright (tap_window a p j) c = a_farright (tap_window a' p j) c).
Proof.
  intros Hp Hj Hc. unfold tap_window, channels.
  cbn [a_left a_center a_right a_farright].
  repeat split; intros; apply entry_agree; try assumption; lia.
Qed.

Lemma farbottom_window_agree (b fb j c : Z) :
  row_inside b -> row_inside fb -> 0 <= j <= n - 1 -> 0 <= c < 3 ->
  (1 <= j ->
   a_left (farbottom_window a b fb n j) c = a_left (farbottom_window a' b fb n j) c)
  /\ a_center (farbottom_window a b fb n j) c
     = a_center (farbottom_window a' b fb n j) c
  /\ (j <= n - 2 ->
      a_right (farbottom_window a b fb n j) c
      = a_right (farbottom_window a' b fb n j) c)
  /\ (j <= n - 3 ->
      a_farright (farbottom_window a b fb n j) c
      = a_farright (farbottom_window a' b fb n j) c).
Proof.
  intros Hb Hfb Hj Hc. unfold farbottom_window.
  destruct (Z.eqb_spec j 0) as [->|Hne].
  - apply tap_window_agree; [exact Hfb|lia|exact Hc].
  - unfold channels. cbn [a_left a_center a_right a_farright].
    destruct (Z.ltb_spec j (n - 1)); destruct (Z.ltb_spec j (n - 2));
      repeat split; intros; apply entry_agree; try assumption; lia.
Qed.

(** The windows read by index from two arrays that agree inside hold the
    same coefficient in every tap that lies inside. *)
Lemma direct_windows_agree (kind : row_kind) (rows : list Z) (j c : Z) :
  Forall row_inside rows -> 0 <= j <= n - 1 -> 0 <= c < 3 ->
  let wins := direct_windows kind a rows n j in
  let wins' := direct_windows kind a' rows n j in
  (1 <= j -> Forall2 (fun w w' => a_left w c = a_left w' c) wins wins')
  /\ Forall2 (fun w w' => a_center w c = a_center w' c) wins wins'
  /\ (j <= n - 2 -> Forall2 (fun w w' => a_right w c = a_right w' c) wins wins')
  /\ (j <= n - 3 -> Forall2 (fun w w' => a_farright w c = a_farright w' c) wins wins').
Proof.
  intros Hrows Hj Hc. cbv zeta.
  destruct (kind_cases kind rows) as [(t & mi & b & fb & -> & ->)|[Hd _]].
  - cbn [direct_windows].
    inversion Hrows as [|? ? Ht H1]; subst. inversion H1 as [|? ? Hm H2]; subst.
    inversion H2 as [|? ? Hb H3]; subst. inversion H3 as [|? ? Hfb H4]; subst.
    pose proof (tap_window_agree t j c Ht Hj Hc) as (T1 & T2 & T3 & T4).
    pose proof (tap_window_agree mi j c Hm Hj Hc) as (M1 & M2 & M3 & M4).
    pose proof (tap_window_agree b j c Hb Hj Hc) as (B1 & B2 & B3 & B4).
    pose proof (farbottom_window_agree b fb j c Hb Hfb Hj Hc) as (F1 & F2 & F3 & F4).
    repeat split; intros; repeat constructor; auto.
  - rewrite !Hd.
    repeat split; intros; apply Forall2_map_same;
      (eapply Forall_impl; [|exact Hrows]); intros p Hp; cbv beta;
      apply (tap_window_agree p j c Hp Hj Hc); assumption.
Qed.

End Windows.

Section Samples.

Variables a a' : Z -> float.
Variables horizontal horizontal' vertical vertical' : bands.
Variables last_overlapping_jj last_overlapping_jj' : Z -> Z.
Variables last_overlapping_ii last_overlapping_ii' : Z -> Z.
Variables m n mm nn : Z.
Hypothesis n_min : 4 <= n.
Hypothesis m_min : 4 <= m.
Hypothesis a_agree : forall q, 0 <= q < m * (3 * n) -> a q = a' q.
Hypothesis jj_ok : overlap_ok n nn last_overlapping_jj.
Hypothesis ii_ok : overlap_ok m mm last_overlapping_ii.
Hypothesis jj_agree :
  forall k, 0 <= k <= n - 2 -> last_overlapping_jj' k = last_overlapping_jj k.
Hypothesis ii_agree :
  forall k, 0 <= k <= m - 2 -> last_overlapping_ii' k = last_overlapping_ii k.
Hypothesis horizontal_agree :
  bands_agree (last_overlapping_jj 0) (nn - 1) (nn - 1) (last_overlapping_jj (n - 2))
    (n - 2) horizontal horizontal'.
Hypothesis vertical_agree :
  bands_agree (last_overlapping_ii 0) (mm - 1) (mm - 1) (last_overlapping_ii (m - 2))
    (m - 2) vertical vertical'.

Lemma direct_value_agree (kind : row_kind) (weights : list float) (rows : list Z)
    (jj c : Z) :
  Forall (fun p => exists r, 0 <= r < m /\ p = r * (3 * n)) rows ->
  0 <= jj < nn -> 0 <= c < 3 ->
  direct_value kind a weights horizontal last_overlapping_jj n rows jj c
  = direct_value kind a' weights horizontal' last_overlapping_jj' n rows jj c.
Proof.
  intros Hrows Hjj Hc. unfold direct_value.
  rewrite (coarse_column_agree last_overlapping_jj last_overlapping_jj' n jj)
    by (exact jj_agree || lia).
  pose proof (coarse_column_bounds last_overlapping_jj n jj ltac:(lia)) as Hb.
  cbv zeta in Hb. set (j := coarse_column last_overlapping_jj n jj) in *.
  destruct Hb as (Hj & Hhigh & Hlow).
  pose proof (overlap_ok_monotone n nn last_overlapping_jj jj_ok) as Hmono.
  destruct (direct_windows_agree a a' m n n_min a_agree kind rows j c Hrows Hj Hc)
    as (WL & WC & WR & WF).
  destruct horizontal_agree as (HL & HC & HR & HF).
  set (wins := direct_windows kind a rows n j) in *.
  set (wins' := direct_windows kind a' rows n j) in *.
  destruct (Z.eqb_spec j 0) as [Hj0|Hj0].
  - rewrite (jj_agree 0) by lia.
    pose proof (Hhigh ltac:(lia)) as Hle. rewrite Hj0 in Hle.
    pose proof (Hmono 0 (n - 2) ltac:(lia) ltac:(lia) ltac:(lia)) as Hm0.
    destruct (Z.eqb_spec jj (last_overlapping_jj 0)) as [Hat|Hin].
    + unfold value_first_boundary, value_first.
      rewrite (tap_sum_agree weights wins wins' a_center c WC).
      rewrite (tap_sum_agree weights wins wins' a_right c (WR ltac:(lia))).
      rewrite (tap_sum_agree weights wins wins' a_farright c (WF ltac:(lia))).
      rewrite (HC jj), (HR jj), (HF 0) by lia. reflexivity.
    + unfold value_first.
      rewrite (tap_sum_agree weights wins wins' a_center c WC).
      rewrite (tap_sum_agree weights wins wins' a_right c (WR ltac:(lia))).
      rewrite (HC jj), (HR jj) by lia. reflexivity.
  - pose proof (Hlow ltac:(lia)) as Hgt.
    pose proof (Hmono 0 (j - 1) ltac:(lia) ltac:(lia) ltac:(lia)) as Hm0.
    destruct (Z.ltb_spec j (n - 2)) as [Hint|Hend].
    + rewrite (jj_agree j) by lia.
      pose proof (Hhigh ltac:(lia)) as Hle.
      pose proof (Hmono j (n - 2) ltac:(lia) ltac:(lia) ltac:(lia)) as Hm1.
      destruct (Z.eqb_spec jj (last_overlapping_jj j)) as [Hat|Hin].
      * unfold value_interior_boundary, value_interior.
        rewrite (tap_sum_agree weights wins wins' a_left c (WL ltac:(lia))).
        rewrite (tap_sum_agree weights wins wins' a_center c WC).
        rewrite (tap_sum_agree weights wins wins' a_right c (WR ltac:(lia))).
        rewrite (tap_sum_agree weights wins wins' a_farright c (WF ltac:(lia))).
        rewrite (HL jj), (HC jj), (HR jj), (HF j) by lia. reflexivity.
      * unfold value_interior.
        rewrite (tap_sum_agree weights wins wins' a_left c (WL ltac:(lia))).
        rewrite (tap_sum_agree weights wins wins' a_center c WC).
        rewrite (tap_sum_agree weights wins wins' a_right c (WR ltac:(lia))).
        rewrite (HL jj), (HC jj), (HR jj) by lia. reflexivity.
    + destruct (Z.eqb_spec j (n - 2)) as [Hst|Hlast].
      * pose proof (Hhigh ltac:(lia)) as Hle. rewrite Hst in Hle.
        unfold value_interior.
        rewrite (tap_sum_agree weights wins wins' a_left c (WL ltac:(lia))).
        rewrite (tap_sum_agree weights wins wins' a_center c WC).
        rewrite (tap_sum_agree weights wins wins' a_right c (WR ltac:(lia))).
        rewrite (HL jj), (HC jj), (HR jj) by lia. reflexivity.
      * unfold value_last.
        rewrite (tap_sum_agree weights wins wins' a_left c (WL ltac:(lia))).
        rewrite (tap_sum_agree weights wins wins' a_center c WC).
        rewrite (HL jj), (HC jj) by lia. reflexivity.
Qed.

Lemma fine_row_kind_agree (ii : Z) :
  fine_row_kind last_overlapping_ii' m ii = fine_row_kind last_overlapping_ii m ii.
Proof.
  unfold fine_row_kind.
  rewrite (coarse_column_agree last_overlapping_ii last_overlapping_ii' m ii)
    by (exact ii_agree || lia).
  pose proof (coarse_column_bounds last_overlapping_ii m ii ltac:(lia)) as Hb.
  cbv zeta in Hb. set (i := coarse_column last_overlapping_ii m ii) in *.
  rewrite (ii_agree 0) by lia.
  destruct (Z.eqb_spec i 0); [reflexivity|].
  destruct (Z.ltb_spec i (m - 2)); [|reflexivity].
  rewrite (ii_agree i) by lia. reflexivity.
Qed.

(** The sample read by index is the same for two sets of data that agree
    on the coefficients of the image, on the entries of the overlap maps
    and on the band coefficients written by the generator. *)
Lemma direct_sample_value_agree (ii jj c : Z) :
  0 <= ii < mm -> 0 <= jj < nn -> 0 <= c < 3 ->
  direct_sample_value a horizontal vertical last_overlapping_jj last_overlapping_ii
                      m n ii jj c
  = direct_sample_value a' horizontal' vertical' last_overlapping_jj'
                        last_overlapping_ii' m n ii jj c.
Proof.
  intros Hii Hjj Hc. unfold direct_sample_value. rewrite fine_row_kind_agree.
  rewrite (coarse_column_agree last_overlapping_ii last_overlapping_ii' m ii)
    by (exact ii_agree || lia).
  pose proof (coarse_column_bounds last_overlapping_ii m ii ltac:(lia)) as Hb.
  cbv zeta in Hb. unfold fine_row_kind.
  set (i := coarse_column last_overlapping_ii m ii) in *.
  destruct Hb as (Hi & Hhigh & Hlow).
  pose proof (overlap_ok_monotone m mm last_overlapping_ii ii_ok) as Hmono.
  destruct vertical_agree as (VL & VC & VR & VF).
  assert (Hgoal : forall kind,
            row_weights vertical kind i ii = row_weights vertical' kind i ii ->
            Forall (fun p => exists r, 0 <= r < m /\ p = r * (3 * n))
                   (row_offsets m n kind i) ->
            direct_value kind a (row_weights vertical kind i ii) horizontal
                         last_overlapping_jj n (row_offsets m n kind i) jj c
            = direct_value kind a' (row_weights vertical' kind i ii) horizontal'
                           last_overlapping_jj' n (row_offsets m n kind i) jj c).
  { intros kind Hw Hrows. rewrite <- Hw. apply direct_value_agree; assumption. }
  destruct (Z.eqb_spec i 0) as [Hi0|Hi0].
  - pose proof (Hhigh ltac:(lia)) as Hle. rewrite Hi0 in Hle.
    pose proof (Hmono 0 (m - 2) ltac:(lia) ltac:(lia) ltac:(lia)) as Hm0.
    destruct (Z.eqb_spec ii (last_overlapping_ii 0)) as [Hat|Hin]; apply Hgoal.
    + cbn [row_weights]. rewrite (VC ii), (VR ii), (VF 0) by lia. reflexivity.
    + cbn [row_offsets]. unfold channels.
      constructor; [exists 0; lia|]. constructor; [exists 1; lia|].
      constructor; [exists 2; lia|constructor].
    + cbn [row_weights]. rewrite (VC ii), (VR ii) by lia. reflexivity.
    + cbn [row_offsets]. unfold channels.
      constructor; [exists 0; lia|]. constructor; [exists 1; lia|constructor].
  - pose proof (Hlow ltac:(lia)) as Hgt.
    pose proof (Hmono 0 (i - 1) ltac:(lia) ltac:(lia) ltac:(lia)) as Hm0.
    destruct (Z.ltb_spec i (m - 2)) as [Hint|Hend].
    + pose proof (Hhigh ltac:(lia)) as Hle.
      pose proof (Hmono i (m - 2) ltac:(lia) ltac:(lia) ltac:(lia)) as Hm1.
      destruct (Z.eqb_spec ii (last_overlapping_ii i)) as [Hat|Hin]; apply Hgoal.
      * cbn [row_weights]. rewrite (VL ii), (VC ii), (VR ii), (VF i) by lia.
        reflexivity.
      * cbn [row_offsets]. unfold channels.
        constructor; [exists (i - 1); lia|]. constructor; [exists i; lia|].
        constructor; [exists (i + 1); lia|].
        constructor; [exists (i + 2); lia|constructor].
      * cbn [row_weights]. rewrite (VL ii), (VC ii), (VR ii) by lia. reflexivity.
      * cbn [row_offsets]. unfold channels.
        constructor; [exists (i - 1); lia|]. constructor; [exists i; lia|].
        constructor; [exists (i + 1); lia|constructor].
    + destruct (Z.eqb_spec i (m - 2)) as [Hst|Hlast]; apply Hgoal.
      * pose proof (Hhigh ltac:(lia)) as Hle. rewrite Hst in Hle.
        cbn [row_weights]. rewrite (VL ii), (VC ii), (VR ii) by lia. reflexivity.
      * cbn [row_offsets]. unfold channels.
        constructor; [exists (m - 3); lia|]. constructor; [exists (m - 2); lia|].
        constructor; [exists (m - 1); lia|constructor].
      * cbn [row_weights]. rewrite (VL ii), (VC ii) by lia. reflexivity.
      * cbn [row_offsets]. unfold channels.
        constructor; [exists (m - 2); lia|]. constructor; [exists (m - 1); lia|constructor].
Qed.

Lemma direct_sample_agree (ii jj c : Z) :
  0 <= ii < mm -> 0 <= jj < nn -> 0 <= c < 3 ->
  direct_sample d a horizontal vertical last_overlapping_jj last_overlapping_ii
                m n ii jj c
  = direct_sample d a' horizontal' vertical' last_overlapping_jj' last_overlapping_ii'
                  m n ii jj c.
Proof.
  intros Hii Hjj Hc.
  change (ROUND_AND_CLAMP_TO_065535 d
            (direct_sample_value a horizontal vertical last_overlapping_jj
                                 last_overlapping_ii m n ii jj c)
          = ROUND_AND_CLAMP_TO_065535 d
              (direct_sample_value a' horizontal' vertical' last_overlapping_jj'
                                   last_overlapping_ii' m n ii jj c)).
  rewrite direct_sample_value_agree by assumption. reflexivity.
Qed.

End Samples.

End SampleDependence.

(** ** How far the farbottom taps of the bottom row reach *)

Section DefectExtent.

Context {FO : FloatOps}.
Variable d : depth.

Lemma direct_value_analogous (kind : row_kind) (a : Z -> float) (weights : list float)
    (horizontal : bands) (last_overlapping_jj : Z -> Z) (n : Z) (rows : list Z)
    (jj c : Z) :
  kind <> InteriorLast \/ coarse_column last_overlapping_jj n jj = 0 ->
  direct_value kind a weights horizontal last_overlapping_jj n rows jj c
  = analogous_value a weights horizontal last_overlapping_jj n rows jj c.
Proof.
  intros H. unfold direct_value, analogous_value.
  assert (E : direct_windows kind a rows n (coarse_column last_overlapping_jj n jj)
              = map (fun p => tap_window a p (coarse_column last_overlapping_jj n jj))
                    rows).
  { destruct H as [Hk|Hj].
    - destruct kind; try reflexivity. congruence.
    - rewrite Hj.
      destruct (kind_cases kind rows) as [(t & mi & b & fb & -> & ->)|[Hd _]].
      + reflexivity.
      + apply Hd. }
  rewrite E. reflexivity.
Qed.

(** The farbottom taps taken from the bottom row reach few samples: in
    every fine row that is not the last one overlapping an interior coarse
    row [1 .. m-3], and in every fine column up to the last one overlapping
    coarse column 0, the unit written carries the sample computed with the
    taps of all rows read alike. *)
Theorem synthesize_defect_confined (a : Z -> float) (horizontal vertical : bands)
    (last_overlapping_jj last_overlapping_ii : Z -> Z) (m n mm nn : Z)
    (a_left0 : Z -> float) (output_row0 : Z -> Z) :
  4 <= n -> 4 <= m ->
  overlap_ok n nn last_overlapping_jj -> overlap_ok m mm last_overlapping_ii ->
  forall ii jj c, 0 <= ii < mm -> 0 <= jj < nn -> 0 <= c < channels ->
    (forall i, 1 <= i <= m - 3 -> ii <> last_overlapping_ii i)
    \/ jj <= last_overlapping_jj 0 ->
    exists row,
      nth_error
        (outputfile (synthesize d a horizontal vertical last_overlapping_jj
                                last_overlapping_ii m n mm nn a_left0 output_row0))
        (Z.to_nat ii) = Some row
      /\ nth_error row (Z.to_nat (channels * jj + c))
         = Some (encode d (analogous_sample d a horizontal vertical last_overlapping_jj
                                            last_overlapping_ii m n ii jj c)).
Proof.
  intros Hn Hm Hjj Hii ii jj c Hi Hj Hc Hwhere.
  destruct (synthesize_direct d a horizontal vertical last_overlapping_jj
              last_overlapping_ii m n mm nn a_left0 Hn Hm Hjj Hii output_row0)
    as [_ Hrows].
  destruct (Hrows ii jj c Hi Hj Hc) as (row & Hrow & Hunit).
  exists row. split; [exact Hrow|]. rewrite Hunit. do 2 f_equal.
  unfold direct_sample, analogous_sample. f_equal.
  apply direct_value_analogous.
  destruct Hwhere as [Hrows_ok|Hcol].
  - left. unfold fine_row_kind.
    pose proof (coarse_column_bounds last_overlapping_ii m ii ltac:(lia)) as Hb.
    cbv zeta in Hb. set (i := coarse_column last_overlapping_ii m ii) in *.
    destruct (Z.eqb_spec i 0).
    + destruct (ii =? last_overlapping_ii 0); discriminate.
    + destruct (Z.ltb_spec i (m - 2)).
      * destruct (Z.eqb_spec ii (last_overlapping_ii i)) as [E|_]; [|discriminate].
        exfalso. apply (Hrows_ok i); [lia|exact E].
      * destruct (i =? m - 2); discriminate.
  - right. apply (coarse_column_spec n nn last_overlapping_jj 0 jj Hjj); lia.
Qed.

End DefectExtent.

(** ** [scale_up] and the content of the storage it is given *)

Section StorageIndependence.

Context {FO : FloatOps}.
Variable d : depth.

Lemma overlap_ok_agree (o oo : Z) (lo lo' : Z -> Z) :
  2 <= o -> overlap_ok o oo lo ->
  (forall k, 0 <= k <= o - 2 -> lo' k = lo k) ->
  overlap_ok o oo lo'.
Proof.
  intros Ho (H0 & Hinc & Hlast) Hlo. unfold overlap_ok.
  rewrite (Hlo 0), (Hlo (o - 2)) by lia.
  split; [exact H0|]. split; [|exact Hlast].
  intros k Hk. rewrite (Hlo k), (Hlo (k + 1)) by lia. apply Hinc. exact Hk.
Qed.

(** Two states of the row loops that hold the same samples in rows of the
    same length have written the same stream. *)
Lemma rows_filled_equal (sample sample' : Z -> Z -> Z -> Z) (nn mm : Z) (s s' : synth) :
  rows_filled d sample nn mm s -> rows_filled d sample' nn mm s' ->
  rows_done d nn mm s -> rows_done d nn mm s' ->
  (forall k jj c, 0 <= k < mm -> 0 <= jj < nn -> 0 <= c < 3 ->
      sample k jj c = sample' k jj c) ->
  outputfile s = outputfile s'.
Proof.
  intros [Hlen Hrows] [Hlen' Hrows'] [_ Hdone] [_ Hdone'] Hsame.
  apply nth_error_ext. intros k.
  destruct (nth_error (outputfile s) k) as [row|] eqn:E;
    destruct (nth_error (outputfile s') k) as [row'|] eqn:E'.
  - f_equal.
    assert (Hk : 0 <= Z.of_nat k < mm).
    { pose proof (proj1 (nth_error_Some (outputfile s) k) ltac:(rewrite E; discriminate)).
      lia. }
    assert (Hl : Z.of_nat (length row) = 3 * nn).
    { rewrite Forall_forall in Hdone.
      destruct (Hdone row (nth_error_In _ _ E)) as [Hl _]. exact Hl. }
    assert (Hl' : Z.of_nat (length row') = 3 * nn).
    { rewrite Forall_forall in Hdone'.
      destruct (Hdone' row' (nth_error_In _ _ E')) as [Hl' _]. exact Hl'. }
    apply nth_error_ext. intros q.
    destruct (Z_lt_le_dec (Z.of_nat q) (3 * nn)) as [Hq|Hq].
    + pose proof (Z.div_mod (Z.of_nat q) 3 ltac:(lia)) as Hdm.
      pose proof (Z.mod_pos_bound (Z.of_nat q) 3 ltac:(lia)) as Hm.
      assert (Hjj : 0 <= Z.of_nat q / 3 < nn)
        by (split; [apply Z.div_pos; lia|apply Z.div_lt_upper_bound; lia]).
      destruct (Hrows (Z.of_nat k) (Z.of_nat q / 3) (Z.of_nat q mod 3) Hk Hjj Hm)
        as (r1 & Hr1 & Hu1).
      destruct (Hrows' (Z.of_nat k) (Z.of_nat q / 3) (Z.of_nat q mod 3) Hk Hjj Hm)
        as (r1' & Hr1' & Hu1').
      rewrite Nat2Z.id in Hr1, Hr1'. rewrite E in Hr1. rewrite E' in Hr1'.
      injection Hr1 as <-. injection Hr1' as <-.
      unfold channels in *.
      replace (Z.to_nat (3 * (Z.of_nat q / 3) + Z.of_nat q mod 3)) with q in Hu1, Hu1'
        by lia.
      rewrite Hu1, Hu1'. rewrite Hsame by assumption. reflexivity.
    + rewrite (proj2 (nth_error_None row q)) by lia.
      rewrite (proj2 (nth_error_None row' q)) by lia. reflexivity.
  - pose proof (proj1 (nth_error_Some (outputfile s) k) ltac:(rewrite E; discriminate)).
    pose proof (proj1 (nth_error_None (outputfile s') k) E'). lia.
  - pose proof (proj1 (nth_error_Some (outputfile s') k) ltac:(rewrite E'; discriminate)).
    pose proof (proj1 (nth_error_None (outputfile s) k) E). lia.
  - reflexivity.
Qed.

(** The row loops read the coefficients of the image only inside its [m]
    rows of [channels * n] entries (the farbottom taps of the last fine row
    of an interior coarse row included), of the band arrays only the entries
    that the generator writes, of the overlap maps only their [o - 1]
    entries, and neither the left taps nor the output buffer before they
    are assigned: data that agree there give the same stream. *)
Theorem synthesize_reads_inside (a a' : Z -> float)
    (horizontal horizontal' vertical vertical' : bands)
    (last_overlapping_jj last_overlapping_jj' : Z -> Z)
    (last_overlapping_ii last_overlapping_ii' : Z -> Z) (m n mm nn : Z)
    (a_left0 a_left0' : Z -> float) (output_row0 output_row0' : Z -> Z) :
  4 <= n -> 4 <= m ->
  overlap_ok n nn last_overlapping_jj -> overlap_ok m mm last_overlapping_ii ->
  (forall q, 0 <= q < m * (channels * n) -> a q = a' q) ->
  (forall k, 0 <= k <= n - 2 -> last_overlapping_jj' k = last_overlapping_jj k) ->
  (forall k, 0 <= k <= m - 2 -> last_overlapping_ii' k = last_overlapping_ii k) ->
  bands_agree (last_overlapping_jj 0) (nn - 1) (nn - 1) (last_overlapping_jj (n - 2))
    (n - 2) horizontal horizontal' ->
  bands_agree (last_overlapping_ii 0) (mm - 1) (mm - 1) (last_overlapping_ii (m - 2))
    (m - 2) vertical vertical' ->
  outputfile (synthesize d a horizontal vertical last_overlapping_jj
                         last_overlapping_ii m n mm nn a_left0 output_row0)
  = outputfile (synthesize d a' horizontal' vertical' last_overlapping_jj'
                           last_overlapping_ii' m n mm nn a_left0' output_row0').
Proof.
  intros Hn Hm Hjj_ok Hii_ok Ha Hjj Hii HH HV. unfold channels in Ha.
  pose proof (overlap_ok_agree n nn _ _ ltac:(lia) Hjj_ok Hjj) as Hjj_ok'.
  pose proof (overlap_ok_agree m mm _ _ ltac:(lia) Hii_ok Hii) as Hii_ok'.
  assert (Hnn : 0 <= nn).
  { pose proof (overlap_ok_monotone n nn _ Hjj_ok 0 (n - 2)).
    destruct Hjj_ok as (H0 & _ & Hlast). lia. }
  eapply rows_filled_equal.
  - apply (synthesize_direct d a horizontal vertical last_overlapping_jj
             last_overlapping_ii m n mm nn a_left0); assumption.
  - apply (synthesize_direct d a' horizontal' vertical' last_overlapping_jj'
             last_overlapping_ii' m n mm nn a_left0'); assumption.
  - apply synthesize_spec; assumption.
  - apply synthesize_spec; assumption.
  - intros k jj c Hk Hjj' Hc.
    apply (direct_sample_agree d a a' horizontal horizontal' vertical vertical'
             last_overlapping_jj last_overlapping_jj' last_overlapping_ii
             last_overlapping_ii' m n mm nn); assumption.
Qed.

Lemma rows_filled_ext (d0 : depth) (sample sample' : Z -> Z -> Z -> Z) (nn ii : Z)
    (s : synth) :
  (forall k jj c, 0 <= k < ii -> 0 <= jj < nn -> 0 <= c < channels ->
      sample k jj c = sample' k jj c) ->
  rows_filled d0 sample nn ii s -> rows_filled d0 sample' nn ii s.
Proof.
  intros Hsame [Hlen Hrows]. split; [exact Hlen|].
  intros k jj c Hk Hjj Hc. destruct (Hrows k jj c Hk Hjj Hc) as (row & Hrow & Hunit).
  exists row. split; [exact Hrow|]. rewrite <- Hsame by assumption. exact Hunit.
Qed.

(** Two runs of [scale_up], possibly of the two engines, whose readers end
    with the same coefficients in the rows of the image: both return 0, and
    they write streams of the same shape whose units carry the roundings,
    each in its own sample width, of the same values. *)
Lemma scale_up_rel (d' : depth) (fuel : nat) (g g' : storage)
    (inputfile inputfile' : list Z) (m n mm nn maxval maxval' : Z) :
  15 <= m -> 15 <= n -> m <= mm -> n <= nn ->
  m * mm <= CInt.INT_MAX -> n * nn <= CInt.INT_MAX ->
  m * (channels * n) <= CInt.INT_MAX ->
  mm <= Z.of_nat fuel -> nn <= Z.of_nat fuel ->
  (exists res res',
      read_rows d (Z.to_nat (Z.max 1 m))
        (fdiv (fmul (float_of_int mm) (float_of_int nn))
              (fmul (float_of_int m) (float_of_int n)))
        m n 0 inputfile (g_input_row g) (g_a g) = Some (inr res)
      /\ read_rows d' (Z.to_nat (Z.max 1 m))
           (fdiv (fmul (float_of_int mm) (float_of_int nn))
                 (fmul (float_of_int m) (float_of_int n)))
           m n 0 inputfile' (g_input_row g') (g_a g') = Some (inr res')
      /\ forall q, 0 <= q < m * (3 * n) -> snd res q = snd res' q) ->
  exists (s s' : synth) (value : Z -> Z -> Z -> float),
    scale_up d fuel g inputfile m n mm nn maxval = Some (0, outputfile s)
    /\ scale_up d' fuel g' inputfile' m n mm nn maxval' = Some (0, outputfile s')
    /\ rows_done d nn mm s /\ rows_done d' nn mm s'
    /\ rows_filled d (fun k jj c => ROUND_AND_CLAMP_TO_065535 d (value k jj c))
         nn mm s
    /\ rows_filled d' (fun k jj c => ROUND_AND_CLAMP_TO_065535 d' (value k jj c))
         nn mm s'.
Proof.
  intros Hm Hn Hmm Hnn Hfm Hfn Hfa Hfuelm Hfueln
    ([[file1 r1] a1] & [[file1' r1'] a1'] & E1 & E1' & Ha1).
  cbn [snd] in Ha1. unfold scale_up.
  rewrite entry_ints_fit by (unfold channels in *; nia). cbn [negb].
  rewrite E1, E1'. cbn [bind].
  destruct (solve_columns_determined m n a1 a1' ltac:(lia) ltac:(lia) Ha1)
    as (a2 & a2' & E2 & E2' & Ha2).
  rewrite E2, E2'. cbn [bind].
  destruct (last_overlapping_index_determined fuel fuel n nn
              (g_last_overlapping_jj g) (g_last_overlapping_jj g'))
    as (jj_map & jj_map' & Ej & Ej' & Hjj_ok & Hjj); try lia.
  destruct (last_overlapping_index_determined fuel fuel m mm
              (g_last_overlapping_ii g) (g_last_overlapping_ii g'))
    as (ii_map & ii_map' & Ei & Ei' & Hii_ok & Hii); try lia.
  rewrite Ej, Ej', Ei, Ei'. cbn [bind].
  pose proof (overlap_ok_agree n nn jj_map jj_map' ltac:(lia) Hjj_ok Hjj) as Hjj_ok'.
  pose proof (overlap_ok_agree m mm ii_map ii_map' ltac:(lia) Hii_ok Hii) as Hii_ok'.
  destruct (c2f_run_rel n nn jj_map jj_map' (g_previous_integral_l g)
              (g_previous_integral_l g') (g_horizontal g) (g_horizontal g')
              ltac:(lia) Hjj_ok Hjj) as [HH _].
  destruct (c2f_run_rel m mm ii_map ii_map' (g_previous_integral_l g)
              (g_previous_integral_l g') (g_vertical g) (g_vertical g')
              ltac:(lia) Hii_ok Hii) as [HV _].
  set (horizontal := coarse_to_fine_coefficients n nn jj_map _ _) in *.
  set (horizontal' := coarse_to_fine_coefficients n nn jj_map' _ _) in *.
  set (vertical := coarse_to_fine_coefficients m mm ii_map _ _) in *.
  set (vertical' := coarse_to_fine_coefficients m mm ii_map' _ _) in *.
  do 2 eexists.
  exists (direct_sample_value a2 horizontal vertical jj_map ii_map m n).
  split; [reflexivity|]. split; [reflexivity|].
  split; [apply synthesize_spec; try lia; assumption|].
  split; [apply synthesize_spec; try lia; assumption|]. split.
  - apply (synthesize_direct d a2 horizontal vertical jj_map ii_map m n mm nn
             (g_a_left g)); try lia; assumption.
  - apply (rows_filled_ext d'
             (direct_sample d' a2' horizontal' vertical' jj_map' ii_map' m n)).
    + intros k jj c Hk Hjj' Hc.
      change (ROUND_AND_CLAMP_TO_065535 d'
                (direct_sample_value a2' horizontal' vertical' jj_map' ii_map' m n
                                     k jj c)
              = ROUND_AND_CLAMP_TO_065535 d'
                  (direct_sample_value a2 horizontal vertical jj_map ii_map m n
                                       k jj c)).
      f_equal. symmetry.
      apply (direct_sample_value_agree a2 a2' horizontal horizontal' vertical vertical'
               jj_map jj_map' ii_map ii_map' m n mm nn); try lia; assumption.
    + apply (synthesize_direct d' a2' horizontal' vertical' jj_map' ii_map' m n mm nn
               (g_a_left g')); try lia; assumption.
Qed.

(** Two runs of [scale_up] whose readers end with the same coefficients in
    the rows of the image write the same stream. *)
Lemma scale_up_agree (fuel : nat) (g g' : storage) (inputfile inputfile' : list Z)
    (m n mm nn maxval : Z) :
  15 <= m -> 15 <= n -> m <= mm -> n <= nn ->
  m * mm <= CInt.INT_MAX -> n * nn <= CInt.INT_MAX ->
  m * (channels * n) <= CInt.INT_MAX ->
  mm <= Z.of_nat fuel -> nn <= Z.of_nat fuel ->
  (exists res res',
      read_rows d (Z.to_nat (Z.max 1 m))
        (fdiv (fmul (float_of_int mm) (float_of_int nn))
              (fmul (float_of_int m) (float_of_int n)))
        m n 0 inputfile (g_input_row g) (g_a g) = Some (inr res)
      /\ read_rows d (Z.to_nat (Z.max 1 m))
           (fdiv (fmul (float_of_int mm) (float_of_int nn))
                 (fmul (float_of_int m) (float_of_int n)))
           m n 0 inputfile' (g_input_row g') (g_a g') = Some (inr res')
      /\ forall q, 0 <= q < m * (3 * n) -> snd res q = snd res' q) ->
  scale_up d fuel g inputfile m n mm nn maxval
  = scale_up d fuel g' inputfile' m n mm nn maxval.
Proof.
  intros Hm Hn Hmm Hnn Hfm Hfn Hfa Hfuelm Hfueln Hread.
  destruct (scale_up_rel d fuel g g' inputfile inputfile' m n mm nn maxval maxval
              Hm Hn Hmm Hnn Hfm Hfn Hfa Hfuelm Hfueln Hread)
    as (s & s' & value & E & E' & Hd & Hd' & Hf & Hf').
  rewrite E, E'. do 2 f_equal.
  apply (rows_filled_equal _ _ nn mm s s' Hf Hf' Hd Hd').
  intros k jj c _ _ _. reflexivity.
Qed.

(** Reading a stream that breaks off inside the last row, and reading it
    with the units [prev] of the row before appended at the positions the
    last row lacks, end with the same coefficients. *)
Lemma read_rows_padded (s : float) (m n : Z) (prev : Z -> Z) :
  7 <= n ->
  forall (trips : nat) (i : Z) (file : list Z) (input_row : Z -> Z) (a : Z -> float),
    0 <= i < m -> m - i <= Z.of_nat trips ->
    (m - 1 - i) * (3 * n) < Z.of_nat (length file) < (m - i) * (3 * n) ->
    (forall q, 0 <= q < 3 * n ->
        prev q = if i <? m - 1
                 then nth (Z.to_nat ((m - 2 - i) * (3 * n) + q)) file 0
                 else input_row q) ->
    let got := Z.of_nat (length file) - (m - 1 - i) * (3 * n) in
    let pad := map (fun q => prev (Z.of_nat q))
                   (seq (Z.to_nat got) (Z.to_nat (3 * n - got))) in
    exists res res',
      read_rows d trips s m n i file input_row a = Some (inr res)
      /\ read_rows d trips s m n i (file ++ pad) input_row a = Some (inr res')
      /\ forall q, 0 <= q < m * (3 * n) -> snd res q = snd res' q.
Proof.
  intros Hn. induction trips as [|trips IH];
    intros i file input_row a Hi Htrips Hlen Hprev; [lia|].
  cbv zeta. cbn [read_rows]. unfold fread, channels.
  set (got := Z.of_nat (length file) - (m - 1 - i) * (3 * n)).
  set (pad := map (fun q => prev (Z.of_nat q))
                  (seq (Z.to_nat got) (Z.to_nat (3 * n - got)))).
  assert (Hpad : Z.of_nat (length pad) = 3 * n - got).
  { subst pad. rewrite length_map, length_seq. subst got. lia. }
  destruct (Z.ltb_spec i (m - 1)) as [Hfull|Hlast].
  - (* a full row lies ahead in both streams *)
    assert (Hge : (Z.to_nat (3 * n) <= length file)%nat) by nia.
    rewrite (firstn_app (Z.to_nat (3 * n)) file pad).
    replace (Z.to_nat (3 * n) - length file)%nat with 0%nat by lia.
    cbn [firstn]. rewrite app_nil_r.
    rewrite (skipn_app (Z.to_nat (3 * n)) file pad).
    replace (Z.to_nat (3 * n) - length file)%nat with 0%nat by lia.
    cbn [skipn].
    assert (Hgot : Z.of_nat (length (firstn (Z.to_nat (3 * n)) file)) = 3 * n)
      by (rewrite length_firstn; lia).
    rewrite Hgot. destruct (Z.eqb_spec (3 * n) 0) as [E|_]; [lia|].
    set (row := store_from input_row 0 (firstn (Z.to_nat (3 * n)) file)).
    destruct (solve_row_runs d s row n i a Hn) as [a1 Ea1]. rewrite Ea1. cbn [bind].
    destruct (Z.ltb_spec (i + 1) m) as [_|Hc]; [|lia].
    assert (Hlen1 : Z.of_nat (length (skipn (Z.to_nat (3 * n)) file))
                    = Z.of_nat (length file) - 3 * n)
      by (rewrite length_skipn; lia).
    specialize (IH (i + 1) (skipn (Z.to_nat (3 * n)) file) row a1
                  ltac:(lia) ltac:(lia) ltac:(lia)).
    cbv zeta in IH.
    replace (Z.of_nat (length (skipn (Z.to_nat (3 * n)) file))
             - (m - 1 - (i + 1)) * (3 * n)) with got in IH by (subst got; lia).
    apply IH. intros q Hq. rewrite (Hprev q Hq).
    destruct (Z.ltb_spec (i + 1) (m - 1)) as [Hmore|Hnow].
    + rewrite nth_skipn. f_equal.
      assert (0 <= (m - 2 - (i + 1)) * (3 * n)) by nia. lia.
    + assert (i = m - 2) by lia. subst i.
      subst row. rewrite store_from_nth.
      destruct (Z.leb_spec 0 q); [|lia].
      destruct (Z.ltb_spec q (0 + Z.of_nat (length (firstn (Z.to_nat (3 * n)) file))));
        [|lia].
      cbn [andb]. rewrite nth_firstn.
      destruct (Nat.ltb_spec (Z.to_nat (q - 0)) (Z.to_nat (3 * n))); [|lia].
      f_equal. lia.
  - (* the last row: short in the first stream, complete in the second *)
    assert (i = m - 1) by lia. subst i.
    assert (Hgot_eq : got = Z.of_nat (length file)) by (subst got; lia).
    rewrite firstn_all2 by lia.
    rewrite (firstn_all2 (n := Z.to_nat (3 * n)) (file ++ pad))
      by (rewrite length_app; lia).
    rewrite length_app.
    destruct (Z.eqb_spec (Z.of_nat (length file)) 0) as [E|_]; [lia|].
    destruct (Z.eqb_spec (Z.of_nat (length file + length pad)) 0) as [E|_]; [lia|].
    set (row := store_from input_row 0 file).
    set (row' := store_from input_row 0 (file ++ pad)).
    assert (Hrow : forall p, 0 <= p < 3 * n -> row p = row' p).
    { intros p Hp. subst row row'. rewrite !store_from_nth. rewrite length_app.
      destruct (Z.leb_spec 0 p); [|lia].
      destruct (Z.ltb_spec p (0 + Z.of_nat (length file + length pad))); [|lia].
      cbn [andb].
      destruct (Z.ltb_spec p (0 + Z.of_nat (length file))) as [Hin|Hout].
      - rewrite app_nth1 by lia. reflexivity.
      - rewrite app_nth2 by lia.
        specialize (Hprev p Hp).
        destruct (Z.ltb_spec (m - 1) (m - 1)) as [|_]; [lia|].
        rewrite <- Hprev. subst pad.
        rewrite nth_map_seq by lia. f_equal. lia. }
    destruct (solve_row_determined d d s row row' n (m - 1) a a Hn)
      as (a1 & a1' & E1 & E1' & Hframe & Hdet).
    { intros p Hp. rewrite Hrow by exact Hp. reflexivity. }
    rewrite E1, E1'. cbn [bind].
    destruct (Z.ltb_spec (m - 1 + 1) m) as [Hc|_]; [lia|].
    do 2 eexists. split; [reflexivity|]. split; [reflexivity|].
    cbn [snd]. intros q Hq.
    destruct (Z_lt_le_dec q ((m - 1) * (3 * n))) as [Hold|Hnew].
    + destruct (Hframe q ltac:(lia)) as [-> ->]. reflexivity.
    + apply Hdet. lia.
Qed.

Lemma missing_units_length (m n : Z) (inputfile : list Z) :
  (m - 1) * (3 * n) < Z.of_nat (length inputfile) < m * (3 * n) ->
  Z.of_nat (length (inputfile ++ missing_units m n inputfile)) = m * (3 * n).
Proof.
  intros Hlen. rewrite length_app. unfold missing_units.
  rewrite length_map, length_seq. lia.
Qed.

Lemma scale_up_padded (fuel : nat) (g : storage) (inputfile : list Z)
    (m n mm nn maxval : Z) :
  15 <= m -> 15 <= n -> m <= mm -> n <= nn ->
  m * mm <= CInt.INT_MAX -> n * nn <= CInt.INT_MAX ->
  m * (channels * n) <= CInt.INT_MAX ->
  mm <= Z.of_nat fuel -> nn <= Z.of_nat fuel ->
  (m - 1) * (3 * n) < Z.of_nat (length inputfile) < m * (3 * n) ->
  scale_up d fuel g inputfile m n mm nn maxval
  = scale_up d fuel g (inputfile ++ missing_units m n inputfile) m n mm nn maxval.
Proof.
  intros Hm Hn Hmm Hnn Hfm Hfn Hfa Hfuelm Hfueln Hlen.
  apply scale_up_agree; try assumption.
  pose proof (read_rows_padded
                (fdiv (fmul (float_of_int mm) (float_of_int nn))
                      (fmul (float_of_int m) (float_of_int n)))
                m n (fun q => nth (Z.to_nat ((m - 2) * (3 * n) + q)) inputfile 0)
                ltac:(lia) (Z.to_nat (Z.max 1 m)) 0 inputfile (g_input_row g) (g_a g)
                ltac:(lia) ltac:(lia)) as H.
  cbv zeta in H. replace (m - 1 - 0) with (m - 1) in H by lia.
  replace (m - 0) with m in H by lia.
  unfold missing_units. apply H; [exact Hlen|].
  intros q Hq. destruct (Z.ltb_spec 0 (m - 1)) as [_|]; [|lia].
  replace (m - 2 - 0) with (m - 2) by lia. reflexivity.
Qed.

Lemma scale_up_full_independent (fuel : nat) (g g' : storage) (inputfile : list Z)
    (m n mm nn maxval : Z) :
  15 <= m -> 15 <= n -> m <= mm -> n <= nn ->
  m * mm <= CInt.INT_MAX -> n * nn <= CInt.INT_MAX ->
  m * (channels * n) <= CInt.INT_MAX ->
  mm <= Z.of_nat fuel -> nn <= Z.of_nat fuel ->
  m * (3 * n) <= Z.of_nat (length inputfile) ->
  scale_up d fuel g inputfile m n mm nn maxval
  = scale_up d fuel g' inputfile m n mm nn maxval.
Proof.
  intros Hm Hn Hmm Hnn Hfm Hfn Hfa Hfuelm Hfueln Hlen.
  apply scale_up_agree; try assumption.
  apply (read_rows_determined d d
           (fdiv (fmul (float_of_int mm) (float_of_int nn))
                 (fmul (float_of_int m) (float_of_int n)))
           m n ltac:(lia) (Z.to_nat (Z.max 1 m)) 0 inputfile inputfile
           (g_input_row g) (g_input_row g') (g_a g) (g_a g'));
    first [lia | reflexivity | intros q Hq; lia].
Qed.

(** On dimensions in the supported range (m, n >= 15, mm >= m, nn >= n,
    the products [m * mm], [n * nn] and [m * channels * n] within [int]),
    whenever the input stream, a stream of whole units, reaches into the
    last row (so that [scale_up] returns 0), what [scale_up] returns and
    writes is the same whatever the storage holds on entry: the buffers
    from [malloc], the variable-length arrays and the locals read before
    their first assignment ([previous_integral_l], the left taps) have no
    influence on the result. *)
Theorem scale_up_independent_of_storage (fuel : nat) (g g' : storage)
    (inputfile : list Z) (m n mm nn maxval : Z) :
  15 <= m -> 15 <= n -> m <= mm -> n <= nn ->
  m * mm <= CInt.INT_MAX -> n * nn <= CInt.INT_MAX ->
  m * (channels * n) <= CInt.INT_MAX ->
  mm <= Z.of_nat fuel -> nn <= Z.of_nat fuel ->
  (m - 1) * (channels * n) < Z.of_nat (length inputfile) ->
  scale_up d fuel g inputfile m n mm nn maxval
  = scale_up d fuel g' inputfile m n mm nn maxval.
Proof.
  intros Hm Hn Hmm Hnn Hfm Hfn Hfa Hfuelm Hfueln Hlen. unfold channels in Hlen.
  destruct (Z_lt_le_dec (Z.of_nat (length inputfile)) (m * (3 * n))) as [Hcut|Hfull].
  - rewrite (scale_up_padded fuel g inputfile m n mm nn maxval) by (assumption || lia).
    rewrite (scale_up_padded fuel g' inputfile m n mm nn maxval) by (assumption || lia).
    apply scale_up_full_independent; try assumption.
    rewrite missing_units_length by lia. lia.
  - apply scale_up_full_independent; assumption.
Qed.

(** On dimensions in the supported range (m, n >= 15, mm >= m, nn >= n,
    the products [m * mm], [n * nn] and [m * channels * n] within [int]),
    when the stream breaks off inside the last row at the end of a unit (it
    is a stream of whole units: always so for the bytes of the 8-bit engine,
    and for the 16-bit engine a file that does not end in the middle of a
    two-byte unit), [scale_up] returns and writes what it does on the
    stream completed with the units of the row before at the positions that
    the last row lacks: the units left in [input_row] by the previous
    [fread] stand in for the missing ones. *)
Theorem scale_up_on_truncated_last_row (fuel : nat) (g : storage)
    (inputfile : list Z) (m n mm nn maxval : Z) :
  15 <= m -> 15 <= n -> m <= mm -> n <= nn ->
  m * mm <= CInt.INT_MAX -> n * nn <= CInt.INT_MAX ->
  m * (channels * n) <= CInt.INT_MAX ->
  mm <= Z.of_nat fuel -> nn <= Z.of_nat fuel ->
  (m - 1) * (channels * n) < Z.of_nat (length inputfile) < m * (channels * n) ->
  Z.of_nat (length (inputfile ++ missing_units m n inputfile)) = m * (channels * n)
  /\ scale_up d fuel g inputfile m n mm nn maxval
     = scale_up d fuel g (inputfile ++ missing_units m n inputfile) m n mm nn maxval.
Proof.
  intros Hm Hn Hmm Hnn Hfm Hfn Hfa Hfuelm Hfueln Hlen. unfold channels in *. split.
  - apply missing_units_length. exact Hlen.
  - apply scale_up_padded; assumption.
Qed.

(** ** What [scale_up] reads of its input

    On dimensions in the supported range (m, n >= 15, mm >= m, nn >= n, the
    products [m * mm], [n * nn] and [m * channels * n] within [int]),
    [scale_up] reads of the stream the [m] rows of [channels * n] units of
    the image and nothing after them, and it never looks at [maxval]: two
    calls on streams that start with the same image, whatever follows it,
    whatever [maxval] is passed and whatever the allocated storage holds,
    have the same result. *)
Theorem scale_up_reads_image_only (fuel : nat) (g g' : storage)
    (inputfile inputfile' : list Z) (m n mm nn maxval maxval' : Z) :
  15 <= m -> 15 <= n -> m <= mm -> n <= nn ->
  m * mm <= CInt.INT_MAX -> n * nn <= CInt.INT_MAX ->
  m * (channels * n) <= CInt.INT_MAX ->
  mm <= Z.of_nat fuel -> nn <= Z.of_nat fuel ->
  m * (channels * n) <= Z.of_nat (length inputfile) ->
  firstn (Z.to_nat (m * (channels * n))) inputfile
  = firstn (Z.to_nat (m * (channels * n))) inputfile' ->
  scale_up d fuel g inputfile m n mm nn maxval
  = scale_up d fuel g' inputfile' m n mm nn maxval'.
Proof.
  intros Hm Hn Hmm Hnn Hfm Hfn Hfa Hfuelm Hfueln Hlen Hsame. unfold channels in *.
  assert (Hlen' : m * (3 * n) <= Z.of_nat (length inputfile')).
  { pose proof (f_equal (@length Z) Hsame) as H. rewrite !length_firstn in H. lia. }
  destruct (scale_up_rel d fuel g g' inputfile inputfile' m n mm nn maxval maxval'
              Hm Hn Hmm Hnn Hfm Hfn Hfa Hfuelm Hfueln)
    as (s & s' & value & E & E' & Hd & Hd' & Hf & Hf').
  { apply (read_rows_determined d d
             (fdiv (fmul (float_of_int mm) (float_of_int nn))
                   (fmul (float_of_int m) (float_of_int n)))
             m n ltac:(lia) (Z.to_nat (Z.max 1 m)) 0 inputfile inputfile'
             (g_input_row g) (g_input_row g') (g_a g) (g_a g')); try lia.
    intros q Hq. f_equal.
    pose proof (f_equal (fun l => nth (Z.to_nat q) l 0) Hsame) as H. cbn beta in H.
    rewrite !nth_firstn in H.
    destruct (Nat.ltb_spec (Z.to_nat q) (Z.to_nat (m * (3 * n)))); [exact H|lia]. }
  rewrite E, E'. do 2 f_equal.
  apply (rows_filled_equal _ _ nn mm s s' Hf Hf' Hd Hd').
  intros k jj c _ _ _. reflexivity.
Qed.

End StorageIndependence.

(** ** [scale_up] asked to downsize *)

Section Downsizing.

Context {FO : FloatOps}.
Variable d : depth.

Lemma while_lt_done {St : Type} (i hi : Z) (body : Z -> St -> St) (s : St) :
  hi <= i -> while_lt i hi body s = (i, s).
Proof.
  intros H. unfold while_lt.
  replace (Z.to_nat (hi - i)) with 0%nat by lia. cbn [iter_from].
  f_equal. lia.
Qed.

Lemma identity_overlap_ok (o : Z) (lo : Z -> Z) :
  2 <= o -> (forall k, 0 <= k <= o - 2 -> lo k = k) -> overlap_ok o (o - 1) lo.
Proof.
  intros Ho Hlo. unfold overlap_ok. rewrite (Hlo 0), (Hlo (o - 2)) by lia.
  split; [lia|]. split; [|lia].
  intros k Hk. rewrite (Hlo k), (Hlo (k + 1)) by lia. lia.
Qed.

(** With the identity map, the pass of the column loop for [nn] fine
    columns is the pass for [n - 1] fine columns as soon as [nn <= n - 1]. *)
Lemma synthesize_row_short (kind : row_kind) (a : Z -> float) (weights : list float)
    (horizontal : bands) (lo : Z -> Z) (n nn : Z) (rows : list Z)
    (a_left0 : Z -> float) (buffer : Z -> Z) :
  4 <= n -> (forall k, 0 <= k <= n - 2 -> lo k = k) -> nn <= n - 1 ->
  synthesize_row d kind a weights horizontal lo n nn rows a_left0 buffer
  = synthesize_row d kind a weights horizontal lo n (n - 1) rows a_left0 buffer.
Proof.
  intros Hn Hlo Hnn. unfold synthesize_row.
  destruct (while_lt 0 (lo 0) _ _) as [jj1 ob1].
  destruct (do_while_lt 1 (n - 2) _ _) as [j [[jj3 wins3] ob3]] eqn:E3.
  assert (Hj : j = n - 2).
  { pose proof (f_equal fst E3) as H. unfold do_while_lt, while_lt in H.
    cbn [fst] in H. lia. }
  subst j.
  assert (Hidx : second_to_last_index kind (n - 2) (n - 2) = n - 2)
    by (destruct kind; reflexivity).
  rewrite Hidx. rewrite (Hlo (n - 2)) by lia.
  destruct (while_lt jj3 (n - 2 + 1) _ ob3) as [jj4 ob4] eqn:E4.
  assert (Hjj4 : n - 1 <= jj4).
  { pose proof (f_equal fst E4) as H. unfold while_lt in H. cbn [fst] in H. lia. }
  rewrite !while_lt_done by lia. reflexivity.
Qed.

(** Asked for fewer fine columns than [n - 1], the column loop still stores
    [n - 1] pixels: with the identity map that [last_overlapping_index]
    writes when [nn <= n], one pass ends at [jj = n - 1] having stored
    [channels * (n - 1)] samples from the start of the row buffer, whose
    [channels * nn] entries it thereby overruns. *)
Theorem synthesize_row_when_downsizing (kind : row_kind) (a : Z -> float)
    (weights : list float) (horizontal : bands) (last_overlapping_jj : Z -> Z)
    (n nn : Z) (rows : list Z) (a_left0 : Z -> float) (buffer : Z -> Z) :
  4 <= n -> (forall k, 0 <= k <= n - 2 -> last_overlapping_jj k = k) ->
  nn < n - 1 ->
  exists ob,
    synthesize_row d kind a weights horizontal last_overlapping_jj n nn
                   rows a_left0 buffer = (n - 1, ob)
    /\ output_row_p ob = channels * (n - 1)
    /\ channels * nn < output_row_p ob
    /\ forall q, 0 <= q < channels * (n - 1) -> rounded d (output_row ob q).
Proof.
  intros Hn Hlo Hnn.
  rewrite (synthesize_row_short kind a weights horizontal last_overlapping_jj n nn
             rows a_left0 buffer Hn Hlo ltac:(lia)).
  destruct (synthesize_row_spec d kind a weights horizontal last_overlapping_jj n (n - 1)
              Hn (identity_overlap_ok n last_overlapping_jj ltac:(lia) Hlo)
              rows a_left0 buffer) as (ob & E & Hp & Hdone).
  exists ob. split; [exact E|]. split; [exact Hp|]. split; [|exact Hdone].
  rewrite Hp. unfold channels. lia.
Qed.

(** Asked for fewer fine rows than [m - 1], the row loops still write
    [m - 1] rows: with the identity map on the rows and a valid map on the
    columns, the stream written has [m - 1] rows of [channels * nn] units,
    more than the [mm] asked for. *)
Theorem synthesize_when_downsizing (a : Z -> float) (horizontal vertical : bands)
    (last_overlapping_jj last_overlapping_ii : Z -> Z) (m n mm nn : Z)
    (a_left0 : Z -> float) (output_row0 : Z -> Z) :
  4 <= n -> 4 <= m -> 0 <= nn -> overlap_ok n nn last_overlapping_jj ->
  (forall k, 0 <= k <= m - 2 -> last_overlapping_ii k = k) ->
  mm < m - 1 ->
  let s := synthesize d a horizontal vertical last_overlapping_jj last_overlapping_ii
                      m n mm nn a_left0 output_row0 in
  Z.of_nat (length (outputfile s)) = m - 1
  /\ mm < Z.of_nat (length (outputfile s))
  /\ forall row, In row (outputfile s) -> Z.of_nat (length row) = channels * nn.
Proof.
  intros Hn Hm Hnn Hjj Hii Hmm. cbv zeta.
  assert (E : synthesize d a horizontal vertical last_overlapping_jj last_overlapping_ii
                         m n mm nn a_left0 output_row0
              = synthesize d a horizontal vertical last_overlapping_jj
                           last_overlapping_ii m n (m - 1) nn a_left0 output_row0).
  { unfold synthesize.
    destruct (while_lt 0 (last_overlapping_ii 0) _ _) as [ii1 s1].
    destruct (do_while_lt 1 (m - 2) _ _) as [i [ii3 s3]].
    rewrite (Hii (m - 2)) by lia.
    destruct (while_lt ii3 (m - 2 + 1) _ s3) as [ii4 s4] eqn:E4.
    assert (Hii4 : m - 1 <= ii4).
    { pose proof (f_equal fst E4) as H. unfold while_lt in H. cbn [fst] in H. lia. }
    rewrite !while_lt_done by lia. reflexivity. }
  rewrite E.
  destruct (synthesize_spec d a horizontal vertical last_overlapping_jj
              last_overlapping_ii m n (m - 1) nn a_left0 Hn Hm Hnn Hjj
              (identity_overlap_ok m last_overlapping_ii ltac:(lia) Hii) output_row0)
    as [Hcount Hrows].
  split; [exact Hcount|]. split; [lia|].
  intros row Hrow. rewrite Forall_forall in Hrows.
  destruct (Hrows row Hrow) as [Hlength _]. exact Hlength.
Qed.

End Downsizing.

(** ** The two engines side by side *)

Section EngineComparison.

Context {FO : FloatOps}.

(** Two states of the row loops, possibly of the two engines, that hold rows
    of the same length in which every unit of the second is the image under
    [f] of the unit of the first. *)
Lemma rows_filled_mapped (d1 d2 : depth) (f : Z -> Z) (sample sample' : Z -> Z -> Z -> Z)
    (nn mm : Z) (s s' : synth) :
  rows_filled d1 sample nn mm s -> rows_filled d2 sample' nn mm s' ->
  rows_done d1 nn mm s -> rows_done d2 nn mm s' ->
  (forall k jj c, 0 <= k < mm -> 0 <= jj < nn -> 0 <= c < 3 ->
      encode d2 (sample' k jj c) = f (encode d1 (sample k jj c))) ->
  outputfile s' = map (map f) (outputfile s).
Proof.
  intros [Hlen Hrows] [Hlen' Hrows'] [_ Hdone] [_ Hdone'] Hsame.
  apply nth_error_ext. intros k. rewrite nth_error_map.
  destruct (nth_error (outputfile s) k) as [row|] eqn:E;
    destruct (nth_error (outputfile s') k) as [row'|] eqn:E'; cbn [option_map].
  - f_equal.
    assert (Hk : 0 <= Z.of_nat k < mm).
    { pose proof (proj1 (nth_error_Some (outputfile s) k) ltac:(rewrite E; discriminate)).
      lia. }
    assert (Hl : Z.of_nat (length row) = 3 * nn).
    { rewrite Forall_forall in Hdone.
      destruct (Hdone row (nth_error_In _ _ E)) as [Hl _]. exact Hl. }
    assert (Hl' : Z.of_nat (length row') = 3 * nn).
    { rewrite Forall_forall in Hdone'.
      destruct (Hdone' row' (nth_error_In _ _ E')) as [Hl' _]. exact Hl'. }
    apply nth_error_ext. intros q. rewrite nth_error_map.
    destruct (Z_lt_le_dec (Z.of_nat q) (3 * nn)) as [Hq|Hq].
    + pose proof (Z.div_mod (Z.of_nat q) 3 ltac:(lia)) as Hdm.
      pose proof (Z.mod_pos_bound (Z.of_nat q) 3 ltac:(lia)) as Hm.
      assert (Hjj : 0 <= Z.of_nat q / 3 < nn)
        by (split; [apply Z.div_pos; lia|apply Z.div_lt_upper_bound; lia]).
      destruct (Hrows (Z.of_nat k) (Z.of_nat q / 3) (Z.of_nat q mod 3) Hk Hjj Hm)
        as (r1 & Hr1 & Hu1).
      destruct (Hrows' (Z.of_nat k) (Z.of_nat q / 3) (Z.of_nat q mod 3) Hk Hjj Hm)
        as (r1' & Hr1' & Hu1').
      rewrite Nat2Z.id in Hr1, Hr1'. rewrite E in Hr1. rewrite E' in Hr1'.
      injection Hr1 as <-. injection Hr1' as <-.
      unfold channels in *.
      replace (Z.to_nat (3 * (Z.of_nat q / 3) + Z.of_nat q mod 3)) with q in Hu1, Hu1'
        by lia.
      rewrite Hu1, Hu1'. cbn [option_map]. rewrite Hsame by assumption. reflexivity.
    + rewrite (proj2 (nth_error_None row q)) by lia.
      rewrite (proj2 (nth_error_None row' q)) by lia. reflexivity.
  - pose proof (proj1 (nth_error_Some (outputfile s) k) ltac:(rewrite E; discriminate)).
    pose proof (proj1 (nth_error_None (outputfile s') k) E'). lia.
  - pose proof (proj1 (nth_error_Some (outputfile s') k) ltac:(rewrite E'; discriminate)).
    pose proof (proj1 (nth_error_None (outputfile s) k) E). lia.
  - reflexivity.
Qed.

(** The macro of eanbqh8.c gives what the macro of eanbqh.c gives, saturated
    at 255. *)
Lemma round_and_clamp_saturated (x : float) :
  ROUND_AND_CLAMP_TO_065535 Bits8 x = Z.min 255 (ROUND_AND_CLAMP_TO_065535 Bits16 x).
Proof.
  unfold ROUND_AND_CLAMP_TO_065535, clamp, clamp_max.
  set (out := int_of_double _).
  destruct (Z.gtb_spec out 255); destruct (Z.gtb_spec out 65535);
    destruct (Z.ltb_spec out 0); lia.
Qed.

Lemma round_and_clamp_range (d : depth) (x : float) :
  0 <= ROUND_AND_CLAMP_TO_065535 d x <= 65535.
Proof.
  unfold ROUND_AND_CLAMP_TO_065535, clamp, clamp_max.
  set (out := int_of_double _).
  destruct d; destruct (Z.gtb_spec out 255); destruct (Z.gtb_spec out 65535);
    destruct (Z.ltb_spec out 0); lia.
Qed.

Lemma nth_map_swap_bytes (file : list Z) (k : nat) :
  nth k (map swap_bytes file) 0 = swap_bytes (nth k file 0).
Proof. exact (map_nth swap_bytes file 0 k). Qed.

(** ** The 8-bit engine against the 16-bit one

    Take an image with 8-bit samples, as the stream [file] of its bytes, and
    the same sample values stored as 16-bit big-endian units, on dimensions
    in the supported range (m, n >= 15, mm >= m, nn >= n, the products
    [m * mm], [n * nn] and [m * channels * n] within [int]).  [scale_up] of
    eanbqh8.c on the first and [scale_up] of eanbqh.c on the second both
    return 0; their output streams have the same shape, and every byte that
    the 8-bit engine writes is the sample that the 16-bit engine writes at
    that place (its unit with the bytes swapped back), saturated at 255. *)
Theorem scale_up_engines_agree (fuel : nat) (g g' : storage) (file : list Z)
    (m n mm nn maxval maxval' : Z) :
  15 <= m -> 15 <= n -> m <= mm -> n <= nn ->
  m * mm <= CInt.INT_MAX -> n * nn <= CInt.INT_MAX ->
  m * (channels * n) <= CInt.INT_MAX ->
  mm <= Z.of_nat fuel -> nn <= Z.of_nat fuel ->
  Forall (fun u => 0 <= u <= 255) file ->
  m * (channels * n) <= Z.of_nat (length file) ->
  exists rows16 : list (list Z),
    scale_up Bits16 fuel g (map swap_bytes file) m n mm nn maxval = Some (0, rows16)
    /\ scale_up Bits8 fuel g' file m n mm nn maxval'
       = Some (0, map (map (fun u => Z.min 255 (swap_bytes u))) rows16).
Proof.
  intros Hm Hn Hmm Hnn Hfm Hfn Hfa Hfuelm Hfueln Hfile Hlen. unfold channels in Hlen.
  destruct (scale_up_rel Bits16 Bits8 fuel g g' (map swap_bytes file) file
              m n mm nn maxval maxval' Hm Hn Hmm Hnn Hfm Hfn Hfa Hfuelm Hfueln)
    as (s & s' & value & E & E' & Hd & Hd' & Hf & Hf').
  { apply (read_rows_determined Bits16 Bits8
             (fdiv (fmul (float_of_int mm) (float_of_int nn))
                   (fmul (float_of_int m) (float_of_int n)))
             m n ltac:(lia) (Z.to_nat (Z.max 1 m)) 0 (map swap_bytes file) file
             (g_input_row g) (g_input_row g') (g_a g) (g_a g'));
      rewrite ?length_map; try lia.
    intros q Hq. rewrite nth_map_swap_bytes.
    assert (Hu : 0 <= nth (Z.to_nat q) file 0 <= 255).
    { rewrite Forall_forall in Hfile. apply Hfile. apply nth_In. nia. }
    cbn [decode]. apply swap_bytes_twice. lia. }
  exists (outputfile s). split; [exact E|]. rewrite E'. do 2 f_equal.
  apply (rows_filled_mapped Bits16 Bits8 _ _ _ nn mm s s' Hf Hf' Hd Hd').
  intros k jj c _ _ _. cbn [encode].
  rewrite (proj2 (swap_bytes_twice _ (round_and_clamp_range Bits16 _))).
  apply round_and_clamp_saturated.
Qed.

End EngineComparison.

(** ** The further properties at concrete inputs *)

Lemma solve_row_back_substitution_witness :
  exists w a',
    row_forward Bits8 (IEEE.of_int 24 128 4) (fun _ => 100) 15 0 IEEE.ramp_grid
    = Some w
    /\ solve_row Bits8 (IEEE.of_int 24 128 4) (fun _ => 100) 15 0 IEEE.ramp_grid
       = Some a'
    /\ (forall q, q < 0 * (channels * 15) \/ (0 + 1) * (channels * 15) <= q ->
          a' q = IEEE.ramp_grid q)
    /\ (forall j c, 0 <= j < 15 - 1 -> 0 <= c < channels ->
          a' (0 * (channels * 15) + channels * j + c)
          = fmul (fsub (w_a w (0 * (channels * 15) + channels * j + c))
                       (a' (0 * (channels * 15) + channels * (j + 1) + c)))
                 (backward_multiplier j)).
Proof.
  apply (solve_row_back_substitution (FO := IEEE.ops) Bits8 (IEEE.of_int 24 128 4)
           (fun _ => 100) 15 0 IEEE.ramp_grid); lia.
Defined.

Lemma solve_columns_back_substitution_witness :
  exists a',
    solve_columns 15 15 IEEE.ramp_grid = Some a'
    /\ (forall q, q < 0 \/ 15 * (channels * 15) <= q -> a' q = IEEE.ramp_grid q)
    /\ (forall r q, 0 <= r < 15 - 1 -> 0 <= q < channels * 15 ->
          a' (r * (channels * 15) + q)
          = fmul (fsub (w_a (snd (col_forward 15 15 IEEE.ramp_grid))
                            (r * (channels * 15) + q))
                       (a' ((r + 1) * (channels * 15) + q)))
                 (backward_multiplier r)).
Proof.
  apply (solve_columns_back_substitution (FO := IEEE.ops) 15 15 IEEE.ramp_grid); lia.
Defined.

Lemma synthesize_row_by_direct_indexing_witness :
  exists ob,
    synthesize_row Bits8 InteriorLast IEEE.ramp_grid
      (map (IEEE.of_int 24 128) [1; 2; 3; 4]) IEEE.zero_bands (fun k => k) 4 4
      [0; 12; 24; 36] (fun _ => S754_zero false) (fun _ => 0) = (4, ob)
    /\ (forall jj c, 0 <= jj < 4 -> 0 <= c < channels ->
          output_row ob (channels * jj + c)
          = ROUND_AND_CLAMP_TO_065535 Bits8
              (direct_value InteriorLast IEEE.ramp_grid
                 (map (IEEE.of_int 24 128) [1; 2; 3; 4]) IEEE.zero_bands (fun k => k) 4
                 [0; 12; 24; 36] jj c))
    /\ (forall q, q < 0 \/ channels * 4 <= q -> output_row ob q = 0).
Proof.
  apply (synthesize_row_by_direct_indexing (FO := IEEE.ops) Bits8 InteriorLast
           IEEE.ramp_grid (map (IEEE.of_int 24 128) [1; 2; 3; 4]) IEEE.zero_bands
           (fun k => k) 4 4 [0; 12; 24; 36] (fun _ => S754_zero false) (fun _ => 0)).
  - lia.
  - unfold overlap_ok. repeat split; intros; lia.
Defined.

Lemma synthesize_by_direct_indexing_witness :
  Z.of_nat (length (outputfile
     (synthesize Bits8 IEEE.ramp_grid IEEE.zero_bands IEEE.zero_bands
        (fun k => k) (fun k => k) 4 4 4 4 (fun _ => S754_zero false) (fun _ => 0)))) = 4
  /\ forall ii jj c, 0 <= ii < 4 -> 0 <= jj < 4 -> 0 <= c < channels ->
       exists row,
         nth_error (outputfile
           (synthesize Bits8 IEEE.ramp_grid IEEE.zero_bands IEEE.zero_bands
              (fun k => k) (fun k => k) 4 4 4 4 (fun _ => S754_zero false) (fun _ => 0)))
           (Z.to_nat ii) = Some row
         /\ nth_error row (Z.to_nat (channels * jj + c))
            = Some (encode Bits8
                      (direct_sample Bits8 IEEE.ramp_grid IEEE.zero_bands IEEE.zero_bands
                                     (fun k => k) (fun k => k) 4 4 ii jj c)).
Proof.
  apply (synthesize_by_direct_indexing (FO := IEEE.ops) Bits8 IEEE.ramp_grid
           IEEE.zero_bands IEEE.zero_bands (fun k => k) (fun k => k) 4 4 4 4
           (fun _ => S754_zero false) (fun _ => 0)).
  - lia.
  - lia.
  - unfold overlap_ok. repeat split; intros; lia.
  - unfold overlap_ok. repeat split; intros; lia.
Defined.

Lemma scale_up_output_reads_back_witness :
  exists rows,
    scale_up Bits16 30 IEEE.zero_storage IEEE.constant_image 15 15 30 30 65535
    = Some (0, rows)
    /\ forall row unit, In row rows -> In unit row ->
         0 <= unit <= clamp_max Bits16 /\ rounded Bits16 (decode Bits16 unit).
Proof.
  apply (scale_up_output_reads_back (FO := IEEE.ops) Bits16 30%nat IEEE.zero_storage
           IEEE.constant_image 15 15 30 30 65535);
    concrete.
Defined.

Lemma coarse_to_fine_coefficients_footprint_witness :
  let result :=
    coarse_to_fine_coefficients 3 3 (fun k => k) (S754_zero false) IEEE.zero_bands in
  (forall q, q <= 0 \/ 3 <= q -> b_left result q = b_left IEEE.zero_bands q)
  /\ (forall q, q < 0 \/ 3 <= q -> b_center result q = b_center IEEE.zero_bands q)
  /\ (forall q, q < 0 \/ 3 - 2 < q -> b_right result q = b_right IEEE.zero_bands q)
  /\ (forall q, q < 0 \/ 3 - 1 <= q ->
        b_farright result q = b_farright IEEE.zero_bands q).
Proof.
  apply (coarse_to_fine_coefficients_footprint (FO := IEEE.ops) 3 3 (fun k => k)
           (S754_zero false) IEEE.zero_bands).
  - lia.
  - unfold overlap_ok. repeat split; intros; lia.
Defined.

Lemma coarse_to_fine_coefficients_independent_witness :
  let result :=
    coarse_to_fine_coefficients 3 3 (fun k => k) (S754_zero false) IEEE.zero_bands in
  let result' :=
    coarse_to_fine_coefficients 3 3 (fun k => k) (IEEE.of_int 53 1024 7)
      ramp_bands in
  (forall q, 0 < q < 3 -> b_left result q = b_left result' q)
  /\ (forall q, 0 <= q < 3 -> b_center result q = b_center result' q)
  /\ (forall q, 0 <= q <= 3 - 2 -> b_right result q = b_right result' q)
  /\ (forall q, 0 <= q <= 3 - 2 -> b_farright result q = b_farright result' q).
Proof.
  apply (coarse_to_fine_coefficients_independent (FO := IEEE.ops) 3 3
           (fun k => k) (fun k => k) (S754_zero false) (IEEE.of_int 53 1024 7)
           IEEE.zero_bands
           ramp_bands).
  - lia.
  - unfold overlap_ok. repeat split; intros; lia.
  - reflexivity.
Defined.

Lemma synthesize_reads_inside_witness :
  outputfile (synthesize Bits8 IEEE.ramp_grid IEEE.zero_bands IEEE.zero_bands
                (fun k => k) (fun k => k) 4 4 4 4 (fun _ => S754_zero false)
                (fun _ => 0))
  = outputfile (synthesize Bits8 IEEE.ramp_grid IEEE.zero_bands IEEE.zero_bands
                  (fun k => k) (fun k => k) 4 4 4 4 IEEE.ramp_grid (fun _ => 9)).
Proof.
  apply (synthesize_reads_inside (FO := IEEE.ops) Bits8 IEEE.ramp_grid IEEE.ramp_grid
           IEEE.zero_bands IEEE.zero_bands IEEE.zero_bands IEEE.zero_bands
           (fun k => k) (fun k => k) (fun k => k) (fun k => k) 4 4 4 4
           (fun _ => S754_zero false) IEEE.ramp_grid (fun _ => 0) (fun _ => 9)).
  - lia.
  - lia.
  - unfold overlap_ok. repeat split; intros; lia.
  - unfold overlap_ok. repeat split; intros; lia.
  - reflexivity.
  - reflexivity.
  - reflexivity.
  - unfold bands_agree. repeat split; reflexivity.
  - unfold bands_agree. repeat split; reflexivity.
Defined.

Lemma scale_up_independent_of_storage_witness :
  scale_up Bits8 30 IEEE.zero_storage IEEE.constant_image 15 15 30 30 255
  = scale_up Bits8 30
      ramp_storage
      IEEE.constant_image 15 15 30 30 255.
Proof.
  apply (scale_up_independent_of_storage (FO := IEEE.ops) Bits8 30%nat
           IEEE.zero_storage
           ramp_storage
           IEEE.constant_image 15 15 30 30 255);
    concrete.
Defined.

Lemma scale_up_on_truncated_last_row_witness :
  Z.of_nat (length (IEEE.truncated_image ++ missing_units 15 15 IEEE.truncated_image))
  = 15 * (channels * 15)
  /\ scale_up Bits8 15 IEEE.zero_storage IEEE.truncated_image 15 15 15 15 255
     = scale_up Bits8 15 IEEE.zero_storage
         (IEEE.truncated_image ++ missing_units 15 15 IEEE.truncated_image)
         15 15 15 15 255.
Proof.
  apply (scale_up_on_truncated_last_row (FO := IEEE.ops) Bits8 15%nat
           IEEE.zero_storage IEEE.truncated_image 15 15 15 15 255);
    concrete.
Defined.

Lemma synthesize_row_when_downsizing_witness :
  exists ob,
    synthesize_row Bits8 FirstInner IEEE.ramp_grid
      (map (IEEE.of_int 24 128) [1; 2]) IEEE.zero_bands (fun k => k) 15 10
      [0; 45] (fun _ => S754_zero false) (fun _ => 0) = (15 - 1, ob)
    /\ output_row_p ob = channels * (15 - 1)
    /\ channels * 10 < output_row_p ob
    /\ forall q, 0 <= q < channels * (15 - 1) -> rounded Bits8 (output_row ob q).
Proof.
  apply (synthesize_row_when_downsizing (FO := IEEE.ops) Bits8 FirstInner IEEE.ramp_grid
           (map (IEEE.of_int 24 128) [1; 2]) IEEE.zero_bands (fun k => k) 15 10
           [0; 45] (fun _ => S754_zero false) (fun _ => 0)).
  - lia.
  - reflexivity.
  - lia.
Defined.

Lemma synthesize_when_downsizing_witness :
  let s := synthesize Bits8 IEEE.ramp_grid IEEE.zero_bands IEEE.zero_bands
             (fun k => k) (fun k => k) 15 4 10 4 (fun _ => S754_zero false)
             (fun _ => 0) in
  Z.of_nat (length (outputfile s)) = 15 - 1
  /\ 10 < Z.of_nat (length (outputfile s))
  /\ forall row, In row (outputfile s) -> Z.of_nat (length row) = channels * 4.
Proof.
  apply (synthesize_when_downsizing (FO := IEEE.ops) Bits8 IEEE.ramp_grid
           IEEE.zero_bands IEEE.zero_bands (fun k => k) (fun k => k) 15 4 10 4
           (fun _ => S754_zero false) (fun _ => 0)).
  - lia.
  - lia.
  - lia.
  - unfold overlap_ok. repeat split; intros; lia.
  - reflexivity.
  - lia.
Defined.

Lemma coarse_to_fine_boundary_offset_witness :
  exists lo,
    lo_run 15 22 (fun _ => 0) = Some lo
    /\ forall k s, 0 <= k <= 15 - 2 ->
         let e := (lo k + 1) * 15 - (k + 1) * 22 in
         0 <= e < 15
         /\ x (c2f_interior_boundary 15 22 (S754_zero false) k (lo k) s)
            = dmul (double_of_int e) (S754_zero false)
         /\ (k = 0 ->
             x (c2f_first_boundary 15 22 (S754_zero false) (lo 0) s)
             = dmul (double_of_int e) (S754_zero false)).
Proof.
  apply (coarse_to_fine_boundary_offset (FO := IEEE.ops) 15 22 (fun _ => 0)
           (S754_zero false));
    unfold CInt.INT_MAX; lia.
Defined.

Lemma synthesize_defect_confined_witness :
  exists row,
    nth_error
      (outputfile (synthesize Bits8 IEEE.ramp_grid IEEE.zero_bands IEEE.zero_bands
                     (fun k => k) (fun k => k) 4 4 4 4 (fun _ => S754_zero false)
                     (fun _ => 0)))
      (Z.to_nat 1) = Some row
    /\ nth_error row (Z.to_nat (channels * 0 + 0))
       = Some (encode Bits8
                 (analogous_sample Bits8 IEEE.ramp_grid IEEE.zero_bands IEEE.zero_bands
                                   (fun k => k) (fun k => k) 4 4 1 0 0)).
Proof.
  apply (synthesize_defect_confined (FO := IEEE.ops) Bits8 IEEE.ramp_grid
           IEEE.zero_bands IEEE.zero_bands (fun k => k) (fun k => k) 4 4 4 4
           (fun _ => S754_zero false) (fun _ => 0)).
  - lia.
  - lia.
  - unfold overlap_ok. repeat split; intros; lia.
  - unfold overlap_ok. repeat split; intros; lia.
  - lia.
  - lia.
  - unfold channels. lia.
  - right. lia.
Defined.

Lemma scale_up_engines_agree_witness :
  exists rows16 : list (list Z),
    scale_up Bits16 30 IEEE.zero_storage (map swap_bytes IEEE.constant_image)
      15 15 30 30 65535 = Some (0, rows16)
    /\ scale_up Bits8 30 ramp_storage IEEE.constant_image 15 15 30 30 255
       = Some (0, map (map (fun u => Z.min 255 (swap_bytes u))) rows16).
Proof.
  apply (scale_up_engines_agree (FO := IEEE.ops) 30%nat IEEE.zero_storage ramp_storage
           IEEE.constant_image 15 15 30 30 65535 255);
    try concrete.
  unfold IEEE.constant_image. apply Forall_forall. intros u Hu.
  apply repeat_spec in Hu. lia.
Defined.

Lemma scale_up_reads_image_only_witness :
  scale_up Bits8 30 IEEE.zero_storage IEEE.constant_image 15 15 30 30 255
  = scale_up Bits8 30 ramp_storage (IEEE.constant_image ++ [1; 2; 3]) 15 15 30 30 7.
Proof.
  apply (scale_up_reads_image_only (FO := IEEE.ops) Bits8 30%nat IEEE.zero_storage
           ramp_storage IEEE.constant_image (IEEE.constant_image ++ [1; 2; 3])
           15 15 30 30 255 7);
    concrete.
Defined.

Lemma C3_output_samples_rounded_and_clamped_witness :
  4 <= 4
  /\ overlap_ok 4 4 (fun k => k)
  /\ exists row unit,
       nth_error
         (outputfile (synthesize Bits8 IEEE.ramp_grid IEEE.zero_bands IEEE.zero_bands
                        (fun k => k) (fun k => k) 4 4 4 4 (fun _ => S754_zero false)
                        (fun _ => 0)))
         (Z.to_nat 1) = Some row
       /\ nth_error row (Z.to_nat (channels * 2 + 0)) = Some unit
       /\ let x := direct_sample_value IEEE.ramp_grid IEEE.zero_bands IEEE.zero_bands
                                       (fun k => k) (fun k => k) 4 4 1 2 0 in
          let out := int_of_double (dadd (double_lit 5 1) (double_of_float x)) in
          decode Bits8 unit
          = if out >? clamp_max Bits8 then clamp_max Bits8
            else if out <? 0 then 0 else out.
Proof.
  assert (Hok : overlap_ok 4 4 (fun k => k))
    by (unfold overlap_ok; repeat split; intros; lia).
  split; [lia|]. split; [exact Hok|].
  apply (proj2 (C3_output_samples_rounded_and_clamped (FO := IEEE.ops) Bits8)
           IEEE.ramp_grid IEEE.zero_bands IEEE.zero_bands (fun k => k) (fun k => k)
           4 4 4 4 (fun _ => S754_zero false) (fun _ => 0)
           ltac:(lia) ltac:(lia) Hok Hok 1 2 0);
    unfold channels; lia.
Defined.
